(** * VLE: package table, experimental conditions and the DEVS coordinator

  A shallow embedding of three translation units of the VLE sources:

  - [vle/utils/PackageTable.cpp] (the table of package names and its
    current selection),
  - [vle/vpz/Condition.cpp] (the ports of an experimental condition and
    their value sets),
  - [vle/devs/Coordinator.cpp] (the non hierarchical DEVS coordinator).

  Pointers are object identities (numbers), [std::set] and [std::map] are
  stdpp's [gset] and [gmap], exceptions are an explicit outcome next to the
  state the call leaves behind. *)

From stdpp Require Import gmap strings list fin_maps sorting.
From Stdlib Require Import ZArith Lia.

Local Open Scope Z_scope.

(* ===================================================================== *)
(** ** vle/utils/PackageTable.cpp *)
(* ===================================================================== *)

Module PackageTable.

(** [PackageTable::index] is a [const_iterator] of the [std::set] of
    names.  Iterators of a [std::set] stay valid until their element is
    erased and two iterators are equal when they designate the same
    element: an index is the name it designates. *)
Definition index := string.

Record t := mk {
  m_table : gset string;
  m_current : index
}.

(** The exceptions of [vle/utils/Exception.hpp] a call can leave with. *)
Inductive exn := ArgError (msg : string).

Inductive outcome := Returned | Thrown (e : exn).

(** [PackageTable::PackageTable()]:
    [m_current = m_table.insert(std::string()).first]. *)
Definition init : t :=
  {| m_table := {[ ""%string ]}; m_current := ""%string |}.

(** [PackageTable::current(package)]: [std::set::insert] returns the
    position of the name and whether it was inserted; the selection moves
    only in the second case. *)
Definition current (p : t) (package : string) : t :=
  let second := bool_decide (package ∉ m_table p) in
  let table' := m_table p ∪ {[ package ]} in
  if second
  then {| m_table := table'; m_current := package |}
  else {| m_table := table'; m_current := m_current p |}.

(** [PackageTable::get(package)]: [m_table.insert(package).first]. *)
Definition get (p : t) (package : string) : t * index :=
  ({| m_table := m_table p ∪ {[ package ]}; m_current := m_current p |},
   package).

(** [PackageTable::remove(i)]: the state left behind and how the call
    ended.  Erasing through an index that designates no element of the
    table is undefined in C++; here it erases nothing. *)
Definition remove (p : t) (i : index) : t * outcome :=
  if decide (m_current p = i)
  then (p, Thrown (ArgError
                     "PackageTable: Cannot remove currrent package"%string))
  else ({| m_table := m_table p ∖ {[ i ]}; m_current := m_current p |},
        Returned).

Definition throws (r : t * outcome) : Prop :=
  match snd r with Thrown (ArgError _) => True | Returned => False end.

(** The selection designates an element of the table. *)
Definition valid (p : t) : Prop := m_current p ∈ m_table p.

(** The calls a client makes on the table. *)
Inductive call :=
| Current (package : string)
| Get (package : string)
| Remove (i : index).

(** The table a call leaves, whether it returned or threw. *)
Definition step (p : t) (k : call) : t :=
  match k with
  | Current package => current p package
  | Get package => fst (get p package)
  | Remove i => fst (remove p i)
  end.

Definition calls (p : t) (ks : list call) : t := foldl step p ks.

(** The indexes passed to [remove] are iterators of the table: each
    designates an element the table holds when the call is made. *)
Fixpoint well_formed (p : t) (ks : list call) : Prop :=
  match ks with
  | [] => True
  | k :: ks' =>
      match k with Remove i => i ∈ m_table p | _ => True end
      ∧ well_formed (step p k) ks'
  end.

End PackageTable.

(* ===================================================================== *)
(** ** vle/vpz/Condition.cpp *)
(* ===================================================================== *)

Module Condition.
Section WithValue.

(** [value::Value]: the values stored on the ports are opaque here. *)
Context {Value : Type}.

(** [Condition] derives from [std::map < std::string, value::Set >]; a
    [value::Set] is the sequence of values [addValue] appended to it. *)
Record t := mk {
  ports : gmap string (list Value);
  m_name : string;
  m_last_port : string
}.

(** [Condition::Condition(name)]. *)
Definition create (name : string) : t :=
  {| ports := ∅; m_name := name; m_last_port := ""%string |}.

(** [Condition::add(portname)]. *)
Definition add (c : t) (portname : string) : t :=
  let ports' :=
    match ports c !! portname with
    | None => <[portname := []]> (ports c)
    | Some _ => ports c
    end in
  {| ports := ports'; m_name := m_name c; m_last_port := portname |}.

(** [Condition::del(portname)]. *)
Definition del (c : t) (portname : string) : t :=
  {| ports := delete portname (ports c);
     m_name := m_name c; m_last_port := m_last_port c |}.

(** [Condition::addValueToPort(portname, value)]. *)
Definition addValueToPort (c : t) (portname : string) (value : Value) : t :=
  match ports c !! portname with
  | None =>
      {| ports := <[portname := [value]]> (ports c);
         m_name := m_name c; m_last_port := portname |}
  | Some set =>
      {| ports := <[portname := set ++ [value]]> (ports c);
         m_name := m_name c; m_last_port := m_last_port c |}
  end.

(** [Condition::getSetValues(portname)]; [None] is the failed
    assertion. *)
Definition getSetValues (c : t) (portname : string) : option (list Value) :=
  ports c !! portname.

(** [Condition::lastAddedPort()]. *)
Definition lastAddedPort (c : t) : option (list Value) :=
  ports c !! m_last_port c.

(** [Condition::rebuildValueSet()]. *)
Definition rebuildValueSet (c : t) : t :=
  {| ports := (λ _, []) <$> ports c;
     m_name := m_name c; m_last_port := m_last_port c |}.

(** The exceptions of [vle/utils/Exception.hpp] the calls below leave
    with. *)
Inductive exn := InternalError | SaxParserError.

(** [ValueList::get(name)]; a [ValueList] derives from
    [std::map < std::string, value::Value >]. *)
Definition ValueList_get (l : gmap string Value) (name : string)
    : exn + Value :=
  match l !! name with
  | Some v => inr v
  | None => inl InternalError
  end.

(** The loop of [Condition::firstValues()] over the ports [its] still to
    visit, [result] being the list built so far: the first empty set ends
    it with an exception. *)
Fixpoint firstValues_loop (its : list (string * list Value))
    (result : gmap string Value) : exn + gmap string Value :=
  match its with
  | [] => inr result
  | it :: rest =>
      match it.2 with
      | v :: _ => firstValues_loop rest (<[it.1 := v]> result)
      | [] => inl SaxParserError
      end
  end.

(** [Condition::firstValues()]. *)
Definition firstValues (c : t) : exn + gmap string Value :=
  firstValues_loop (map_to_list (ports c)) ∅.

End WithValue.
Arguments t : clear implicits.
End Condition.

(* ===================================================================== *)
(** ** vle/devs/Coordinator.cpp: events, event table, views *)
(* ===================================================================== *)

Module Devs.

(** [devs::Time]: only the order and the sum of times are used by the
    coordinator; times are integers here. *)
Definition Time := Z.

(** [Simulator*], [graph::AtomicModel*], [graph::CoupledModel*]: the
    identity of the object pointed to. *)
Definition Simulator := nat.
Definition AtomicModel := nat.
Definition CoupledModel := nat.

(** [Event::EventType], the answer of [confluentTransitions]. *)
Inductive EventType := INTERNAL | EXTERNAL.

Record InternalEvent := mkInternal {
  ie_time : Time;
  ie_model : Simulator
}.

(** [ExternalEvent] and its subclass [RequestEvent] ([isRequest]).  The
    model of the event is its source, set by [setModel]; the target is what
    [Coordinator::getModel] returned, null included. *)
Record ExternalEvent := mkExternal {
  ee_time : Time;
  ee_model : option Simulator;
  ee_target : option Simulator;
  ee_port : string;
  isRequest : bool;
  ee_attributes : list (string * Z)
}.

Record ObservationEvent := mkObservation {
  oe_time : Time;
  oe_model : Simulator;
  oe_view : string;
  oe_port : string;
  oe_values : list (string * Z)
}.

#[global] Instance InternalEvent_eq_dec : EqDecision InternalEvent.
Proof. solve_decision. Defined.
#[global] Instance ExternalEvent_eq_dec : EqDecision ExternalEvent.
Proof. solve_decision. Defined.
#[global] Instance ObservationEvent_eq_dec : EqDecision ObservationEvent.
Proof. solve_decision. Defined.

(** Modelled from the spec: the copy constructors
    [ExternalEvent(event, target, port)] and
    [RequestEvent(event, target, port)] of the missing event classes: a
    fresh event with the time, source, kind and attributes of [event],
    bound to the destination simulator and port. *)
Definition copyExternal (ev : ExternalEvent) (dst : option Simulator)
    (port : string) : ExternalEvent :=
  {| ee_time := ee_time ev; ee_model := ee_model ev; ee_target := dst;
     ee_port := port; isRequest := isRequest ev;
     ee_attributes := ee_attributes ev |}.

(** [ExternalEvent::setModel(sim)]. *)
Definition setModel (ev : ExternalEvent) (sim : Simulator) : ExternalEvent :=
  {| ee_time := ee_time ev; ee_model := Some sim; ee_target := ee_target ev;
     ee_port := ee_port ev; isRequest := isRequest ev;
     ee_attributes := ee_attributes ev |}.

(** *** The bags *)

(** Modelled from the spec: [EventBagModel] of the missing
    [EventTable.hpp]: for one simulator within one instant, at most one
    internal event, the external events and the request events. *)
Record EventBagModel := mkBag {
  internal : option InternalEvent;
  externals : list ExternalEvent;
  Request : list ExternalEvent
}.

(** Modelled from the spec: the tests [emptyInternal()],
    [emptyExternal()], [emptyRequest()], [empty()] of a bag and the calls
    that remove one of its three parts. *)
Definition emptyInternal (b : EventBagModel) : bool :=
  match internal b with None => true | Some _ => false end.
Definition emptyExternal (b : EventBagModel) : bool :=
  match externals b with [] => true | _ => false end.
Definition emptyRequest (b : EventBagModel) : bool :=
  match Request b with [] => true | _ => false end.
Definition bag_empty (b : EventBagModel) : bool :=
  emptyInternal b && emptyExternal b && emptyRequest b.

Definition delInternal (b : EventBagModel) : EventBagModel :=
  {| internal := None; externals := externals b; Request := Request b |}.
Definition delExternals (b : EventBagModel) : EventBagModel :=
  {| internal := internal b; externals := []; Request := Request b |}.
Definition delRequest (b : EventBagModel) : EventBagModel :=
  {| internal := internal b; externals := externals b; Request := [] |}.

Definition no_bag : EventBagModel :=
  {| internal := None; externals := []; Request := [] |}.

(** Modelled from the spec: [CompleteEventBagModel] of the missing
    [EventTable.hpp]: the bags of the instant, one per target simulator
    (the key is the target pointer, which [dispatchExternalEvent] can
    leave null), and the observation events of the instant, kept apart. *)
Record CompleteEventBagModel := mkComplete {
  cb_bags : list (option Simulator * EventBagModel);
  cb_states : list ObservationEvent
}.

(** Modelled from the spec: [clear()] leaves no bag and no observation. *)
Definition cb_clear : CompleteEventBagModel :=
  {| cb_bags := []; cb_states := [] |}.

(** Modelled from the spec: [empty()], [emptyBag()], [emptyStates()]. *)
Definition cb_empty (b : CompleteEventBagModel) : bool :=
  match cb_bags b, cb_states b with [], [] => true | _, _ => false end.
Definition emptyBag (b : CompleteEventBagModel) : bool :=
  match cb_bags b with [] => true | _ => false end.
Definition emptyStates (b : CompleteEventBagModel) : bool :=
  match cb_states b with [] => true | _ => false end.

(** Modelled from the spec: the bag of [key] is updated by [f], and
    created when the simulator has none yet. *)
Fixpoint bag_update (key : option Simulator)
    (f : EventBagModel → EventBagModel)
    (bags : list (option Simulator * EventBagModel))
    : list (option Simulator * EventBagModel) :=
  match bags with
  | [] => [(key, f no_bag)]
  | (k, b) :: rest =>
      if decide (k = key) then (k, f b) :: rest
      else (k, b) :: bag_update key f rest
  end.

Definition addInternal (e : InternalEvent) :=
  bag_update (Some (ie_model e))
    (λ b, {| internal := Some e; externals := externals b;
             Request := Request b |}).
Definition addExternal (e : ExternalEvent) :=
  bag_update (ee_target e)
    (λ b, {| internal := internal b; externals := externals b ++ [e];
             Request := Request b |}).
Definition addRequest (e : ExternalEvent) :=
  bag_update (ee_target e)
    (λ b, {| internal := internal b; externals := externals b;
             Request := Request b ++ [e] |}).

(** *** The event table *)

(** Modelled from the spec: [EventTable] of the missing [EventTable.cpp]:
    a collection of pending events keyed by their time, the observation
    events in a queue of their own, the time of the last bag popped, and
    that bag, which [popEvent] hands out by reference. *)
Record EventTable := mkTable {
  et_internal : list InternalEvent;
  et_external : list ExternalEvent;
  et_request : list ExternalEvent;
  et_observation : list ObservationEvent;
  et_currentTime : Time;
  et_bag : CompleteEventBagModel
}.

(** Modelled from the spec: the empty table a coordinator is built
    with. *)
Definition et_init : EventTable :=
  {| et_internal := []; et_external := []; et_request := [];
     et_observation := []; et_currentTime := 0; et_bag := cb_clear |}.

(** Modelled from the spec: the times of the pending events, and the
    earliest of a list of times. *)
Definition et_times (tbl : EventTable) : list Time :=
  (ie_time <$> et_internal tbl) ++ (ee_time <$> et_external tbl)
  ++ (ee_time <$> et_request tbl) ++ (oe_time <$> et_observation tbl).

Definition min_time (l : list Time) : option Time :=
  match l with
  | [] => None
  | t :: l' => Some (foldr Z.min t l')
  end.

(** Modelled from the spec: [EventTable::topEvent()], the earliest
    scheduled time; [None] is the infinite time of an empty table. *)
Definition topEvent (tbl : EventTable) : option Time :=
  min_time (et_times tbl).

(** Modelled from the spec: [EventTable::putInternalEvent] and its
    siblings.  A simulator has one next internal time (tN), so a new
    internal event replaces the pending one of its simulator. *)
Definition putInternalEvent (e : InternalEvent) (tbl : EventTable)
    : EventTable :=
  {| et_internal :=
       filter (λ e', ie_model e' ≠ ie_model e) (et_internal tbl) ++ [e];
     et_external := et_external tbl; et_request := et_request tbl;
     et_observation := et_observation tbl;
     et_currentTime := et_currentTime tbl; et_bag := et_bag tbl |}.

Definition putExternalEvent (e : ExternalEvent) (tbl : EventTable)
    : EventTable :=
  {| et_internal := et_internal tbl;
     et_external := et_external tbl ++ [e]; et_request := et_request tbl;
     et_observation := et_observation tbl;
     et_currentTime := et_currentTime tbl; et_bag := et_bag tbl |}.

Definition putRequestEvent (e : ExternalEvent) (tbl : EventTable)
    : EventTable :=
  {| et_internal := et_internal tbl;
     et_external := et_external tbl; et_request := et_request tbl ++ [e];
     et_observation := et_observation tbl;
     et_currentTime := et_currentTime tbl; et_bag := et_bag tbl |}.

Definition putObservationEvent (e : ObservationEvent) (tbl : EventTable)
    : EventTable :=
  {| et_internal := et_internal tbl;
     et_external := et_external tbl; et_request := et_request tbl;
     et_observation := et_observation tbl ++ [e];
     et_currentTime := et_currentTime tbl; et_bag := et_bag tbl |}.

(** Modelled from the spec: the bags of an instant, the events being
    partitioned per target. *)
Definition make_bags (ints : list InternalEvent)
    (exts reqs : list ExternalEvent)
    : list (option Simulator * EventBagModel) :=
  foldl (λ bags e, addRequest e bags)
    (foldl (λ bags e, addExternal e bags)
       (foldl (λ bags e, addInternal e bags) [] ints) exts) reqs.

(** Modelled from the spec: [EventTable::popEvent()]: every event whose
    time equals the current minimum leaves the table for the bag of the
    instant; an empty table gives an empty bag and keeps its time. *)
Definition popEvent (tbl : EventTable) : EventTable :=
  match topEvent tbl with
  | None =>
      {| et_internal := et_internal tbl; et_external := et_external tbl;
         et_request := et_request tbl;
         et_observation := et_observation tbl;
         et_currentTime := et_currentTime tbl; et_bag := cb_clear |}
  | Some t =>
      {| et_internal := filter (λ e, ie_time e ≠ t) (et_internal tbl);
         et_external := filter (λ e, ee_time e ≠ t) (et_external tbl);
         et_request := filter (λ e, ee_time e ≠ t) (et_request tbl);
         et_observation :=
           filter (λ e, oe_time e ≠ t) (et_observation tbl);
         et_currentTime := t;
         et_bag :=
           {| cb_bags :=
                make_bags
                  (filter (λ e, ie_time e = t) (et_internal tbl))
                  (filter (λ e, ee_time e = t) (et_external tbl))
                  (filter (λ e, ee_time e = t) (et_request tbl));
              cb_states :=
                filter (λ e, oe_time e = t) (et_observation tbl) |} |}
  end.

(** Modelled from the spec: an event mentions a simulator as its source
    or its destination; [delModel] of the bag of the instant drops the bag
    of the simulator and every event that mentions it. *)
Definition ext_mentions (s : Simulator) (e : ExternalEvent) : Prop :=
  ee_model e = Some s ∨ ee_target e = Some s.

#[global] Instance ext_mentions_dec s e : Decision (ext_mentions s e).
Proof. unfold ext_mentions. apply _. Defined.

Definition bag_purge (s : Simulator) (b : EventBagModel) : EventBagModel :=
  {| internal :=
       match internal b with
       | Some e => if decide (ie_model e = s) then None else Some e
       | None => None
       end;
     externals := filter (λ e, ¬ ext_mentions s e) (externals b);
     Request := filter (λ e, ¬ ext_mentions s e) (Request b) |}.

Definition cb_delModel (s : Simulator) (cb : CompleteEventBagModel)
    : CompleteEventBagModel :=
  {| cb_bags :=
       prod_map id (bag_purge s)
         <$> filter (λ kb, kb.1 ≠ Some s) (cb_bags cb);
     cb_states := filter (λ e, oe_model e ≠ s) (cb_states cb) |}.

(** Modelled from the spec: [EventTable::delModelEvents(sim)] removes all
    pending events mentioning [sim] as source or destination, those of the
    instant that are not dispatched yet included. *)
Definition delModelEvents (s : Simulator) (tbl : EventTable) : EventTable :=
  {| et_internal := filter (λ e, ie_model e ≠ s) (et_internal tbl);
     et_external := filter (λ e, ¬ ext_mentions s e) (et_external tbl);
     et_request := filter (λ e, ¬ ext_mentions s e) (et_request tbl);
     et_observation := filter (λ e, oe_model e ≠ s) (et_observation tbl);
     et_currentTime := et_currentTime tbl;
     et_bag := cb_delModel s (et_bag tbl) |}.

(** *** Views *)

(** Modelled from the spec: the missing [View] classes: a named sink with
    its firing policy and its ordered subscriptions (simulator, port). *)
Inductive ViewKind := TimedView (timestep : Time) | EventView | FinishView.

Record View := mkView {
  v_name : string;
  v_kind : ViewKind;
  v_observables : list (Simulator * string)
}.

Definition isTimed (v : View) : bool :=
  match v_kind v with TimedView _ => true | _ => false end.
Definition isEvent (v : View) : bool :=
  match v_kind v with EventView => true | _ => false end.

(** Modelled from the spec: [View::removeObservable(sim)] detaches every
    subscription to [sim]. *)
Definition removeObservable (s : Simulator) (v : View) : View :=
  {| v_name := v_name v; v_kind := v_kind v;
     v_observables := filter (λ sp, sp.1 ≠ s) (v_observables v) |}.

(** Modelled from the spec: [View::addObservable(sim, port, time)]: a
    timed view schedules its first observation at the registration time,
    the others never schedule themselves. *)
Definition addObservable (v : View) (s : Simulator) (port : string)
    (t : Time) : View * option ObservationEvent :=
  ({| v_name := v_name v; v_kind := v_kind v;
      v_observables := v_observables v ++ [(s, port)] |},
   match v_kind v with
   | TimedView _ => Some (mkObservation t s (v_name v) port [])
   | _ => None
   end).

(** Modelled from the spec: [View::processObservationEvent(event)]: the
    value goes to the stream writer; after an observation at time [t] a
    timed view of period [p] returns a fresh event at [t + p]. *)
Definition view_processObservationEvent (v : View) (ev : ObservationEvent)
    : option ObservationEvent :=
  match v_kind v with
  | TimedView p =>
      Some (mkObservation (oe_time ev + p) (oe_model ev) (oe_view ev)
              (oe_port ev) [])
  | _ => None
  end.

(** Modelled from the spec: [EventView::get(sim)], the ports of [sim] the
    view observes. *)
Definition view_get (v : View) (s : Simulator) : list string :=
  snd <$> filter (λ sp, sp.1 = s) (v_observables v).

(** *** The model graph *)

(** A node of the hierarchy of [graph::Model]: [isAtomic()] and
    [isCoupled()] are its constructors, [getModelList()] its children. *)
#[warnings="-register-all"]
Inductive Model :=
| Atomic (a : AtomicModel)
| Coupled (c : CoupledModel) (children : list Model).

(** The calls of an executive model into the coordinator during one of
    its transitions. *)
Inductive ExecCmd :=
| DelModel (parent : CoupledModel) (modelname : string)
| AddObservableToView (model : AtomicModel) (portname view : string).

(** How a call ends when it does not return: with the [utils::InternalError]
    of a failed assertion, or where the behaviour of the program is
    undefined, a null pointer being dereferenced or an iterator stepped
    after its element was erased. *)
Inductive exn := InternalError | NullPointer | InvalidIterator.

Inductive result (A : Type) := Ok (a : A) | Throw (e : exn).
Arguments Ok {A} a.
Arguments Throw {A} e.

(** What the coordinator does to the outside, in order. *)
Inductive Act :=
| CallConfluent (s : Simulator)
| CallOutput (s : Simulator) (t : Time)
| CallInternal (s : Simulator) (ev : InternalEvent)
| CallExternal (s : Simulator) (evs : list ExternalEvent) (t : Time)
| CallRequest (s : Simulator) (ev : ExternalEvent) (t : Time)
| CallObservation (s : Simulator) (ev : ObservationEvent)
| CallClear (s : Simulator)
| ViewProcess (view : string) (ev reply : option ObservationEvent)
| PutInternal (e : InternalEvent)
| PutExternal (e : ExternalEvent)
| PutRequest (e : ExternalEvent)
| PutObservation (e : ObservationEvent)
| DeleteInternal (e : InternalEvent)
| DeleteExternal (e : ExternalEvent)
| DeleteObservation (e : option ObservationEvent)
| DeleteSimulator (s : Simulator).

(** *** The coordinator and its collaborators *)

(** The members of [Coordinator].  [m_eventViewList], [m_timedViewList] and
    [m_finishViewList] point to the views of [m_viewList] and are read off
    it.  [world] is the state of everything the coordinator does not own
    (the dynamics behind the simulators and the model graph); [trace] is the
    sequence of what it did to the outside. *)
Record Coordinator (W : Type) := mkCoordinator {
  m_currentTime : Time;
  m_modelList : gmap AtomicModel Simulator;
  m_viewList : gmap string View;
  m_eventTable : EventTable;
  m_deletedSimulator : list Simulator;
  m_toDelete : nat;
  world : W;
  trace : list Act
}.
Arguments mkCoordinator {W}.
Arguments m_currentTime {W}.
Arguments m_modelList {W}.
Arguments m_viewList {W}.
Arguments m_eventTable {W}.
Arguments m_deletedSimulator {W}.
Arguments m_toDelete {W}.
Arguments world {W}.
Arguments trace {W}.

(** A call into the coordinator ends normally or by an exception, and
    leaves a state behind in both cases. *)
Definition M (W A : Type) : Type := Coordinator W → Coordinator W * result A.

(** The classes the coordinator calls and that are not its own: the model
    graph ([graph::CoupledModel], [graph::AtomicModel]), the simulators with
    the dynamics they wrap, and the model factory.  A transition of an
    executive model can call back into the coordinator: its calls come with
    the answer. *)
Record Env (W : Type) := mkEnv {
  findModel : W → CoupledModel → string → option Model;
  graph_delModel : W → CoupledModel → Model → W;
  delAllConnection : W → CoupledModel → Model → W;
  getTargetPortList : W → Simulator → string → list (Model * string);
  confluentTransitions :
    W → Simulator → InternalEvent → list ExternalEvent → EventType;
  output : W → Simulator → Time → W * list ExternalEvent * list ExecCmd;
  internalTransition :
    W → Simulator → InternalEvent → W * option InternalEvent * list ExecCmd;
  externalTransition :
    W → Simulator → list ExternalEvent → Time
    → W * option InternalEvent * list ExecCmd;
  request :
    W → Simulator → ExternalEvent → Time
    → W * list ExternalEvent * list ExecCmd;
  observation :
    W → Simulator → ObservationEvent → W * option ObservationEvent;
  clear : W → Simulator → W;
  createModels : M W unit
}.
Arguments findModel {W}.
Arguments graph_delModel {W}.
Arguments delAllConnection {W}.
Arguments getTargetPortList {W}.
Arguments confluentTransitions {W}.
Arguments output {W}.
Arguments internalTransition {W}.
Arguments externalTransition {W}.
Arguments request {W}.
Arguments observation {W}.
Arguments clear {W}.
Arguments createModels {W}.

(** The order of the keys of a [std::map < std::string, ... >]: the order
    of [std::string], by the codes of the characters. *)
Definition by_name : relation (string * View) :=
  λ kv kv', String.le kv.1 kv'.1.

#[global] Instance by_name_dec : RelDecision by_name.
Proof. intros kv kv'. unfold by_name. apply _. Defined.

Section Coordinator.

Context {W : Type} (E : Env W).

Abbreviation State := (Coordinator W).

Definition ret {A} (a : A) : M W A := λ c, (c, Ok a).

Definition bind {A B} (m : M W A) (f : A → M W B) : M W B :=
  λ c, match m c with
       | (c', Ok a) => f a c'
       | (c', Throw e) => (c', Throw e)
       end.

Definition throw {A} (e : exn) : M W A := λ c, (c, Throw e).

Definition gets {A} (f : State → A) : M W A := λ c, (c, Ok (f c)).

Definition modify (f : State → State) : M W unit := λ c, (f c, Ok tt).

Notation "'let*' x ':=' m 'in' k" := (bind m (λ x, k))
  (at level 10, x name, m at level 100, k at level 200, only parsing).
Notation "m '>>' k" := (bind m (λ _, k))
  (at level 90, right associativity, only parsing).

Fixpoint foreach {A} (l : list A) (f : A → M W unit) : M W unit :=
  match l with
  | [] => ret tt
  | x :: l' => f x >> foreach l' f
  end.

Definition set_currentTime (t : Time) (c : State) : State :=
  mkCoordinator t (m_modelList c) (m_viewList c) (m_eventTable c)
    (m_deletedSimulator c) (m_toDelete c) (world c) (trace c).
Definition set_modelList (m : gmap AtomicModel Simulator) (c : State)
    : State :=
  mkCoordinator (m_currentTime c) m (m_viewList c) (m_eventTable c)
    (m_deletedSimulator c) (m_toDelete c) (world c) (trace c).
Definition set_viewList (v : gmap string View) (c : State) : State :=
  mkCoordinator (m_currentTime c) (m_modelList c) v (m_eventTable c)
    (m_deletedSimulator c) (m_toDelete c) (world c) (trace c).
Definition set_eventTable (t : EventTable) (c : State) : State :=
  mkCoordinator (m_currentTime c) (m_modelList c) (m_viewList c) t
    (m_deletedSimulator c) (m_toDelete c) (world c) (trace c).
Definition set_deletedSimulator (d : list Simulator) (c : State) : State :=
  mkCoordinator (m_currentTime c) (m_modelList c) (m_viewList c)
    (m_eventTable c) d (m_toDelete c) (world c) (trace c).
Definition set_toDelete (n : nat) (c : State) : State :=
  mkCoordinator (m_currentTime c) (m_modelList c) (m_viewList c)
    (m_eventTable c) (m_deletedSimulator c) n (world c) (trace c).
Definition set_world (w : W) (c : State) : State :=
  mkCoordinator (m_currentTime c) (m_modelList c) (m_viewList c)
    (m_eventTable c) (m_deletedSimulator c) (m_toDelete c) w (trace c).
Definition set_trace (l : list Act) (c : State) : State :=
  mkCoordinator (m_currentTime c) (m_modelList c) (m_viewList c)
    (m_eventTable c) (m_deletedSimulator c) (m_toDelete c) (world c) l.

Definition set_bag (b : CompleteEventBagModel) (tbl : EventTable)
    : EventTable :=
  mkTable (et_internal tbl) (et_external tbl) (et_request tbl)
    (et_observation tbl) (et_currentTime tbl) b.

Definition log (a : Act) : M W unit :=
  modify (λ c, set_trace (trace c ++ [a]) c).

Definition on_table (f : EventTable → EventTable) : M W unit :=
  modify (λ c, set_eventTable (f (m_eventTable c)) c).

Definition on_world (f : W → W) : M W unit :=
  modify (λ c, set_world (f (world c)) c).

(** The calls [m_eventTable.put...Event(e)]. *)
Definition put_internal (e : InternalEvent) : M W unit :=
  log (PutInternal e) >> on_table (putInternalEvent e).
Definition put_external (e : ExternalEvent) : M W unit :=
  log (PutExternal e) >> on_table (putExternalEvent e).
Definition put_request (e : ExternalEvent) : M W unit :=
  log (PutRequest e) >> on_table (putRequestEvent e).
Definition put_observation (e : ObservationEvent) : M W unit :=
  log (PutObservation e) >> on_table (putObservationEvent e).

(** [Coordinator::getNextTime()]. *)
Definition getNextTime (c : State) : option Time :=
  topEvent (m_eventTable c).

(** [Coordinator::getModel] by the atomic model; [None] is the null
    pointer. *)
Definition getModel (c : State) (model : AtomicModel) : option Simulator :=
  m_modelList c !! model.

(** [Coordinator::getView(name)]. *)
Definition getView (c : State) (name : string) : option View :=
  m_viewList c !! name.

(** [Coordinator::addModel(model, simulator)]. *)
Definition addModel (model : AtomicModel) (simulator : Simulator)
    : M W unit :=
  let* it := gets (λ c, m_modelList c !! model) in
  match it with
  | Some _ => throw InternalError
  | None =>
      modify (λ c, set_modelList (<[model := simulator]> (m_modelList c)) c)
  end.

(** [Coordinator::addView(view)]. *)
Definition addView (view : View) : M W unit :=
  let* it := gets (λ c, m_viewList c !! v_name view) in
  match it with
  | None =>
      modify (λ c, set_viewList (<[v_name view := view]> (m_viewList c)) c)
  | Some _ => ret tt
  end.

(** [Coordinator::addObservableToView(model, portname, view)].  For a
    model without simulator the second assertion fails, and its message
    is built from [simulator->getStructure()]: the null pointer is
    dereferenced before anything is thrown. *)
Definition addObservableToView (model : AtomicModel) (portname view : string)
    : M W unit :=
  let* it := gets (λ c, m_viewList c !! view) in
  match it with
  | None => throw InternalError
  | Some obs =>
      let* simulator := gets (λ c, getModel c model) in
      match simulator with
      | None => throw NullPointer
      | Some simulator =>
          let* now := gets m_currentTime in
          let r := addObservable obs simulator portname now in
          modify (λ c, set_viewList (<[view := r.1]> (m_viewList c)) c) >>
          match r.2 with
          | Some evt => put_observation evt
          | None => ret tt
          end
      end
  end.

(** [Coordinator::delAtomicModel(parent, atom)].  [parent] and [atom] are
    never null here, so the first assertion holds. *)
Definition delAtomicModel (parent : CoupledModel) (atom : AtomicModel)
    : M W unit :=
  let* it := gets (λ c, m_modelList c !! atom) in
  match it with
  | None => throw InternalError
  | Some satom =>
      modify (λ c, set_modelList (delete atom (m_modelList c)) c) >>
      modify (λ c, set_viewList (removeObservable satom <$> m_viewList c) c) >>
      on_table (delModelEvents satom) >>
      log (CallClear satom) >>
      on_world (λ w, clear E w satom) >>
      modify (λ c, set_deletedSimulator (m_deletedSimulator c ++ [satom]) c) >>
      on_world (λ w, graph_delModel E w parent (Atomic atom))
  end.

(** Modelled from the spec: [CoupledModel::delModel], of the missing
    graph library, takes the node out of the list of its parent (4.4).  An
    iterator of that list that designates the node is invalid afterwards;
    [next_child] is the step [++it] of such an iterator, whose behaviour
    is undefined: the call ends there. *)
Definition next_child : M W unit := throw InvalidIterator.

(** [Coordinator::delCoupledModel(parent, mdl)]; [mdl] is a coupled node
    and [lst] is [mdl->getModelList()], which the loop walks by reference.
    Both branches of the body end with [mdl->delModel(child)] for the
    child the iterator designates: [delAtomicModel(mdl, child)] by its
    last statement, [delCoupledModel(mdl, child)] by its own.  So when the
    body returns for the first child, the loop steps an iterator whose
    element was erased.  A coupled model without children is deleted as
    the code reads. *)
Fixpoint delCoupledModel (parent : CoupledModel) (mdl : Model) : M W unit :=
  match mdl with
  | Atomic _ => ret tt
  | Coupled c lst =>
      match lst with
      | [] => ret tt
      | it :: _ =>
          match it with
          | Atomic a => delAtomicModel c a
          | Coupled _ _ => delCoupledModel c it
          end >>
          next_child
      end >>
      on_world (λ w, delAllConnection E w parent mdl) >>
      on_world (λ w, graph_delModel E w parent mdl)
  end.

(** [Coordinator::delModel(parent, modelname)]. *)
Definition delModel (parent : CoupledModel) (modelname : string) : M W unit :=
  let* mdl := gets (λ c, findModel E (world c) parent modelname) in
  match mdl with
  | None => throw InternalError
  | Some (Coupled c lst) => delCoupledModel parent (Coupled c lst)
  | Some (Atomic a) => delAtomicModel parent a
  end.

(** The executive calls made during a transition are served in order. *)
Definition exec (cmd : ExecCmd) : M W unit :=
  match cmd with
  | DelModel parent modelname => delModel parent modelname
  | AddObservableToView model portname view =>
      addObservableToView model portname view
  end.

(** The calls into a simulator. *)
Definition call_output (sim : Simulator) (t : Time)
    : M W (list ExternalEvent) :=
  log (CallOutput sim t) >>
  let* r := gets (λ c, output E (world c) sim t) in
  on_world (λ _, r.1.1) >> foreach r.2 exec >> ret r.1.2.

Definition call_internalTransition (sim : Simulator) (ev : InternalEvent)
    : M W (option InternalEvent) :=
  log (CallInternal sim ev) >>
  let* r := gets (λ c, internalTransition E (world c) sim ev) in
  on_world (λ _, r.1.1) >> foreach r.2 exec >> ret r.1.2.

Definition call_externalTransition (sim : Simulator)
    (lst : list ExternalEvent) (t : Time) : M W (option InternalEvent) :=
  log (CallExternal sim lst t) >>
  let* r := gets (λ c, externalTransition E (world c) sim lst t) in
  on_world (λ _, r.1.1) >> foreach r.2 exec >> ret r.1.2.

Definition call_request (sim : Simulator) (ev : ExternalEvent) (t : Time)
    : M W (list ExternalEvent) :=
  log (CallRequest sim ev t) >>
  let* r := gets (λ c, request E (world c) sim ev t) in
  on_world (λ _, r.1.1) >> foreach r.2 exec >> ret r.1.2.

Definition call_observation (sim : Simulator) (ev : ObservationEvent)
    : M W (option ObservationEvent) :=
  log (CallObservation sim ev) >>
  let* r := gets (λ c, observation E (world c) sim ev) in
  on_world (λ _, r.1) >> ret r.2.

(** The inner loop of [Coordinator::dispatchExternalEvent]. *)
Definition dispatch_target (it : ExternalEvent) (jt : Model * string)
    : M W unit :=
  match jt.1 with
  | Coupled _ _ => throw InternalError
  | Atomic a =>
      let* dst := gets (λ c, getModel c a) in
      if isRequest it
      then put_request (copyExternal it dst jt.2)
      else put_external (copyExternal it dst jt.2)
  end.

(** [Coordinator::dispatchExternalEvent(eventList, sim)]. *)
Definition dispatchExternalEvent (eventList : list ExternalEvent)
    (sim : Simulator) : M W unit :=
  foreach eventList (λ it,
    let it := setModel it sim in
    let* out := gets (λ c, getTargetPortList E (world c) sim (ee_port it)) in
    foreach out (dispatch_target it) >>
    log (DeleteExternal it)).

(** [m_eventViewList]: the event views of [m_viewList], a [std::map] keyed
    by their names, which a loop over it visits in the ascending order of
    the names. *)
Definition eventViewList (c : State) : list (string * View) :=
  merge_sort by_name
    (filter (λ kv, isEvent kv.2 = true) (map_to_list (m_viewList c))).

(** [Coordinator::processEventView(model, event)]; [event] is null or the
    internal event just processed. *)
Definition processEventView (model : Simulator)
    (event : option InternalEvent) : M W unit :=
  let* views := gets eventViewList in
  foreach views (λ it,
    foreach (view_get it.2 model) (λ jt,
      let* now := gets m_currentTime in
      let newevent :=
        match event with
        | None => mkObservation now model (v_name it.2) jt []
        | Some ev => mkObservation (ie_time ev) model (v_name it.2) jt []
        end in
      let* eventvalue := call_observation model newevent in
      log (DeleteObservation (Some newevent)) >>
      log (ViewProcess (v_name it.2) eventvalue
             (eventvalue ≫= view_processObservationEvent it.2)) >>
      log (DeleteObservation eventvalue))).

(** [Coordinator::processInternalEvent(sim, modelbag)]; the bag is returned
    as the call leaves it.  A null internal event is dereferenced by the
    call of the internal transition. *)
Definition processInternalEvent (sim : Simulator) (modelbag : EventBagModel)
    : M W EventBagModel :=
  let ev := internal modelbag in
  let* now := gets m_currentTime in
  let* result := call_output sim now in
  dispatchExternalEvent result sim >>
  match ev with
  | None => throw NullPointer
  | Some ev =>
      let* next := call_internalTransition sim ev in
      match next with
      | Some e => put_internal e
      | None => ret tt
      end >>
      processEventView sim (Some ev) >>
      log (DeleteInternal ev) >>
      ret (delInternal modelbag)
  end.

(** [Coordinator::processExternalEvents(sim, modelbag)]. *)
Definition processExternalEvents (sim : Simulator) (modelbag : EventBagModel)
    : M W EventBagModel :=
  let lst := externals modelbag in
  let* now := gets m_currentTime in
  let* next := call_externalTransition sim lst now in
  match next with
  | Some e => put_internal e
  | None => ret tt
  end >>
  foreach lst (λ e, log (DeleteExternal e)) >>
  processEventView sim None >>
  ret (delExternals modelbag).

(** [Coordinator::processRequestEvents(sim, modelbag)]. *)
Definition processRequestEvents (sim : Simulator) (modelbag : EventBagModel)
    : M W EventBagModel :=
  let lst := Request modelbag in
  foreach lst (λ it,
    let* now := gets m_currentTime in
    let* result := call_request sim it now in
    dispatchExternalEvent result sim) >>
  foreach lst (λ e, log (DeleteExternal e)) >>
  ret (delRequest modelbag).

(** One turn of the inner loop of [Coordinator::run], for a bag that is not
    empty: the branch taken, and the bag as the branch leaves it. *)
Definition drain_step (sim : Simulator) (bag : EventBagModel)
    : M W EventBagModel :=
  if negb (emptyInternal bag) then
    if negb (emptyExternal bag) then
      match internal bag with
      | None => throw NullPointer
      | Some ev =>
          log (CallConfluent sim) >>
          let* w := gets world in
          match confluentTransitions E w sim ev (externals bag) with
          | INTERNAL => processInternalEvent sim bag
          | EXTERNAL => processExternalEvents sim bag
          end
      end
    else processInternalEvent sim bag
  else
    if negb (emptyExternal bag) then processExternalEvents sim bag
    else processRequestEvents sim bag.

(** [while (not bag.second.empty())]: the bag being drained belongs to the
    loop, nothing is added to it, and each turn empties one of its three
    parts: three turns drain it (lemma [drain_empties]). *)
Fixpoint drain (turns : nat) (sim : Simulator) (bag : EventBagModel)
    : M W EventBagModel :=
  match turns with
  | O => ret bag
  | S n =>
      if bag_empty bag then ret bag
      else let* bag' := drain_step sim bag in drain n sim bag'
  end.

(** The body of the outer loop for the bag [bags.topBag()] returned.  A
    bag whose key is the null pointer crashes at the first call through
    it. *)
Definition run_bag (bag : option Simulator * EventBagModel) : M W unit :=
  match bag.1 with
  | Some sim => drain 3 sim bag.2 >> ret tt
  | None => if bag_empty bag.2 then ret tt else throw NullPointer
  end.

(** [bags.topBag()] takes the first bag of the instant out of the table. *)
Definition topBag : M W (option (option Simulator * EventBagModel)) :=
  let* bags := gets (λ c, et_bag (m_eventTable c)) in
  match cb_bags bags with
  | [] => ret None
  | bag :: rest =>
      on_table (set_bag (mkComplete rest (cb_states bags))) >>
      ret (Some bag)
  end.

(** [while (not bags.emptyBag())]: every turn takes a bag out and no call
    adds one, so as many turns as there are bags when the loop starts end
    it (lemma [run_bags_empties]). *)
Fixpoint run_bags (turns : nat) : M W unit :=
  match turns with
  | O => ret tt
  | S n =>
      let* top := topBag in
      match top with
      | None => ret tt
      | Some bag => run_bag bag >> run_bags n
      end
  end.

(** [bags.popState()]. *)
Definition popState : M W unit :=
  on_table (λ tbl,
    set_bag (mkComplete (cb_bags (et_bag tbl)) (tail (cb_states (et_bag tbl))))
      tbl).

(** The body of the loop of [Coordinator::processObservationEvents] for the
    event [bag.topObservationEvent()]. *)
Definition processObservationEvent (top : ObservationEvent) : M W unit :=
  let* event := call_observation (oe_model top) top in
  match event with
  | Some event =>
      let* view := gets (λ c, getView c (oe_view event)) in
      match view with
      | None => throw NullPointer
      | Some view =>
          let event2 := view_processObservationEvent view event in
          log (ViewProcess (v_name view) (Some event) event2) >>
          log (DeleteObservation (Some event)) >>
          match event2 with
          | Some e => put_observation e
          | None => ret tt
          end
      end
  | None => ret tt
  end >>
  log (DeleteObservation (Some top)) >>
  popState.

(** [Coordinator::processObservationEvents(bag)]: no call of the loop
    touches the queue of the instant but [popState]. *)
Definition processObservationEvents : M W unit :=
  let* states := gets (λ c, cb_states (et_bag (m_eventTable c))) in
  foreach states processObservationEvent.

(** The deletion step of [Coordinator::run]. *)
Definition delete_old (oldToDelete : nat) : M W unit :=
  if bool_decide (0 < oldToDelete)%nat then
    let* deleted := gets m_deletedSimulator in
    foreach (take oldToDelete deleted) (λ s, log (DeleteSimulator s)) >>
    modify (λ c, set_deletedSimulator (drop oldToDelete deleted) c) >>
    modify (λ c, set_toDelete (length (m_deletedSimulator c)) c)
  else ret tt.

(** The transitions of the instant: the first part of
    [Coordinator::run]. *)
Definition run_transitions : M W unit :=
  on_table popEvent >>
  let* bags := gets (λ c, et_bag (m_eventTable c)) in
  (if negb (cb_empty bags)
   then modify (λ c, set_currentTime (et_currentTime (m_eventTable c)) c)
   else ret tt) >>
  run_bags (length (cb_bags bags)).

(** [Coordinator::run()]. *)
Definition run : M W unit :=
  let* oldToDelete := gets m_toDelete in
  run_transitions >>
  delete_old oldToDelete >>
  processObservationEvents >>
  on_table (set_bag cb_clear).

(** [Coordinator::init(mdls)]. *)
Definition init : M W unit :=
  createModels E >>
  modify (set_toDelete 0).

(** Successive calls of [run], the first exception ending them. *)
Fixpoint runs (n : nat) : M W unit :=
  match n with
  | O => ret tt
  | S k => run >> runs k
  end.

End Coordinator.

(** *** Vocabulary of the properties *)

Section Vocabulary.

Context {W : Type}.

Implicit Types (c : Coordinator W) (P : Act → bool).

(** A call keeps the relation [R] between the state it starts from and the
    state it leaves, however it ends. *)
Definition pres (R : relation (Coordinator W)) {A} (m : M W A) : Prop :=
  ∀ c, R c (fst (m c)).

Definition bags_of c : list (option Simulator * EventBagModel) :=
  cb_bags (et_bag (m_eventTable c)).

Definition states_of c : list ObservationEvent :=
  cb_states (et_bag (m_eventTable c)).

(** The frame of the calls made while an instant is processed: none of
    them changes the current time, the time of the table or [m_toDelete],
    removes a simulator from the pending deletions or adds a bag or an
    observation to the instant, and [P] holds of everything they do to the
    outside. *)
Definition frame P : relation (Coordinator W) := λ c c',
  m_currentTime c' = m_currentTime c
  ∧ et_currentTime (m_eventTable c') = et_currentTime (m_eventTable c)
  ∧ m_toDelete c' = m_toDelete c
  ∧ m_deletedSimulator c `prefix_of` m_deletedSimulator c'
  ∧ (length (bags_of c') ≤ length (bags_of c))%nat
  ∧ states_of c' ⊆ states_of c
  ∧ ∃ l, trace c' = trace c ++ l ∧ Forall (λ a, P a = true) l.

(** What the coordinator did between two states. *)
Definition did (c c' : Coordinator W) (l : list Act) : Prop :=
  trace c' = trace c ++ l.

(** The kinds of acts. *)
Definition exec_act (a : Act) : bool :=
  match a with CallClear _ | PutObservation _ => true | _ => false end.

Definition dispatch_act (a : Act) : bool :=
  match a with
  | PutExternal _ | PutRequest _ | DeleteExternal _ => true
  | _ => false
  end.

Definition view_act (a : Act) : bool :=
  match a with
  | CallObservation _ _ | ViewProcess _ _ _ | DeleteObservation _ => true
  | _ => false
  end.

(** A call of a transition of a model: [confluentTransitions], [output],
    [internalTransition], [externalTransition], [request]. *)
Definition transition_call (a : Act) : bool :=
  match a with
  | CallConfluent _ | CallOutput _ _ | CallInternal _ _
  | CallExternal _ _ _ | CallRequest _ _ _ => true
  | _ => false
  end.

Definition destroys (a : Act) : bool :=
  match a with DeleteSimulator _ => true | _ => false end.

(** What the three paths of a bag do. *)
Definition internal_path_act (a : Act) : bool :=
  match a with
  | CallOutput _ _ | CallInternal _ _ | PutInternal _ | DeleteInternal _ =>
      true
  | _ => exec_act a || dispatch_act a || view_act a
  end.

Definition external_path_act (a : Act) : bool :=
  match a with
  | CallExternal _ _ _ | PutInternal _ | DeleteExternal _ => true
  | _ => exec_act a || view_act a
  end.

Definition request_path_act (a : Act) : bool :=
  match a with
  | CallRequest _ _ _ => true
  | _ => exec_act a || dispatch_act a
  end.

Definition bag_act (a : Act) : bool :=
  match a with
  | CallConfluent _ => true
  | _ => internal_path_act a || external_path_act a || request_path_act a
  end.

(** What [processObservationEvents] does. *)
Definition observation_act (a : Act) : bool :=
  match a with PutObservation _ => true | _ => view_act a end.

Definition anything (a : Act) : bool := true.

(** The marks the paths of a bag leave: the internal path is the only one
    that calls [output], the external path the only one that calls
    [externalTransition], the request path the only one that calls
    [request]. *)
Definition confluent_called (sim : Simulator) (l : list Act) : Prop :=
  CallConfluent sim ∈ l.
Definition internal_path_ran (sim : Simulator) (l : list Act) : Prop :=
  ∃ t, CallOutput sim t ∈ l.
Definition external_path_ran (sim : Simulator) (l : list Act) : Prop :=
  ∃ lst t, CallExternal sim lst t ∈ l.
Definition request_path_ran (sim : Simulator) (l : list Act) : Prop :=
  ∃ ev t, CallRequest sim ev t ∈ l.

(** The simulators destroyed, the observation events handed to
    [Simulator::observation], the events the views answered with and the
    observation events put in the table, in order. *)
Definition destroyed (l : list Act) : list Simulator :=
  omap (λ a, match a with DeleteSimulator s => Some s | _ => None end) l.
Definition observed (l : list Act) : list ObservationEvent :=
  omap (λ a, match a with CallObservation _ ev => Some ev | _ => None end) l.
Definition replies (l : list Act) : list ObservationEvent :=
  omap (λ a, match a with ViewProcess _ _ r => r | _ => None end) l.
Definition observations_put (l : list Act) : list ObservationEvent :=
  omap (λ a, match a with PutObservation e => Some e | _ => None end) l.
Definition deleted_externals (l : list Act) : list ExternalEvent :=
  omap (λ a, match a with DeleteExternal e => Some e | _ => None end) l.

(** By the words of the specification: the fresh event the destination
    [(dst_model, dst_port)] of a connection receives for the event [ev]
    that the simulator [sim] emitted: a request if [ev] is one, bound to
    the simulator of the destination and to its port, at the time of
    [ev]. *)
Definition delivered (c : Coordinator W) (sim : Simulator)
    (ev : ExternalEvent) (dst : Model * string) : ExternalEvent :=
  {| ee_time := ee_time ev;
     ee_model := Some sim;
     ee_target :=
       match dst.1 with
       | Atomic a => m_modelList c !! a
       | Coupled _ _ => None
       end;
     ee_port := dst.2;
     isRequest := isRequest ev;
     ee_attributes := ee_attributes ev |}.

(** The structural destinations of the port an event leaves by. *)
Definition destinations (E : Env W) (c : Coordinator W) (sim : Simulator)
    (ev : ExternalEvent) : list (Model * string) :=
  getTargetPortList E (world c) sim (ee_port ev).

(** The events a list of emitted events is routed to: one per
    destination. *)
Definition routed (E : Env W) (c : Coordinator W) (sim : Simulator)
    (evs : list ExternalEvent) : list ExternalEvent :=
  evs ≫= λ ev, delivered c sim ev <$> destinations E c sim ev.

(** The call that puts a fresh event in the table. *)
Definition put_act (e : ExternalEvent) : Act :=
  if isRequest e then PutRequest e else PutExternal e.

Definition is_atomic (m : Model) : Prop :=
  match m with Atomic _ => True | Coupled _ _ => False end.

(** A call touches the coordinator only by what it adds to the external
    and request events of the table and by what it does to the outside. *)
Definition routes_into (c c' : Coordinator W)
    (exts reqs : list ExternalEvent) (acts : list Act) : Prop :=
  world c' = world c
  ∧ m_modelList c' = m_modelList c
  ∧ m_viewList c' = m_viewList c
  ∧ m_currentTime c' = m_currentTime c
  ∧ m_deletedSimulator c' = m_deletedSimulator c
  ∧ m_toDelete c' = m_toDelete c
  ∧ et_internal (m_eventTable c') = et_internal (m_eventTable c)
  ∧ et_observation (m_eventTable c') = et_observation (m_eventTable c)
  ∧ et_currentTime (m_eventTable c') = et_currentTime (m_eventTable c)
  ∧ et_bag (m_eventTable c') = et_bag (m_eventTable c)
  ∧ et_external (m_eventTable c') = et_external (m_eventTable c) ++ exts
  ∧ et_request (m_eventTable c') = et_request (m_eventTable c) ++ reqs
  ∧ did c c' acts.

(** By the words of the specification: the observations that notify the
    event views of a transition of [model]: one per event view and port of
    [model] it observes, at the time of the internal event, or at the
    current time when there is none. *)
Definition notifications (c : Coordinator W) (model : Simulator)
    (event : option InternalEvent) : list ObservationEvent :=
  eventViewList c ≫= λ it,
    (λ port,
       mkObservation
         (match event with
          | Some ev => ie_time ev
          | None => m_currentTime c
          end) model (v_name it.2) port [])
    <$> view_get it.2 model.

(** The two phases of [run]: the transitions of the instant with the
    deletion step, then the observations. *)
Definition transitions_phase (E : Env W) : M W unit :=
  bind (gets m_toDelete) (λ oldToDelete,
    bind (run_transitions E) (λ _, delete_old oldToDelete)).

Definition observation_phase (E : Env W) : M W unit :=
  bind (processObservationEvents E) (λ _, on_table (set_bag cb_clear)).

(** A call spares the pending deletions: it destroys no simulator, takes
    none off the list and leaves [m_toDelete] as it is. *)
Definition spares (c c' : Coordinator W) : Prop :=
  m_toDelete c' = m_toDelete c
  ∧ m_deletedSimulator c `prefix_of` m_deletedSimulator c'
  ∧ ∃ l, did c c' l ∧ destroyed l = [].

(** The number of parts of a bag that are not empty. *)
Definition bag_parts (b : EventBagModel) : nat :=
  (if emptyInternal b then 0 else 1) + (if emptyExternal b then 0 else 1)
  + (if emptyRequest b then 0 else 1).

(** What a call returns when it ends normally. *)
Definition returns {A} (Q : A → Prop) (m : M W A) : Prop :=
  ∀ c c' a, m c = (c', Ok a) → Q a.

(** What routing a list of events does to the outside: every fresh event
    is put in the table, then the event it copies is destroyed. *)
Definition routing_acts (E : Env W) c (sim : Simulator)
    (evs : list ExternalEvent) : list Act :=
  evs ≫= λ ev,
    (put_act <$> (delivered c sim ev <$> destinations E c sim ev))
    ++ [DeleteExternal (setModel ev sim)].

(** The notification of the event views: it changes neither the table nor
    the views, and asks the simulator for one observation per event view
    and observed port. *)
Definition notifies (model : Simulator) (l : list ObservationEvent)
    : relation (Coordinator W) := λ c c',
  m_eventTable c' = m_eventTable c
  ∧ m_viewList c' = m_viewList c
  ∧ m_currentTime c' = m_currentTime c
  ∧ ∃ V, did c c' V ∧ Forall (λ a, view_act a = true) V ∧ observed V = l.

(** The body of the inner loop of [processEventView]. *)
Definition notify_body (E : Env W) (model : Simulator)
    (event : option InternalEvent) (it : string * View) (jt : string)
    : M W unit :=
  bind (gets m_currentTime) (λ now,
    let newevent :=
      match event with
      | None => mkObservation now model (v_name it.2) jt []
      | Some ev => mkObservation (ie_time ev) model (v_name it.2) jt []
      end in
    bind (call_observation E model newevent) (λ eventvalue,
      bind (log (DeleteObservation (Some newevent))) (λ _,
        bind (log (ViewProcess (v_name it.2) eventvalue
                     (eventvalue ≫= view_processObservationEvent it.2)))
          (λ _, log (DeleteObservation eventvalue))))).

(** The observation an event view asks a simulator for. *)
Definition notification (t0 : Time) (model : Simulator)
    (event : option InternalEvent) (it : string * View) (port : string)
    : ObservationEvent :=
  mkObservation
    (match event with Some ev => ie_time ev | None => t0 end)
    model (v_name it.2) port [].

(** What the observation of scheduled events does: it calls no
    transition, hands the events [obs] to their simulators, and the events
    the views answer with are exactly those it puts in the table. *)
Definition observes (obs : list ObservationEvent)
    : relation (Coordinator W) := λ c c',
  ∃ l, did c c' l
    ∧ Forall (λ a, transition_call a = false) l
    ∧ observed l = obs
    ∧ et_observation (m_eventTable c')
      = et_observation (m_eventTable c) ++ replies l
    ∧ observations_put l = replies l.

(** The state in which the outer loop of [run] starts. *)
Definition popped c : Coordinator W :=
  let tbl := popEvent (m_eventTable c) in
  if cb_empty (et_bag tbl) then set_eventTable tbl c
  else set_currentTime (et_currentTime tbl) (set_eventTable tbl c).

(** The simulators a sequence of acts cleared: those [delAtomicModel]
    deleted. *)
Definition cleared (l : list Act) : list Simulator :=
  omap (λ a, match a with CallClear s => Some s | _ => None end) l.

(** A call purges the instant: the observation events it leaves in the
    queue of the instant are those of the simulators it did not delete. *)
Definition purges : relation (Coordinator W) := λ c c',
  ∃ l, did c c' l
    ∧ states_of c' = filter (λ e, oe_model e ∉ cleared l) (states_of c).


(** The calls of [Simulator::request] among what the coordinator did. *)
Definition requested (l : list Act)
    : list (Simulator * ExternalEvent * Time) :=
  omap (λ a, match a with
             | CallRequest s ev t => Some (s, ev, t)
             | _ => None
             end) l.

(** The calls of the transitions of the models among what the coordinator
    did, in order. *)
Definition transitions (l : list Act) : list Act :=
  filter (λ a, transition_call a = true) l.

(** What the loop of [processRequestEvents] does for the request events
    [reqs], from the state [c] to the state [c']: for each of them in
    turn, the call of [request] at the time [now], what the executive
    calls of the model did, and the routing of the events the call
    returned, each of them put in the table before the next request is
    asked. *)
Inductive asks (E : Env W) (sim : Simulator) (now : Time)
    : list ExternalEvent → Coordinator W → list Act → Coordinator W → Prop :=
| asks_nil c : asks E sim now [] c [] c
| asks_cons ev reqs c c0 c1 c' X l :
    let result := (request E (world c) sim ev now).1.2 in
    did c c0 (CallRequest sim ev now :: X) →
    Forall (λ a, exec_act a = true) X →
    routes_into c0 c1
      (routed E c0 sim (filter (λ e, isRequest e = false) result))
      (routed E c0 sim (filter (λ e, isRequest e = true) result))
      (routing_acts E c0 sim result) →
    asks E sim now reqs c1 l c' →
    asks E sim now (ev :: reqs) c
      (CallRequest sim ev now :: X ++ routing_acts E c0 sim result ++ l) c'.

(** The calls of the transitions of a model that the loop of [run] over
    the bag of its simulator makes, in order, at the time [now]:
    [confluentTransitions] first when the bag holds an internal event and
    external events, then the internal path and the external path in the
    order the answer names; the path of the part that is pending when
    there is one only; and the requests last. *)
Definition bag_calls (E : Env W) (w : W) (now : Time) (sim : Simulator)
    (bag : EventBagModel) : list Act :=
  match internal bag, externals bag with
  | Some ev, _ :: _ =>
      CallConfluent sim
      :: match confluentTransitions E w sim ev (externals bag) with
         | INTERNAL =>
             [CallOutput sim now; CallInternal sim ev;
              CallExternal sim (externals bag) now]
         | EXTERNAL =>
             [CallExternal sim (externals bag) now;
              CallOutput sim now; CallInternal sim ev]
         end
  | Some ev, [] => [CallOutput sim now; CallInternal sim ev]
  | None, _ :: _ => [CallExternal sim (externals bag) now]
  | None, [] => []
  end
  ++ ((λ r, CallRequest sim r now) <$> Request bag).

(** The bags of the instant that are left of [bags] once the simulators
    [ss] were deleted, one after the other. *)
Definition purge_bags (ss : list Simulator)
    (bags : list (option Simulator * EventBagModel))
    : list (option Simulator * EventBagModel) :=
  foldl (λ bs s, cb_bags (cb_delModel s (mkComplete bs []))) bags ss.

(** A call sifts the bags of the instant: it takes none, and the bags it
    leaves are those of the simulators it did not delete. *)
Definition sifts : relation (Coordinator W) := λ c c',
  ∃ l, did c c' l ∧ bags_of c' = purge_bags (cleared l) (bags_of c).

(** The bags the outer loop of [run] takes out of [bags], each with what
    its processing did: the first bag as it is, the next one among the
    bags left once the simulators deleted meanwhile are purged. *)
Inductive takes
    : list (option Simulator * EventBagModel) →
      list ((option Simulator * EventBagModel) * list Act) → Prop :=
| takes_nil : takes [] []
| takes_cons kb rest l steps :
    takes (purge_bags (cleared l) rest) steps →
    takes (kb :: rest) ((kb, l) :: steps).

(** The processing of the bag [st.1], which did [st.2], made the calls of
    the bag at the time [now]; a bag whose key is the null pointer is
    empty when the call returns. *)
Definition bag_done (E : Env W) (now : Time)
    (st : (option Simulator * EventBagModel) * list Act) : Prop :=
  match st.1.1 with
  | Some sim => ∃ w, transitions st.2 = bag_calls E w now sim st.1.2
  | None => st.2 = []
  end.

(** By the words of the specification (4.3.D): what the processing of the
    observation event [top] does once the simulator has answered
    [value]: the value is handed to the view it names, and the follow-up
    event that view returns, if any, is put in the table. *)
Definition observation_acts (views : gmap string View)
    (top : ObservationEvent) (value : option ObservationEvent)
    : list Act :=
  CallObservation (oe_model top) top
  :: match value with
     | Some event =>
         match views !! oe_view event with
         | Some view =>
             ViewProcess (v_name view) (Some event)
               (view_processObservationEvent view event)
             :: DeleteObservation (Some event)
             :: match view_processObservationEvent view event with
                | Some e => [PutObservation e]
                | None => []
                end
         | None => []
         end
     | None => []
     end
  ++ [DeleteObservation (Some top)].

(** The same for the observation events [states] of an instant, one after
    the other, from the world [w]. *)
Fixpoint observation_trace (E : Env W) (views : gmap string View) (w : W)
    (states : list ObservationEvent) : list Act :=
  match states with
  | [] => []
  | top :: rest =>
      let r := observation E w (oe_model top) top in
      observation_acts views top r.2 ++ observation_trace E views r.1 rest
  end.

End Vocabulary.

(** *** Time *)

(** Every event of the bag, of the table (pending or in the bag of the
    instant) is at [t] or later. *)
Definition bag_from (t : Time) (b : EventBagModel) : Prop :=
  (∀ e, internal b = Some e → t ≤ ie_time e)
  ∧ Forall (λ e, t ≤ ee_time e) (externals b)
  ∧ Forall (λ e, t ≤ ee_time e) (Request b).

Definition table_from (t : Time) (tbl : EventTable) : Prop :=
  Forall (λ e, t ≤ ie_time e) (et_internal tbl)
  ∧ Forall (λ e, t ≤ ee_time e) (et_external tbl)
  ∧ Forall (λ e, t ≤ ee_time e) (et_request tbl)
  ∧ Forall (λ e, t ≤ oe_time e) (et_observation tbl)
  ∧ Forall (λ kb, bag_from t kb.2) (cb_bags (et_bag tbl))
  ∧ Forall (λ e, t ≤ oe_time e) (cb_states (et_bag tbl)).

(** The period of a timed view is not negative. *)
Definition views_periodic (views : gmap string View) : Prop :=
  ∀ name v p, views !! name = Some v → v_kind v = TimedView p → 0 ≤ p.

(** Nothing is scheduled in the past. *)
Definition time_ok {W} (c : Coordinator W) : Prop :=
  table_from (m_currentTime c) (m_eventTable c)
  ∧ views_periodic (m_viewList c).

(** No simulator answers with an event earlier than the time it is called
    at: the time advance of a model is not negative. *)
Definition causal {W} (E : Env W) : Prop :=
  (∀ w s t, Forall (λ e, t ≤ ee_time e) (output E w s t).1.2)
  ∧ (∀ w s ev e,
       (internalTransition E w s ev).1.2 = Some e → ie_time ev ≤ ie_time e)
  ∧ (∀ w s lst t e,
       (externalTransition E w s lst t).1.2 = Some e → t ≤ ie_time e)
  ∧ (∀ w s ev t, Forall (λ e, t ≤ ee_time e) (request E w s ev t).1.2)
  ∧ (∀ w s ev e, (observation E w s ev).2 = Some e → oe_time ev ≤ oe_time e).

(** A call made at time [t] keeps the time and schedules nothing in the
    past. *)
Definition keeps_time {W} (t : Time) : relation (Coordinator W) := λ c c',
  m_currentTime c = t → time_ok c → m_currentTime c' = t ∧ time_ok c'.

(** *** Events that reference a simulator *)

(** A bag references [s] when it is the bag of [s] or holds an event that
    mentions [s]; a table is free of [s] when none of its pending events
    and nothing in the bag of the instant references [s]. *)
Definition bag_free (s : Simulator) (b : EventBagModel) : Prop :=
  (∀ e, internal b = Some e → ie_model e ≠ s)
  ∧ Forall (λ e, ¬ ext_mentions s e) (externals b)
  ∧ Forall (λ e, ¬ ext_mentions s e) (Request b).

Definition cb_free (s : Simulator) (cb : CompleteEventBagModel) : Prop :=
  Forall (λ kb, kb.1 ≠ Some s ∧ bag_free s kb.2) (cb_bags cb)
  ∧ Forall (λ e, oe_model e ≠ s) (cb_states cb).

Definition table_free (s : Simulator) (tbl : EventTable) : Prop :=
  Forall (λ e, ie_model e ≠ s) (et_internal tbl)
  ∧ Forall (λ e, ¬ ext_mentions s e) (et_external tbl)
  ∧ Forall (λ e, ¬ ext_mentions s e) (et_request tbl)
  ∧ Forall (λ e, oe_model e ≠ s) (et_observation tbl)
  ∧ cb_free s (et_bag tbl).

(** A coordinator is free of [s]: no event of its table references [s] and
    [s] is the simulator of no model. *)
Definition free {W} (s : Simulator) (c : Coordinator W) : Prop :=
  table_free s (m_eventTable c) ∧ ∀ a, m_modelList c !! a ≠ Some s.

(** A call puts no reference to [s] in a coordinator that is free of it. *)
Definition keeps_free {W} (s : Simulator) : relation (Coordinator W) :=
  λ c c', free s c → free s c'.

(** A simulator answers with events of its own: the internal event a
    transition returns is bound to the simulator that made it, and the
    answer to an observation keeps the simulator of the event observed. *)
Definition answers_own {W} (E : Env W) : Prop :=
  (∀ w sim ev e,
     (internalTransition E w sim ev).1.2 = Some e → ie_model e = sim)
  ∧ (∀ w sim lst t e,
       (externalTransition E w sim lst t).1.2 = Some e → ie_model e = sim)
  ∧ (∀ w sim ev e,
       (observation E w sim ev).2 = Some e → oe_model e = oe_model ev).

(** What can be done to the table after a deletion. *)
Inductive TableOp :=
| OpPutInternal (e : InternalEvent)
| OpPutExternal (e : ExternalEvent)
| OpPutRequest (e : ExternalEvent)
| OpPutObservation (e : ObservationEvent)
| OpPopEvent
| OpDelModelEvents (s : Simulator).

Definition table_op (tbl : EventTable) (op : TableOp) : EventTable :=
  match op with
  | OpPutInternal e => putInternalEvent e tbl
  | OpPutExternal e => putExternalEvent e tbl
  | OpPutRequest e => putRequestEvent e tbl
  | OpPutObservation e => putObservationEvent e tbl
  | OpPopEvent => popEvent tbl
  | OpDelModelEvents s => delModelEvents s tbl
  end.

(** The operation puts no event that references [s]. *)
Definition op_free (s : Simulator) (op : TableOp) : Prop :=
  match op with
  | OpPutInternal e => ie_model e ≠ s
  | OpPutExternal e | OpPutRequest e => ¬ ext_mentions s e
  | OpPutObservation e => oe_model e ≠ s
  | OpPopEvent | OpDelModelEvents _ => True
  end.


(** *** Calls into a simulator *)

(** The act is a call of a method of the simulator [s]; its destruction,
    which [DeleteSimulator] records, is not one. *)
Definition calls_on (s : Simulator) (a : Act) : bool :=
  match a with
  | CallConfluent s' | CallOutput s' _ | CallInternal s' _
  | CallExternal s' _ _ | CallRequest s' _ _ | CallObservation s' _
  | CallClear s' => bool_decide (s' = s)
  | _ => false
  end.

(** From a coordinator that is free of [s], a call leaves one that is free
    of [s] and calls no method of [s]. *)
Definition quiet {W} (s : Simulator) : relation (Coordinator W) :=
  λ c c',
    free s c →
    free s c' ∧ ∃ l, did c c' l ∧ Forall (λ a, calls_on s a = false) l.

(** *** A deletion made during a call of [run] *)

(** [s] is the simulator of one model at most. *)
Definition single {W} (s : Simulator) (c : Coordinator W) : Prop :=
  ∀ a a',
    m_modelList c !! a = Some s → m_modelList c !! a' = Some s → a = a'.

(** The models of [s] make no executive call: none of their transitions
    asks the coordinator for anything. *)
Definition makes_no_call {W} (E : Env W) (s : Simulator) : Prop :=
  (∀ w t, (output E w s t).2 = [])
  ∧ (∀ w ev, (internalTransition E w s ev).2 = [])
  ∧ (∀ w lst t, (externalTransition E w s lst t).2 = [])
  ∧ (∀ w ev t, (request E w s ev t).2 = []).

(** A call is idle: it registers and deletes no model. *)
Definition idle {W} : relation (Coordinator W) := λ c c',
  m_modelList c' = m_modelList c ∧ ∃ l, did c c' l ∧ cleared l = [].

(** A call settles [s]: it registers no model, it keeps a coordinator
    that is free of [s] free of it, and once it has deleted the model of
    [s] it leaves a coordinator that is free of [s]. *)
Definition settles {W} (s : Simulator) : relation (Coordinator W) :=
  λ c c',
    m_modelList c' ⊆ m_modelList c
    ∧ (free s c → free s c')
    ∧ ∃ l, did c c' l ∧ (single s c → s ∈ cleared l → free s c').

End Devs.

(** ** A run with an executive model

    Two atomic models in the coupled model 0: the executive model 10, with
    the simulator 1, and the model 20 named M, with the simulator 2; the
    port "out" of the executive is connected to the port "in" of M.  The
    world is whether M is still in the graph.  The executive emits one
    event on "out" at every internal transition, its first internal
    transition deletes M, and every simulator schedules its next internal
    event one unit of time later.  A timed view "v" of period 2 and an
    event view "e" observe the port "p" of the executive.  The factory
    registers both simulators, with a first internal event at time 1 for
    the executive and at time 5 for M, and a first observation of "v" at
    time 1. *)

Module Scenario.
Import Devs.

Definition executive : Simulator := 1%nat.
Definition doomed : Simulator := 2%nat.

Definition env : Env bool :=
  {| findModel := λ w _ name,
       if w && bool_decide (name = "M"%string) then Some (Atomic 20%nat)
       else None;
     graph_delModel := λ _ _ _, false;
     delAllConnection := λ w _ _, w;
     getTargetPortList := λ w s port,
       if w && bool_decide (s = executive)
          && bool_decide (port = "out"%string)
       then [(Atomic 20%nat, "in"%string)] else [];
     confluentTransitions := λ _ _ _ _, EXTERNAL;
     output := λ w s t,
       (w,
        if bool_decide (s = executive)
        then [mkExternal t None None "out" false [("x"%string, 42)]]
        else [],
        []);
     internalTransition := λ w s ev,
       (w, Some (mkInternal (ie_time ev + 1) s),
        if w && bool_decide (s = executive)
        then [DelModel 0%nat "M"%string] else []);
     externalTransition := λ w _ _ _, (w, None, []);
     request := λ w _ _ _, (w, [], []);
     observation := λ w _ ev, (w, Some ev);
     clear := λ w _, w;
     createModels := λ c,
       (mkCoordinator (m_currentTime c)
          {[ 10%nat := executive; 20%nat := doomed ]}
          (m_viewList c)
          (mkTable [mkInternal 1 executive; mkInternal 5 doomed] [] []
             [mkObservation 1 executive "v" "p" []]
             (et_currentTime (m_eventTable c)) (et_bag (m_eventTable c)))
          (m_deletedSimulator c) (m_toDelete c) (world c) (trace c),
        Ok tt) |}.

(** The coordinator as its constructor leaves it, at time 0. *)
Definition start : Coordinator bool :=
  mkCoordinator 0 ∅
    {[ "v"%string := mkView "v" (TimedView 2) [(executive, "p"%string)];
       "e"%string := mkView "e" EventView [(executive, "p"%string)] ]}
    et_init [] 0%nat true [].

(** The state after [init]. *)
Definition initial : Coordinator bool := fst (init env start).

(** The state after [init] and a first [run]. *)
Definition after_first_run : Coordinator bool :=
  fst (bind (init env) (λ _, run env) start).

(** The initial state with one more event: an external event for the
    executive model at time 1, the time of its internal event. *)
Definition confluent_start : Coordinator bool :=
  set_eventTable
    (putExternalEvent
       (mkExternal 1 (Some doomed) (Some executive) "in" false [])
       (m_eventTable initial))
    initial.



End Scenario.

(* ===================================================================== *)
(** * Properties *)
(* ===================================================================== *)

(** ** The package table *)

Module PackageTableFacts.
Import PackageTable.

Lemma init_valid : valid init.
Proof. unfold valid, init; simpl. set_solver. Qed.

Lemma current_valid p package : valid p → valid (current p package).
Proof.
  unfold valid, current. intros Hp.
  destruct (bool_decide (package ∉ m_table p)); simpl; set_solver.
Qed.

Lemma remove_valid p i : valid p → valid (fst (remove p i)).
Proof.
  unfold valid, remove. intros Hp.
  destruct (decide (m_current p = i)); simpl; [done|]. set_solver.
Qed.

(** C8.  [remove(i)] throws [ArgError] exactly when [i] designates the
    current package, and then leaves the table as it was; for any other
    index the call returns, the entry [i] is erased, and neither the other
    entries nor the selection move. *)
Theorem remove_throws_iff_current (p : t) (i : index) :
  (throws (remove p i) ↔ i = m_current p)
  ∧ (i = m_current p → fst (remove p i) = p)
  ∧ (i ≠ m_current p →
       snd (remove p i) = Returned
       ∧ (i ∉ m_table (fst (remove p i)))
       ∧ m_table (fst (remove p i)) = m_table p ∖ {[ i ]}
       ∧ m_current (fst (remove p i)) = m_current p).
Proof.
  unfold throws, remove.
  destruct (decide (m_current p = i)) as [Heq|Hne]; simpl.
  - split_and!; [naive_solver | done | congruence].
  - split_and!; [naive_solver | congruence |].
    intros _. split_and!; [done | | done | done].
    rewrite not_elem_of_difference. right. by apply elem_of_singleton.
Qed.

(** C9.  [current(name)] for a name the table already holds changes
    nothing, the selection included; a name the call inserts becomes the
    selection; so the selection moves only for a newly inserted name. *)
Theorem current_keeps_selection_of_known_name (p : t) (name : string) :
  (name ∈ m_table p → current p name = p)
  ∧ (name ∉ m_table p →
       m_current (current p name) = name
       ∧ m_table (current p name) = m_table p ∪ {[ name ]})
  ∧ (m_current (current p name) ≠ m_current p → name ∉ m_table p).
Proof.
  unfold current. split_and!.
  - intros Hin. rewrite bool_decide_eq_false_2 by tauto.
    destruct p as [tbl cur]; simpl in *. f_equal.
    rewrite (comm_L (∪)). apply subseteq_union_1_L.
    by apply singleton_subseteq_l.
  - intros Hnin. rewrite bool_decide_eq_true_2 by done. done.
  - destruct (bool_decide (name ∉ m_table p)) eqn:Hd; simpl.
    + intros _. by apply bool_decide_eq_true_1 in Hd.
    + congruence.
Qed.

Lemma get_valid p package : valid p → valid (fst (get p package)).
Proof.
  unfold valid, get; simpl. intros Hp. apply elem_of_union. by left.
Qed.

Lemma step_valid p k : valid p → valid (step p k).
Proof.
  destruct k; simpl;
    [apply current_valid | apply get_valid | apply remove_valid].
Qed.

(** X1.  The selection never dangles: after any sequence of calls of
    [current], [get] and [remove] on the table the constructor builds,
    whether the calls of [remove] returned or threw, the selection
    designates a name the table holds. *)
Theorem selection_always_in_table (ks : list call) :
  well_formed init ks →
  m_current (calls init ks) ∈ m_table (calls init ks).
Proof.
  intros _. unfold calls.
  assert (H : ∀ p, valid p → valid (foldl step p ks)).
  { induction ks as [|k ks IH]; intros p Hp; simpl; [done|].
    by apply IH, step_valid. }
  apply (H init), init_valid.
Qed.

Lemma selection_after_some_calls :
  let ks :=
    [Get "a"; Current "b"; Remove "a"; Remove "b"; Remove ""]%string in
  well_formed init ks
  ∧ m_current (calls init ks) = "b"%string
  ∧ m_current (calls init ks) ∈ m_table (calls init ks).
Proof.
  cbv zeta.
  set (ks :=
    [Get "a"; Current "b"; Remove "a"; Remove "b"; Remove ""]%string).
  assert (Hwf : well_formed init ks).
  { unfold ks. simpl. by split_and!. }
  split_and!; [exact Hwf | by vm_compute |].
  exact (selection_always_in_table ks Hwf).
Defined.

(** X2.  [get(name)] for a name the table does not hold inserts it,
    returns the index that designates it and leaves the selection alone;
    [remove] of that index then gives the table back as it was.  A second
    [get] of the same name changes nothing. *)
Theorem get_then_remove_restores (p : t) (name : string) :
  valid p → name ∉ m_table p →
  snd (get p name) = name
  ∧ m_table (fst (get p name)) = m_table p ∪ {[ name ]}
  ∧ m_current (fst (get p name)) = m_current p
  ∧ get (fst (get p name)) name = get p name
  ∧ remove (fst (get p name)) (snd (get p name)) = (p, Returned).
Proof.
  unfold valid, get, remove; simpl. intros Hp Hname.
  split_and!; try done.
  - f_equal. f_equal. by rewrite <- (assoc_L (∪)), (idemp_L (∪)).
  - destruct (decide (m_current p = name)) as [<-|Hne]; [done|].
    f_equal. destruct p as [tbl cur]; simpl in *. f_equal.
    apply set_eq. intros x.
    rewrite elem_of_difference, elem_of_union, elem_of_singleton.
    split.
    + intros [[Hx|Hx] Hn]; [done|]. destruct Hn.
      by apply elem_of_singleton.
    + intros Hx. split; [by left|].
      intros Hn. apply elem_of_singleton in Hn. by subst x.
Qed.

Lemma get_then_remove_on_init :
  valid init ∧ ("a"%string ∉ m_table init)
  ∧ remove (fst (get init "a")) (snd (get init "a")) = (init, Returned).
Proof.
  assert (Hv : valid init) by apply init_valid.
  assert (Ha : "a"%string ∉ m_table init).
  { unfold init; simpl. by rewrite elem_of_singleton. }
  split_and!; [exact Hv | exact Ha |].
  apply (get_then_remove_restores init "a" Hv Ha).
Defined.

(** X3.  [current] selects new names only.  A name obtained with [get]
    is in the table, so [current] on it keeps the old selection; once a
    name of the table that is not the selection is removed, [current]
    selects it, and [remove] of it throws from then on. *)
Theorem current_after_get_keeps_selection (p : t) (name : string) :
  m_current (current (fst (get p name)) name) = m_current p
  ∧ (name ∈ m_table p → name ≠ m_current p →
       m_current (current (fst (remove p name)) name) = name
       ∧ throws (remove (current (fst (remove p name)) name) name)).
Proof.
  split.
  - unfold current, get; simpl.
    rewrite bool_decide_eq_false_2; [done|].
    intros Hn. apply Hn, elem_of_union. right. by apply elem_of_singleton.
  - intros _ Hne.
    assert (Hrem : fst (remove p name)
                   = {| m_table := m_table p ∖ {[name]};
                        m_current := m_current p |}).
    { unfold remove. by destruct (decide (m_current p = name)). }
    rewrite Hrem.
    assert (Hsel : m_current
              (current {| m_table := m_table p ∖ {[name]};
                          m_current := m_current p |} name) = name).
    { unfold current; simpl. rewrite bool_decide_eq_true_2; [done|].
      rewrite elem_of_difference, elem_of_singleton. by intros [_ ?]. }
    split; [exact Hsel|].
    unfold throws, remove. rewrite Hsel.
    by rewrite decide_True.
Qed.

End PackageTableFacts.

(** ** The ports of a condition *)

Module ConditionFacts.
Import Condition.
Section WithValue.

Context {Value : Type}.
Implicit Types (c : Condition.t Value) (v : Value).

Lemma add_known_port c portname set :
  ports c !! portname = Some set → ports (add c portname) = ports c.
Proof. unfold add; simpl. by intros ->. Qed.

Lemma add_lookup_self c portname :
  ports (add c portname) !! portname
  = Some (default [] (ports c !! portname)).
Proof.
  unfold add; simpl. destruct (ports c !! portname) as [set|] eqn:Hp; simpl.
  - exact Hp.
  - by rewrite lookup_insert_eq.
Qed.

Lemma addValueToPort_lookup c portname v :
  ports (addValueToPort c portname v) !! portname
  = Some (default [] (ports c !! portname) ++ [v]).
Proof.
  unfold addValueToPort. destruct (ports c !! portname) as [set|]; simpl.
  - by rewrite lookup_insert_eq.
  - by rewrite lookup_insert_eq.
Qed.

(** C10.  [add(portname)] on a port that exists keeps every value set as
    it is, the values [addValueToPort] stored on that port included, and
    sets the last added port; adding twice is adding once. *)
Theorem add_preserves_value_sets (c : Condition.t Value) (portname : string) :
  (∀ set, ports c !! portname = Some set →
     ports (add c portname) = ports c
     ∧ m_last_port (add c portname) = portname
     ∧ m_name (add c portname) = m_name c)
  ∧ (∀ v, ports (add (addValueToPort c portname v) portname)
          = ports (addValueToPort c portname v)
        ∧ getSetValues (add (addValueToPort c portname v) portname) portname
          = Some (default [] (ports c !! portname) ++ [v]))
  ∧ add (add c portname) portname = add c portname
  ∧ (∀ other, other ≠ portname →
       ports (add c portname) !! other = ports c !! other).
Proof.
  split_and!.
  - intros set Hset. split_and!; [by eapply add_known_port | done | done].
  - intros v.
    pose proof (addValueToPort_lookup c portname v) as Hl.
    split.
    + by eapply add_known_port.
    + unfold getSetValues. erewrite add_known_port by done. done.
  - unfold add; simpl.
    destruct (ports c !! portname) as [set|] eqn:Hp; simpl.
    + by rewrite Hp.
    + by rewrite lookup_insert_eq.
  - intros other Hne. unfold add; simpl.
    destruct (ports c !! portname); [done|]. by rewrite lookup_insert_ne.
Qed.

(** *** Values are kept in the order of the calls *)

Lemma addValueToPort_other c portname v other :
  other ≠ portname →
  ports (addValueToPort c portname v) !! other = ports c !! other.
Proof.
  intros Hne. unfold addValueToPort.
  destruct (ports c !! portname); simpl; by rewrite lookup_insert_ne.
Qed.

(** X4.  The values [addValueToPort] adds to a port, one call after the
    other, are the stored set of the port in the order of the calls,
    after the values the port already had; the first call creates the port
    when it is missing, and no other port is touched. *)
Theorem addValueToPort_keeps_call_order (c : Condition.t Value)
    (portname : string) (v : Value) (vs : list Value) :
  let c' := foldl (λ c v, addValueToPort c portname v) c (v :: vs) in
  getSetValues c' portname
  = Some (default [] (getSetValues c portname) ++ v :: vs)
  ∧ (∀ other, other ≠ portname →
       getSetValues c' other = getSetValues c other)
  ∧ m_name c' = m_name c.
Proof.
  cbv zeta. unfold getSetValues.
  revert c v. induction vs as [|w vs IH]; intros c v; simpl in *.
  - split_and!.
    + apply addValueToPort_lookup.
    + intros other Hne. by apply addValueToPort_other.
    + unfold addValueToPort. by destruct (ports c !! portname).
  - destruct (IH (addValueToPort c portname v) w) as (Hset & Hother & Hname).
    split_and!.
    + rewrite Hset, addValueToPort_lookup. simpl.
      by rewrite <- app_assoc.
    + intros other Hne. rewrite Hother by done.
      by apply addValueToPort_other.
    + rewrite Hname. unfold addValueToPort.
      by destruct (ports c !! portname).
Qed.

(** *** The first values *)

Lemma firstValues_loop_inr (its : list (string * list Value)) :
  ∀ (result m : gmap string Value),
  NoDup its.*1 → firstValues_loop its result = inr m →
  Forall (λ it, it.2 ≠ []) its
  ∧ ∀ name, m !! name
      = match (list_to_map its : gmap string (list Value)) !! name with
        | Some set => head set
        | None => result !! name
        end.
Proof.
  induction its as [|[n set] rest IH]; intros result m Hnd Hloop.
  - injection Hloop as <-. split; [done|].
    intros name. by rewrite list_to_map_nil, lookup_empty.
  - rewrite fmap_cons in Hnd. apply NoDup_cons in Hnd as [Hn Hnd].
    cbn [fst] in Hn. cbn [firstValues_loop fst snd] in Hloop.
    destruct set as [|v set]; [done|].
    destruct (IH _ _ Hnd Hloop) as [Hall Hm]. split; [by constructor|].
    intros name. rewrite Hm, list_to_map_cons.
    destruct (decide (n = name)) as [->|Hne].
    + rewrite lookup_insert_eq.
      rewrite (not_elem_of_list_to_map_1 rest name Hn).
      by rewrite lookup_insert_eq.
    + by rewrite !lookup_insert_ne.
Qed.

Lemma firstValues_loop_inl (its : list (string * list Value)) :
  ∀ (result : gmap string Value) e,
  firstValues_loop its result = inl e →
  e = SaxParserError ∧ Exists (λ it, it.2 = []) its.
Proof.
  induction its as [|[n set] rest IH]; intros result e Hloop; [done|].
  cbn [firstValues_loop fst snd] in Hloop. destruct set as [|v set].
  - injection Hloop as <-. split; [done|]. by left.
  - destruct (IH _ _ Hloop) as [-> Hex]. split; [done|]. by right.
Qed.

Lemma firstValues_inr c m :
  firstValues c = inr m →
  (∀ port set, ports c !! port = Some set → set ≠ [])
  ∧ m = omap head (ports c).
Proof.
  unfold firstValues. intros Hloop.
  apply firstValues_loop_inr in Hloop as [Hall Hm];
    [|apply NoDup_fst_map_to_list].
  split.
  - intros port set Hport. rewrite Forall_forall in Hall.
    apply (Hall (port, set)). by apply elem_of_map_to_list.
  - apply map_eq. intros name. rewrite Hm, list_to_map_to_list.
    rewrite lookup_omap. by destruct (ports c !! name).
Qed.

Lemma firstValues_inl c e :
  firstValues c = inl e →
  e = SaxParserError ∧ ∃ port, ports c !! port = Some [].
Proof.
  unfold firstValues. intros Hloop.
  apply firstValues_loop_inl in Hloop as [-> Hex]. split; [done|].
  apply Exists_exists in Hex as ([port set] & Hin & Hset). simpl in Hset.
  subst set. exists port. by apply elem_of_map_to_list.
Qed.

(** X5.  [firstValues] throws, a [SaxParserError], exactly when the value
    set of some port is empty; otherwise it returns the list that binds
    every port, and nothing else, to the first value of its set.  The
    order in which the ports are visited does not show. *)
Theorem firstValues_fails_iff_an_empty_port (c : Condition.t Value) :
  (firstValues c = inl SaxParserError
   ↔ ∃ port, ports c !! port = Some [])
  ∧ (∀ m, firstValues c = inr m
          ↔ (∀ port set, ports c !! port = Some set → set ≠ [])
            ∧ m = omap head (ports c))
  ∧ firstValues c ≠ inl InternalError.
Proof.
  split_and!.
  - split; [by intros [_ ?]%firstValues_inl|].
    intros (port & Hport).
    destruct (firstValues c) as [e|m] eqn:Hf.
    + by apply firstValues_inl in Hf as [-> _].
    + apply firstValues_inr in Hf as [Hall _]. by destruct (Hall _ _ Hport).
  - intros m. split; [apply firstValues_inr|].
    intros [Hall ->].
    destruct (firstValues c) as [e|m] eqn:Hf.
    + apply firstValues_inl in Hf as (_ & port & Hport).
      by destruct (Hall _ _ Hport).
    + by apply firstValues_inr in Hf as [_ ->].
  - intros Hf. by apply firstValues_inl in Hf as [? _].
Qed.

(** *** The last added port *)

(** X6.  [lastAddedPort] fails on a condition just built.  After
    [add(port)] it returns the set of [port], and after [addValueToPort]
    on a port that was missing the set that holds the value alone.
    [addValueToPort] on a port that exists does not move the mark: the
    call still returns the set of the port marked before.  And [del] of
    the marked port makes the call fail. *)
Theorem lastAddedPort_follows_add (c : Condition.t Value)
    (portname : string) (v : Value) :
  lastAddedPort (create (Value := Value) (m_name c)) = None
  ∧ lastAddedPort (add c portname)
    = Some (default [] (getSetValues c portname))
  ∧ (getSetValues c portname = None →
       lastAddedPort (addValueToPort c portname v) = Some [v])
  ∧ (is_Some (getSetValues c portname) →
       m_last_port (addValueToPort c portname v) = m_last_port c
       ∧ (m_last_port c ≠ portname →
            lastAddedPort (addValueToPort c portname v)
            = lastAddedPort c))
  ∧ lastAddedPort (del c (m_last_port c)) = None.
Proof.
  unfold lastAddedPort, getSetValues. split_and!.
  - done.
  - apply add_lookup_self.
  - intros Hnone. unfold addValueToPort. rewrite Hnone. simpl.
    by rewrite lookup_insert_eq.
  - intros [set Hset]. unfold addValueToPort. rewrite Hset. simpl.
    split; [done|]. intros Hne. by rewrite lookup_insert_ne.
  - unfold del; simpl. apply lookup_delete_eq.
Qed.

(** *** Ports that are emptied or erased *)

(** X7.  [rebuildValueSet] keeps every port and empties every set, the
    marked port staying marked; so [firstValues] fails afterwards as soon
    as the condition has a port, and the values added later start from
    nothing. *)
Theorem rebuildValueSet_empties_every_port (c : Condition.t Value) :
  (∀ port, getSetValues (rebuildValueSet c) port
           = (λ _, []) <$> getSetValues c port)
  ∧ m_last_port (rebuildValueSet c) = m_last_port c
  ∧ rebuildValueSet (rebuildValueSet c) = rebuildValueSet c
  ∧ (firstValues (rebuildValueSet c) = inl SaxParserError
     ↔ ports c ≠ ∅)
  ∧ (∀ port v, is_Some (getSetValues c port) →
       getSetValues (addValueToPort (rebuildValueSet c) port v) port
       = Some [v]).
Proof.
  assert (Hlook : ∀ port, ports (rebuildValueSet c) !! port
                          = (λ _, []) <$> ports c !! port).
  { intros port. unfold rebuildValueSet; simpl. apply lookup_fmap. }
  unfold getSetValues. split_and!.
  - exact Hlook.
  - done.
  - unfold rebuildValueSet; simpl. f_equal.
    rewrite <- map_fmap_compose. done.
  - split.
    + intros Hf Hempty. apply firstValues_inl in Hf as (_ & port & Hport).
      rewrite Hlook, Hempty, lookup_empty in Hport. done.
    + intros Hne. apply map_choose in Hne as (port & set & Hport).
      destruct (firstValues (rebuildValueSet c)) as [e|m] eqn:Hf.
      * by apply firstValues_inl in Hf as [-> _].
      * apply firstValues_inr in Hf as [Hall _].
        destruct (Hall port []); [|done]. by rewrite Hlook, Hport.
  - intros port v [set Hset].
    rewrite addValueToPort_lookup, Hlook, Hset. done.
Qed.

(** X8.  [del(port)] erases the port with its values and touches no other
    port; on a port the condition does not have it changes nothing.
    Erasing a port that [add] has just created gives the ports back as
    they were, and adding an erased port again gives it with an empty
    set: the values are lost. *)
Theorem del_erases_port_and_values (c : Condition.t Value)
    (portname : string) :
  getSetValues (del c portname) portname = None
  ∧ (∀ other, other ≠ portname →
       getSetValues (del c portname) other = getSetValues c other)
  ∧ (getSetValues c portname = None →
       del c portname = c
       ∧ ports (del (add c portname) portname) = ports c)
  ∧ getSetValues (add (del c portname) portname) portname = Some [].
Proof.
  unfold getSetValues. split_and!.
  - unfold del; simpl. apply lookup_delete_eq.
  - intros other Hne. unfold del; simpl. by apply lookup_delete_ne.
  - intros Hnone. split.
    + destruct c as [p n l]; unfold del; simpl in *. f_equal.
      by apply delete_id.
    + unfold del, add; simpl. rewrite Hnone.
      by apply delete_insert_id.
  - rewrite add_lookup_self. unfold del; simpl.
    by rewrite lookup_delete_eq.
Qed.

End WithValue.
End ConditionFacts.

(** ** The coordinator *)

Module DevsFacts.
Import Devs.

Section Facts.

Context {W : Type} (E : Env W).

Implicit Types (c : Coordinator W) (P Q : Act → bool) (tbl : EventTable).
Implicit Types (R : relation (Coordinator W)).

Local Abbreviation pres := (pres (W := W)).
Local Abbreviation returns := (returns (W := W)).
Local Abbreviation routing_acts := (routing_acts E).
Local Abbreviation notify_body := (notify_body E).

(** *** Calls that keep a relation between the state before and after *)

Lemma pres_ret R `{!Reflexive R} {A} (a : A) : pres R (ret a).
Proof. intros c. simpl. reflexivity. Qed.

Lemma pres_throw R `{!Reflexive R} {A} (e : exn) : pres R (throw (A := A) e).
Proof. intros c. simpl. reflexivity. Qed.

Lemma pres_gets R `{!Reflexive R} {A} (f : Coordinator W → A) :
  pres R (gets f).
Proof. intros c. simpl. reflexivity. Qed.

Lemma pres_modify R (f : Coordinator W → Coordinator W) :
  (∀ c, R c (f c)) → pres R (modify f).
Proof. intros Hf c. simpl. apply Hf. Qed.

Lemma pres_bind R `{!Transitive R} {A B} (m : M W A) (f : A → M W B) :
  pres R m → (∀ a, pres R (f a)) → pres R (bind m f).
Proof.
  intros Hm Hf c. unfold bind. specialize (Hm c).
  destruct (m c) as [c1 [a|e]]; simpl in *.
  - etrans; [exact Hm | apply Hf].
  - exact Hm.
Qed.

Lemma pres_foreach R `{!Reflexive R} `{!Transitive R} {A} (l : list A)
    (f : A → M W unit) :
  (∀ x, x ∈ l → pres R (f x)) → pres R (foreach l f).
Proof.
  induction l as [|x l IH]; intros Hf; simpl.
  - by apply pres_ret.
  - apply pres_bind; [done | apply Hf; left | intros _].
    apply IH. intros y Hy. apply Hf. by right.
Qed.

Lemma pres_weaken (R R' : relation (Coordinator W)) {A} (m : M W A) :
  (∀ c c', R c c' → R' c c') → pres R m → pres R' m.
Proof. intros HR Hm c. apply HR, Hm. Qed.

(** Inversion of a sequence that ended normally. *)
Lemma bind_Ok {A B} (m : M W A) (f : A → M W B) c c' b :
  bind m f c = (c', Ok b) →
  ∃ c1 a, m c = (c1, Ok a) ∧ f a c1 = (c', Ok b).
Proof.
  unfold bind. destruct (m c) as [c1 [a|e]]; intros H; [eauto | done].
Qed.

Lemma bind_Throw {A B} (m : M W A) (f : A → M W B) c c' e :
  bind m f c = (c', Throw e) →
  m c = (c', Throw e) ∨ ∃ c1 a, m c = (c1, Ok a) ∧ f a c1 = (c', Throw e).
Proof.
  unfold bind. destruct (m c) as [c1 [a|e']]; intros H; [eauto | left].
  congruence.
Qed.

(** *** The frame of the calls made while an instant is processed *)

#[local] Instance frame_refl P : Reflexive (frame (W := W) P).
Proof.
  intros c. unfold frame. split_and!; try done.
  exists []. by rewrite app_nil_r.
Qed.

#[local] Instance frame_trans P : Transitive (frame (W := W) P).
Proof.
  intros c1 c2 c3 (Ht1 & He1 & Hd1 & Hp1 & Hb1 & Hs1 & l1 & Hl1 & HP1)
    (Ht2 & He2 & Hd2 & Hp2 & Hb2 & Hs2 & l2 & Hl2 & HP2).
  unfold frame. split_and!; try congruence.
  - by etrans.
  - lia.
  - by etrans.
  - exists (l1 ++ l2). split.
    + by rewrite Hl2, Hl1, app_assoc.
    + by apply Forall_app.
Qed.

Lemma frame_mono P Q c c' :
  (∀ a, P a = true → Q a = true) → frame P c c' → frame Q c c'.
Proof.
  intros HPQ (Ht & He & Hd & Hp & Hb & Hs & l & Hl & HP).
  unfold frame. split_and!; try done.
  exists l. split; [done|]. eapply Forall_impl; [exact HP | done].
Qed.

Lemma pres_frame_mono P Q {A} (m : M W A) :
  (∀ a, P a = true → Q a = true) → pres (frame P) m → pres (frame Q) m.
Proof. intros HPQ. apply pres_weaken. intros c c'. by apply frame_mono. Qed.

Lemma frame_did P c c' :
  frame P c c' → ∃ l, did c c' l ∧ Forall (λ a, P a = true) l.
Proof. intros (_ & _ & _ & _ & _ & _ & H). exact H. Qed.

Lemma frame_log P a : P a = true → pres (frame P) (log a).
Proof.
  intros Ha c. unfold frame; simpl. split_and!; try done.
  exists [a]. split; [done|]. by constructor.
Qed.

(** A change of the table that leaves the bag of the instant alone. *)
Lemma frame_on_table P (f : EventTable → EventTable) :
  (∀ tbl, et_bag (f tbl) = et_bag tbl
          ∧ et_currentTime (f tbl) = et_currentTime tbl) →
  pres (frame P) (on_table f).
Proof.
  intros Hf c. destruct (Hf (m_eventTable c)) as [Hb Ht].
  unfold frame, bags_of, states_of; simpl. rewrite Hb, Ht.
  split_and!; try done.
  exists []. by rewrite app_nil_r.
Qed.

Lemma frame_delModelEvents P s : pres (frame P) (on_table (delModelEvents s)).
Proof.
  intros c. unfold frame, bags_of, states_of; simpl. split_and!; try done.
  - rewrite length_fmap. apply length_filter.
  - intros e He. by apply list_elem_of_filter in He as [_ He].
  - exists []. by rewrite app_nil_r.
Qed.

Lemma frame_on_world P (f : W → W) : pres (frame P) (on_world f).
Proof.
  intros c. unfold frame, bags_of; simpl. split_and!; try done.
  exists []. by rewrite app_nil_r.
Qed.

Lemma frame_set_modelList P (f : Coordinator W → gmap AtomicModel Simulator) :
  pres (frame P) (modify (λ c, set_modelList (f c) c)).
Proof.
  intros c. unfold frame, bags_of; simpl. split_and!; try done.
  exists []. by rewrite app_nil_r.
Qed.

Lemma frame_set_viewList P (f : Coordinator W → gmap string View) :
  pres (frame P) (modify (λ c, set_viewList (f c) c)).
Proof.
  intros c. unfold frame, bags_of; simpl. split_and!; try done.
  exists []. by rewrite app_nil_r.
Qed.

Lemma frame_push_deleted P s :
  pres (frame P)
    (modify (λ c, set_deletedSimulator (m_deletedSimulator c ++ [s]) c)).
Proof.
  intros c. unfold frame, bags_of; simpl. split_and!; try done.
  - by apply prefix_app_r.
  - exists []. by rewrite app_nil_r.
Qed.

Lemma Model_induction (Φ : Model → Prop) :
  (∀ a, Φ (Atomic a)) →
  (∀ cm lst, Forall Φ lst → Φ (Coupled cm lst)) →
  ∀ mdl, Φ mdl.
Proof.
  intros Ha Hc. fix IH 1. intros [a|cm lst].
  - apply Ha.
  - apply Hc. induction lst as [|it lst IHlst]; constructor.
    + apply IH.
    + apply IHlst.
Qed.

(** Goals [pres R m] are taken apart along the structure of [m]. *)
Ltac pres_go :=
  repeat (intros;
    lazymatch goal with
    | |- Devs.pres _ (bind _ _) => apply pres_bind; [try apply _ | |]
    | |- Devs.pres _ (ret _) => apply pres_ret; apply _
    | |- Devs.pres _ (throw _) => apply pres_throw; apply _
    | |- Devs.pres _ next_child => apply pres_throw; apply _
    | |- Devs.pres _ (gets _) => apply pres_gets; apply _
    | |- Devs.pres _ (foreach _ _) =>
        apply pres_foreach; [try apply _ | try apply _ | intros ? _]
    | |- Devs.pres _ (match ?x with _ => _ end) => destruct x
    | _ => fail
    end); intros.

Ltac frame_leaf :=
  lazymatch goal with
  | |- Devs.pres _ (log _) => try (apply frame_log; reflexivity)
  | |- Devs.pres _ (on_world _) => apply frame_on_world
  | |- Devs.pres _ (modify (λ c, set_modelList _ c)) =>
      apply frame_set_modelList
  | |- Devs.pres _ (modify (λ c, set_viewList _ c)) =>
      apply frame_set_viewList
  | |- Devs.pres _ (on_table (delModelEvents _)) => apply frame_delModelEvents
  | |- Devs.pres _ (on_table _) => apply frame_on_table; intros; by simpl
  | _ => idtac
  end.

Ltac frame_lift lem :=
  eapply pres_frame_mono; [| apply lem];
  let a := fresh "a" in intros a; destruct a; simpl; intros; done.

Lemma frame_put_internal P e :
  P (PutInternal e) = true → pres (frame P) (put_internal e).
Proof.
  intros HP. unfold put_internal. pres_go; frame_leaf. by apply frame_log.
Qed.

Lemma frame_put_external P e :
  P (PutExternal e) = true → pres (frame P) (put_external e).
Proof.
  intros HP. unfold put_external. pres_go; frame_leaf. by apply frame_log.
Qed.

Lemma frame_put_request P e :
  P (PutRequest e) = true → pres (frame P) (put_request e).
Proof.
  intros HP. unfold put_request. pres_go; frame_leaf. by apply frame_log.
Qed.

Lemma frame_put_observation P e :
  P (PutObservation e) = true → pres (frame P) (put_observation e).
Proof.
  intros HP. unfold put_observation. pres_go; frame_leaf. by apply frame_log.
Qed.

Lemma frame_addObservableToView model portname view :
  pres (frame exec_act) (addObservableToView model portname view).
Proof.
  unfold addObservableToView. pres_go; frame_leaf.
  by apply frame_put_observation.
Qed.

Lemma frame_delAtomicModel parent atom :
  pres (frame exec_act) (delAtomicModel E parent atom).
Proof.
  unfold delAtomicModel. pres_go; frame_leaf. apply frame_push_deleted.
Qed.

Lemma frame_delCoupledModel mdl :
  ∀ parent, pres (frame exec_act) (delCoupledModel E parent mdl).
Proof.
  induction mdl as [a|cm lst IH] using Model_induction; intros parent; simpl.
  - pres_go.
  - apply pres_bind; [apply _ | | intros _; pres_go; frame_leaf].
    induction IH as [|it lst Hit _ IHlst]; pres_go; try done.
    apply frame_delAtomicModel.
Qed.

Lemma frame_delModel parent modelname :
  pres (frame exec_act) (delModel E parent modelname).
Proof.
  unfold delModel. pres_go.
  - apply frame_delAtomicModel.
  - apply frame_delCoupledModel.
Qed.

Lemma frame_exec cmd : pres (frame exec_act) (exec E cmd).
Proof.
  destruct cmd; simpl.
  - apply frame_delModel.
  - apply frame_addObservableToView.
Qed.

Lemma frame_execs P cmds :
  (∀ a, exec_act a = true → P a = true) →
  pres (frame P) (foreach cmds (exec E)).
Proof.
  intros HP. pres_go. eapply pres_frame_mono; [exact HP | apply frame_exec].
Qed.

Lemma frame_call_output P sim t :
  P (CallOutput sim t) = true → (∀ a, exec_act a = true → P a = true) →
  pres (frame P) (call_output E sim t).
Proof.
  intros H1 H2. unfold call_output. pres_go; frame_leaf.
  - by apply frame_log.
  - eapply pres_frame_mono; [exact H2 | apply frame_exec].
Qed.

Lemma frame_call_internalTransition P sim ev :
  P (CallInternal sim ev) = true → (∀ a, exec_act a = true → P a = true) →
  pres (frame P) (call_internalTransition E sim ev).
Proof.
  intros H1 H2. unfold call_internalTransition. pres_go; frame_leaf.
  - by apply frame_log.
  - eapply pres_frame_mono; [exact H2 | apply frame_exec].
Qed.

Lemma frame_call_externalTransition P sim lst t :
  P (CallExternal sim lst t) = true →
  (∀ a, exec_act a = true → P a = true) →
  pres (frame P) (call_externalTransition E sim lst t).
Proof.
  intros H1 H2. unfold call_externalTransition. pres_go; frame_leaf.
  - by apply frame_log.
  - eapply pres_frame_mono; [exact H2 | apply frame_exec].
Qed.

Lemma frame_call_request P sim ev t :
  P (CallRequest sim ev t) = true → (∀ a, exec_act a = true → P a = true) →
  pres (frame P) (call_request E sim ev t).
Proof.
  intros H1 H2. unfold call_request. pres_go; frame_leaf.
  - by apply frame_log.
  - eapply pres_frame_mono; [exact H2 | apply frame_exec].
Qed.

Lemma frame_call_observation sim ev :
  pres (frame view_act) (call_observation E sim ev).
Proof. unfold call_observation. pres_go; frame_leaf. Qed.

Lemma frame_dispatch_target it jt :
  pres (frame dispatch_act) (dispatch_target it jt).
Proof.
  unfold dispatch_target. pres_go.
  - by apply frame_put_request.
  - by apply frame_put_external.
Qed.

Lemma frame_dispatchExternalEvent eventList sim :
  pres (frame dispatch_act) (dispatchExternalEvent E eventList sim).
Proof.
  unfold dispatchExternalEvent. pres_go; frame_leaf.
  apply frame_dispatch_target.
Qed.

Lemma frame_processEventView model event :
  pres (frame view_act) (processEventView E model event).
Proof.
  unfold processEventView. pres_go; frame_leaf.
  apply frame_call_observation.
Qed.

Lemma frame_processInternalEvent sim modelbag :
  pres (frame internal_path_act) (processInternalEvent E sim modelbag).
Proof.
  unfold processInternalEvent. pres_go; frame_leaf.
  - apply frame_call_output; [done|]. by intros [].
  - frame_lift frame_dispatchExternalEvent.
  - apply frame_call_internalTransition; [done|]. by intros [].
  - by apply frame_put_internal.
  - frame_lift frame_processEventView.
Qed.

Lemma frame_processExternalEvents sim modelbag :
  pres (frame external_path_act) (processExternalEvents E sim modelbag).
Proof.
  unfold processExternalEvents. pres_go; frame_leaf.
  - apply frame_call_externalTransition; [done|]. by intros [].
  - by apply frame_put_internal.
  - frame_lift frame_processEventView.
Qed.

Lemma frame_processRequestEvents sim modelbag :
  pres (frame request_path_act) (processRequestEvents E sim modelbag).
Proof.
  unfold processRequestEvents. pres_go; frame_leaf.
  - apply frame_call_request; [done|]. by intros [].
  - frame_lift frame_dispatchExternalEvent.
Qed.

Lemma frame_drain_step sim bag :
  pres (frame bag_act) (drain_step E sim bag).
Proof.
  unfold drain_step.
  destruct (negb (emptyInternal bag)), (negb (emptyExternal bag));
    pres_go; frame_leaf.
  all: first [ frame_lift frame_processInternalEvent
             | frame_lift frame_processExternalEvents
             | frame_lift frame_processRequestEvents ].
Qed.

Lemma frame_drain turns : ∀ sim bag,
  pres (frame bag_act) (drain E turns sim bag).
Proof.
  induction turns as [|n IH]; intros sim bag; simpl; pres_go.
  - apply frame_drain_step.
  - apply IH.
Qed.

Lemma frame_run_bag bag : pres (frame bag_act) (run_bag E bag).
Proof. unfold run_bag. pres_go. apply frame_drain. Qed.

Lemma frame_topBag P : pres (frame P) topBag.
Proof.
  intros c. unfold topBag, bind, gets; simpl.
  destruct (cb_bags (et_bag (m_eventTable c))) as [|bag rest] eqn:Hbags;
    simpl; [reflexivity|].
  unfold frame, bags_of, states_of; simpl. rewrite Hbags; simpl.
  split_and!; try done; [lia|].
  exists []. by rewrite app_nil_r.
Qed.

Lemma frame_run_bags turns : pres (frame bag_act) (run_bags E turns).
Proof.
  induction turns as [|n IH]; simpl; pres_go.
  - apply frame_topBag.
  - apply frame_run_bag.
  - apply IH.
Qed.

Lemma frame_popState P : pres (frame P) popState.
Proof.
  intros c. unfold frame, bags_of, states_of; simpl. split_and!; try done.
  - destruct (cb_states (et_bag (m_eventTable c))); set_solver.
  - exists []. by rewrite app_nil_r.
Qed.

Lemma frame_processObservationEvent top :
  pres (frame observation_act) (processObservationEvent E top).
Proof.
  unfold processObservationEvent. pres_go; frame_leaf.
  - frame_lift frame_call_observation.
  - by apply frame_put_observation.
  - apply frame_popState.
Qed.

Lemma frame_processObservationEvents :
  pres (frame observation_act) (processObservationEvents E).
Proof.
  unfold processObservationEvents. pres_go.
  apply frame_processObservationEvent.
Qed.

(** *** Laws of the sequence *)

Lemma bind_gets {A B} (f : Coordinator W → A) (k : A → M W B) c :
  bind (gets f) k c = k (f c) c.
Proof. reflexivity. Qed.

Lemma bind_ret {A B} (a : A) (k : A → M W B) c : bind (ret a) k c = k a c.
Proof. reflexivity. Qed.

Lemma bind_modify {B} (f : Coordinator W → Coordinator W)
    (k : unit → M W B) c :
  bind (modify f) k c = k tt (f c).
Proof. reflexivity. Qed.

Lemma bind_assoc {A B C} (m : M W A) (f : A → M W B) (g : B → M W C) c :
  bind (bind m f) g c = bind m (λ x, bind (f x) g) c.
Proof. unfold bind. by destruct (m c) as [c1 [a|e]]. Qed.

Lemma returns_ret {A} (Q : A → Prop) (a : A) : Q a → returns Q (ret a).
Proof. intros HQ c c' a' [= _ <-]. exact HQ. Qed.

Lemma returns_throw {A} (Q : A → Prop) e : returns Q (throw (W := W) e).
Proof. intros c c' a'. discriminate. Qed.

Lemma returns_bind {A B} (Q : B → Prop) (m : M W A) (f : A → M W B) :
  (∀ a, returns Q (f a)) → returns Q (bind m f).
Proof.
  intros Hf c c' b Hb. apply bind_Ok in Hb as (c1 & a & _ & Hb).
  by eapply Hf.
Qed.

Ltac returns_go :=
  repeat (intros;
    lazymatch goal with
    | |- returns _ (bind _ _) => apply returns_bind
    | |- returns _ (ret _) => apply returns_ret
    | |- returns _ (throw _) => apply returns_throw
    | |- returns _ (match ?x with _ => _ end) => destruct x
    | _ => fail
    end); intros.

(** The frame of the continuations, whatever they do to the outside. *)
Ltac frame_any :=
  first
    [ frame_lift frame_exec
    | frame_lift frame_dispatchExternalEvent
    | frame_lift frame_processEventView
    | frame_lift frame_call_observation
    | frame_lift frame_processInternalEvent
    | frame_lift frame_processExternalEvents
    | frame_lift frame_processRequestEvents
    | frame_lift frame_processObservationEvents
    | frame_lift frame_run_bags
    | apply frame_put_internal; reflexivity
    | apply frame_put_observation; reflexivity
    | apply frame_call_output; [reflexivity | intros; reflexivity]
    | apply frame_call_internalTransition; [reflexivity | intros; reflexivity]
    | apply frame_call_externalTransition; [reflexivity | intros; reflexivity]
    | apply frame_call_request; [reflexivity | intros; reflexivity]
    | apply frame_popState ].

Lemma did_log_first {A} a (k : unit → M W A) c :
  (∀ u, pres (frame anything) (k u)) →
  ∃ l, did c (fst (bind (log a) k c)) (a :: l).
Proof.
  intros Hk. unfold log. rewrite bind_modify.
  destruct (frame_did _ _ _ (Hk tt (set_trace (trace c ++ [a]) c)))
    as (l & Hl & _).
  exists l. unfold did in *. rewrite Hl; simpl. by rewrite <- app_assoc.
Qed.

(** *** The three paths start with the call that marks them *)

Lemma processInternalEvent_calls_output sim bag ev c :
  internal bag = Some ev →
  ∃ l, did c (fst (processInternalEvent E sim bag c))
         (CallOutput sim (m_currentTime c) :: l).
Proof.
  intros Hev. unfold processInternalEvent. rewrite Hev, bind_gets.
  unfold call_output. rewrite bind_assoc.
  apply did_log_first. pres_go; frame_leaf; frame_any.
Qed.

Lemma processExternalEvents_calls_external sim bag c :
  ∃ l, did c (fst (processExternalEvents E sim bag c))
         (CallExternal sim (externals bag) (m_currentTime c) :: l).
Proof.
  unfold processExternalEvents. rewrite bind_gets.
  unfold call_externalTransition. rewrite bind_assoc.
  apply did_log_first. pres_go; frame_leaf; frame_any.
Qed.

Lemma processRequestEvents_calls_request sim bag ev lst c :
  Request bag = ev :: lst →
  ∃ l, did c (fst (processRequestEvents E sim bag c))
         (CallRequest sim ev (m_currentTime c) :: l).
Proof.
  intros Hreq. unfold processRequestEvents. rewrite Hreq. simpl foreach.
  rewrite !bind_assoc, bind_gets.
  unfold call_request. rewrite !bind_assoc.
  apply did_log_first. pres_go; frame_leaf; frame_any.
Qed.

Lemma did_refl c : did c c [].
Proof. unfold did. by rewrite app_nil_r. Qed.

Lemma did_trans c1 c2 c3 l1 l2 :
  did c1 c2 l1 → did c2 c3 l2 → did c1 c3 (l1 ++ l2).
Proof. unfold did. intros H1 H2. by rewrite H2, H1, app_assoc. Qed.

Lemma did_inj c c' l1 l2 : did c c' l1 → did c c' l2 → l1 = l2.
Proof. unfold did. intros H1 H2. rewrite H1 in H2. by apply app_inv_head in H2. Qed.

Lemma path_did P {A} (m : M W A) a c :
  pres (frame P) m →
  (∃ l, did c (fst (m c)) (a :: l)) →
  ∃ l, did c (fst (m c)) (a :: l) ∧ Forall (λ a, P a = true) l.
Proof.
  intros Hm (l & Hl).
  destruct (frame_did _ _ _ (Hm c)) as (l0 & Hl0 & HP).
  rewrite (did_inj _ _ _ _ Hl0 Hl) in HP.
  apply Forall_cons in HP as [_ HP]. eauto.
Qed.

Lemma internal_path_marks sim l :
  Forall (λ a, internal_path_act a = true) l →
  ¬ external_path_ran sim l ∧ ¬ request_path_ran sim l
  ∧ ¬ confluent_called sim l.
Proof.
  intros Hl. rewrite Forall_forall in Hl. split_and!.
  - intros (lst & t & Hin). by apply Hl in Hin.
  - intros (ev & t & Hin). by apply Hl in Hin.
  - intros Hin. by apply Hl in Hin.
Qed.

Lemma external_path_marks sim l :
  Forall (λ a, external_path_act a = true) l →
  ¬ internal_path_ran sim l ∧ ¬ request_path_ran sim l
  ∧ ¬ confluent_called sim l.
Proof.
  intros Hl. rewrite Forall_forall in Hl. split_and!.
  - intros (t & Hin). by apply Hl in Hin.
  - intros (ev & t & Hin). by apply Hl in Hin.
  - intros Hin. by apply Hl in Hin.
Qed.

Lemma request_path_marks sim l :
  Forall (λ a, request_path_act a = true) l →
  ¬ internal_path_ran sim l ∧ ¬ external_path_ran sim l
  ∧ ¬ confluent_called sim l.
Proof.
  intros Hl. rewrite Forall_forall in Hl. split_and!.
  - intros (t & Hin). by apply Hl in Hin.
  - intros (lst & t & Hin). by apply Hl in Hin.
  - intros Hin. by apply Hl in Hin.
Qed.

(** The path one turn of the loop that drains a bag takes, read off what
    the turn did. *)
Lemma drain_step_paths (sim : Simulator) (bag : EventBagModel)
    (c : Coordinator W) :
  ∃ l, did c (fst (drain_step E sim bag c)) l
    ∧ (∀ ev, internal bag = Some ev → externals bag ≠ [] →
         confluent_called sim l
         ∧ (internal_path_ran sim l ↔
              confluentTransitions E (world c) sim ev (externals bag)
              = INTERNAL)
         ∧ (external_path_ran sim l ↔
              confluentTransitions E (world c) sim ev (externals bag)
              = EXTERNAL)
         ∧ ¬ request_path_ran sim l)
    ∧ (internal bag ≠ None → externals bag = [] →
         internal_path_ran sim l ∧ ¬ external_path_ran sim l
         ∧ ¬ request_path_ran sim l ∧ ¬ confluent_called sim l)
    ∧ (internal bag = None → externals bag ≠ [] →
         external_path_ran sim l ∧ ¬ internal_path_ran sim l
         ∧ ¬ request_path_ran sim l ∧ ¬ confluent_called sim l)
    ∧ (request_path_ran sim l → internal bag = None ∧ externals bag = [])
    ∧ (internal bag = None → externals bag = [] → Request bag ≠ [] →
         request_path_ran sim l)
    ∧ (internal bag = None → externals bag = [] →
         ¬ internal_path_ran sim l ∧ ¬ external_path_ran sim l
         ∧ ¬ confluent_called sim l).
Proof.
  unfold drain_step, emptyInternal, emptyExternal.
  destruct (internal bag) as [ev|] eqn:Hint;
    destruct (externals bag) as [|x lst] eqn:Hext; simpl.
  - (* an internal event only *)
    destruct (path_did _ _ _ c (frame_processInternalEvent sim bag)
                (processInternalEvent_calls_output sim bag ev c Hint))
      as (l & Hl & HP).
    assert (HP' : Forall (λ a, internal_path_act a = true)
                    (CallOutput sim (m_currentTime c) :: l))
      by by constructor.
    destruct (internal_path_marks sim _ HP') as (N1 & N2 & N3).
    exists (CallOutput sim (m_currentTime c) :: l).
    split_and!; try done.
    intros _ _. split_and!; try done. eexists. left.
  - (* both *)
    unfold log. rewrite bind_modify, bind_gets. simpl.
    set (c1 := set_trace (trace c ++ [CallConfluent sim]) c).
    destruct (confluentTransitions E (world c) sim ev (x :: lst)) eqn:Hconf.
    + destruct (path_did _ _ _ c1 (frame_processInternalEvent sim bag)
                  (processInternalEvent_calls_output sim bag ev c1 Hint))
        as (l & Hl & HP).
      assert (HP' : Forall (λ a, internal_path_act a = true)
                      (CallOutput sim (m_currentTime c1) :: l))
        by by constructor.
      destruct (internal_path_marks sim _ HP') as (N1 & N2 & N3).
      exists (CallConfluent sim :: CallOutput sim (m_currentTime c1) :: l).
      split_and!; try done.
      * unfold did in *. rewrite Hl. simpl. by rewrite <- app_assoc.
      * intros ev' [= <-] _. rewrite Hconf. split_and!.
        -- left.
        -- split; [done|]. intros _. eexists. right. left.
        -- split; [|done]. intros (l' & t & Hin).
           apply elem_of_cons in Hin as [?|Hin]; [done|].
           destruct N1. by exists l', t.
        -- intros (e' & t & Hin).
           apply elem_of_cons in Hin as [?|Hin]; [done|].
           destruct N2. by exists e', t.
      * intros (e' & t & Hin).
        apply elem_of_cons in Hin as [?|Hin]; [done|].
        destruct N2. by exists e', t.
    + destruct (path_did _ _ _ c1 (frame_processExternalEvents sim bag)
                  (processExternalEvents_calls_external sim bag c1))
        as (l & Hl & HP).
      assert (HP' : Forall (λ a, external_path_act a = true)
                (CallExternal sim (externals bag) (m_currentTime c1) :: l))
        by by constructor.
      destruct (external_path_marks sim _ HP') as (N1 & N2 & N3).
      exists (CallConfluent sim
              :: CallExternal sim (externals bag) (m_currentTime c1) :: l).
      split_and!; try done.
      * unfold did in *. rewrite Hl. simpl. by rewrite <- app_assoc.
      * intros ev' [= <-] _. rewrite Hconf. split_and!.
        -- left.
        -- split; [|done]. intros (t & Hin).
           apply elem_of_cons in Hin as [?|Hin]; [done|].
           destruct N1. by exists t.
        -- split; [done|]. intros _. do 2 eexists. right. left.
        -- intros (e' & t & Hin).
           apply elem_of_cons in Hin as [?|Hin]; [done|].
           destruct N2. by exists e', t.
      * intros (e' & t & Hin).
        apply elem_of_cons in Hin as [?|Hin]; [done|].
        destruct N2. by exists e', t.
  - (* neither: the requests *)
    destruct (frame_did _ _ _ (frame_processRequestEvents sim bag c))
      as (l & Hl & HP).
    destruct (request_path_marks sim _ HP) as (N1 & N2 & N3).
    exists l. split_and!; try done.
    intros _ _ Hreq. destruct (Request bag) as [|r rs] eqn:Hr; [done|].
    destruct (processRequestEvents_calls_request sim bag r rs c Hr)
      as (l' & Hl').
    rewrite (did_inj _ _ _ _ Hl Hl'). do 2 eexists. left.
  - (* external events only *)
    destruct (path_did _ _ _ c (frame_processExternalEvents sim bag)
                (processExternalEvents_calls_external sim bag c))
      as (l & Hl & HP).
    assert (HP' : Forall (λ a, external_path_act a = true)
              (CallExternal sim (externals bag) (m_currentTime c) :: l))
      by by constructor.
    destruct (external_path_marks sim _ HP') as (N1 & N2 & N3).
    exists (CallExternal sim (externals bag) (m_currentTime c) :: l).
    split_and!; try done.
    intros _ _. split_and!; try done. do 2 eexists. left.
Qed.

(** *** The loops of [run] end *)

Lemma returns_bind_with {A B} (Q1 : A → Prop) (Q : B → Prop) (m : M W A)
    (f : A → M W B) :
  returns Q1 m → (∀ a, Q1 a → returns Q (f a)) → returns Q (bind m f).
Proof.
  intros Hm Hf c c' b Hb. apply bind_Ok in Hb as (c1 & a & Ha & Hb).
  eapply Hf; [|exact Hb]. by eapply Hm.
Qed.

Lemma processInternalEvent_returns sim bag :
  returns (λ b, b = delInternal bag) (processInternalEvent E sim bag).
Proof. unfold processInternalEvent. returns_go. done. Qed.

Lemma processExternalEvents_returns sim bag :
  returns (λ b, b = delExternals bag) (processExternalEvents E sim bag).
Proof. unfold processExternalEvents. returns_go. done. Qed.

Lemma processRequestEvents_returns sim bag :
  returns (λ b, b = delRequest bag) (processRequestEvents E sim bag).
Proof. unfold processRequestEvents. returns_go. done. Qed.

Lemma returns_weaken {A} (Q Q' : A → Prop) (m : M W A) :
  (∀ a, Q a → Q' a) → returns Q m → returns Q' m.
Proof. intros HQ Hm c c' a Ha. eapply HQ, Hm, Ha. Qed.

(** A turn empties one part of the bag that was not empty. *)
Lemma drain_step_returns sim bag :
  bag_empty bag = false →
  returns (λ b, (bag_parts b < bag_parts bag)%nat) (drain_step E sim bag).
Proof.
  unfold bag_empty, drain_step, bag_parts, emptyInternal, emptyExternal,
    emptyRequest.
  destruct bag as [[ev|] [|x lst] [|r reqs]]; simpl; intros Hne;
    try discriminate; returns_go.
  all: first
    [ eapply returns_weaken; [|apply processInternalEvent_returns];
      intros b ->; simpl; lia
    | eapply returns_weaken; [|apply processExternalEvents_returns];
      intros b ->; simpl; lia
    | eapply returns_weaken; [|apply processRequestEvents_returns];
      intros b ->; simpl; lia ].
Qed.

Lemma bag_parts_0 bag : bag_parts bag = 0%nat → bag_empty bag = true.
Proof.
  unfold bag_parts, bag_empty.
  destruct (emptyInternal bag), (emptyExternal bag), (emptyRequest bag);
    simpl; (done || lia).
Qed.

Lemma bag_parts_le_3 bag : (bag_parts bag ≤ 3)%nat.
Proof.
  unfold bag_parts.
  destruct (emptyInternal bag), (emptyExternal bag), (emptyRequest bag);
    simpl; lia.
Qed.

Lemma drain_returns turns : ∀ sim bag,
  (bag_parts bag ≤ turns)%nat →
  returns (λ b, bag_empty b = true) (drain E turns sim bag).
Proof.
  induction turns as [|n IH]; intros sim bag Hparts; simpl.
  - apply returns_ret, bag_parts_0. lia.
  - destruct (bag_empty bag) eqn:Hempty; [by apply returns_ret|].
    eapply returns_bind_with; [by apply drain_step_returns|].
    intros b Hb. apply IH. simpl in Hb. lia.
Qed.

(** Three turns drain the bag of a simulator: when [drain 3] returns, the
    condition of the inner loop of [run] is false. *)
Lemma drain_empties sim bag c c' b :
  drain E 3 sim bag c = (c', Ok b) → bag_empty b = true.
Proof. apply drain_returns, bag_parts_le_3. Qed.

(** *** What a turn leaves in the bag *)

(** The bag a turn leaves: the part the path processed is gone, the rest
    is as it was. *)
Lemma drain_step_leaves sim bag c c' bag' :
  drain_step E sim bag c = (c', Ok bag') →
  match internal bag, externals bag with
  | Some ev, _ :: _ =>
      match confluentTransitions E (world c) sim ev (externals bag) with
      | INTERNAL => bag' = delInternal bag
      | EXTERNAL => bag' = delExternals bag
      end
  | Some _, [] => bag' = delInternal bag
  | None, _ :: _ => bag' = delExternals bag
  | None, [] => bag' = delRequest bag
  end.
Proof.
  unfold drain_step, emptyInternal, emptyExternal.
  destruct (internal bag) as [ev|] eqn:Hint;
    destruct (externals bag) as [|x lst] eqn:Hext; simpl.
  - apply processInternalEvent_returns.
  - unfold log. rewrite bind_modify, bind_gets. simpl.
    destruct (confluentTransitions E (world c) sim ev (x :: lst)).
    + apply processInternalEvent_returns.
    + apply processExternalEvents_returns.
  - apply processRequestEvents_returns.
  - apply processExternalEvents_returns.
Qed.

Lemma path_ran_app sim l1 l2 :
  (confluent_called sim l1 → confluent_called sim (l1 ++ l2))
  ∧ (internal_path_ran sim l1 ∨ internal_path_ran sim l2 →
       internal_path_ran sim (l1 ++ l2))
  ∧ (external_path_ran sim l1 ∨ external_path_ran sim l2 →
       external_path_ran sim (l1 ++ l2)).
Proof.
  unfold confluent_called, internal_path_ran, external_path_ran.
  split_and!.
  - intros H. apply elem_of_app. by left.
  - intros [[t H]|[t H]]; exists t; apply elem_of_app; [by left | by right].
  - intros [(lst & t & H)|(lst & t & H)]; exists lst, t; apply elem_of_app;
      [by left | by right].
Qed.

(** X15.  The loop of [run] over a bag that holds an internal event and
    external events, when it returns: [confluentTransitions] was asked,
    and both the internal path and the external path ran, the answer
    deciding only which one ran first. *)
Lemma drain_runs_both_paths sim bag c ev b :
  internal bag = Some ev → externals bag ≠ [] →
  snd (drain E 3 sim bag c) = Ok b →
  ∃ l, did c (fst (drain E 3 sim bag c)) l
    ∧ confluent_called sim l
    ∧ internal_path_ran sim l ∧ external_path_ran sim l.
Proof.
  intros Hint Hext.
  change (drain E 3 sim bag)
    with (if bag_empty bag then ret bag
          else bind (drain_step E sim bag) (drain E 2 sim)).
  assert (bag_empty bag = false) as ->.
  { unfold bag_empty, emptyInternal. by rewrite Hint. }
  destruct (drain_step_paths sim bag c) as (l1 & Hl1 & H1 & _).
  destruct (H1 ev Hint Hext) as (Hc & Hi & He & _).
  unfold bind.
  destruct (drain_step E sim bag c) as [c1 [bag1|e]] eqn:Hstep; [|done].
  pose proof (drain_step_leaves _ _ _ _ _ Hstep) as Hleaves.
  rewrite Hint in Hleaves.
  destruct (externals bag) as [|x lst] eqn:Hx; [done|].
  change (drain E 2 sim bag1)
    with (if bag_empty bag1 then ret bag1
          else bind (drain_step E sim bag1) (drain E 1 sim)).
  destruct (drain_step_paths sim bag1 c1)
    as (l2 & Hl2 & _ & H2 & H3 & _).
  cbn [fst] in Hl1.
  destruct (confluentTransitions E (world c) sim ev (x :: lst)) eqn:Hconf;
    subst bag1.
  - assert (bag_empty (delInternal bag) = false) as ->.
    { unfold bag_empty, emptyInternal, emptyExternal; simpl.
      by rewrite Hx. }
    destruct H3 as (Hx2 & _); [done | simpl; by rewrite Hx |].
    unfold bind.
    destruct (drain_step E sim (delInternal bag) c1)
      as [c2 [bag2|e]] eqn:Hstep2; [|done].
    intros _. cbn [fst] in Hl2.
    destruct (frame_did _ _ _ (frame_drain 1 sim bag2 c2))
      as (l3 & Hl3 & _).
    exists (l1 ++ l2 ++ l3). split_and!.
    + eapply did_trans; [exact Hl1|]. by eapply did_trans.
    + by apply path_ran_app.
    + apply path_ran_app. left. by apply Hi.
    + apply path_ran_app. right. apply path_ran_app. by left.
  - assert (bag_empty (delExternals bag) = false) as ->.
    { unfold bag_empty, emptyInternal, emptyExternal; simpl.
      by rewrite Hint. }
    destruct H2 as (Hi2 & _); [simpl; by rewrite Hint | done |].
    unfold bind.
    destruct (drain_step E sim (delExternals bag) c1)
      as [c2 [bag2|e]] eqn:Hstep2; [|done].
    intros _. cbn [fst] in Hl2.
    destruct (frame_did _ _ _ (frame_drain 1 sim bag2 c2))
      as (l3 & Hl3 & _).
    exists (l1 ++ l2 ++ l3). split_and!.
    + eapply did_trans; [exact Hl1|]. by eapply did_trans.
    + by apply path_ran_app.
    + apply path_ran_app. right. apply path_ran_app. by left.
    + apply path_ran_app. left. by apply He.
Qed.

(** One turn of the loop that drains the bag of a simulator.  With an
    internal event and external events pending, [confluentTransitions] is
    called, and the turn takes the internal path exactly when the answer is
    INTERNAL, the external path exactly when it is EXTERNAL; with an
    internal event only it takes the internal path, with external events
    only the external path; requests are processed only by a turn that
    finds neither an internal nor an external event in the bag, and such a
    turn does process them.  A turn that returns takes out of the bag the
    part its path processed and leaves the rest to the turns that
    follow. *)
Lemma drain_step_takes_the_path (sim : Simulator)
    (bag : EventBagModel) (c : Coordinator W) :
  ∃ l, did c (fst (drain_step E sim bag c)) l
    ∧ (∀ ev, internal bag = Some ev → externals bag ≠ [] →
         confluent_called sim l
         ∧ (internal_path_ran sim l ↔
              confluentTransitions E (world c) sim ev (externals bag)
              = INTERNAL)
         ∧ (external_path_ran sim l ↔
              confluentTransitions E (world c) sim ev (externals bag)
              = EXTERNAL)
         ∧ ¬ request_path_ran sim l)
    ∧ (internal bag ≠ None → externals bag = [] →
         internal_path_ran sim l ∧ ¬ external_path_ran sim l
         ∧ ¬ request_path_ran sim l ∧ ¬ confluent_called sim l)
    ∧ (internal bag = None → externals bag ≠ [] →
         external_path_ran sim l ∧ ¬ internal_path_ran sim l
         ∧ ¬ request_path_ran sim l ∧ ¬ confluent_called sim l)
    ∧ (request_path_ran sim l → internal bag = None ∧ externals bag = [])
    ∧ (internal bag = None → externals bag = [] → Request bag ≠ [] →
         request_path_ran sim l)
    ∧ (∀ bag', snd (drain_step E sim bag c) = Ok bag' →
         (internal_path_ran sim l → bag' = delInternal bag)
         ∧ (external_path_ran sim l → bag' = delExternals bag)
         ∧ (request_path_ran sim l → bag' = delRequest bag)).
Proof.
  destruct (drain_step_paths sim bag c)
    as (l & Hl & H1 & H2 & H3 & H4 & H5 & H6).
  exists l. split_and!; try done.
  intros bag' Hb.
  destruct (drain_step E sim bag c) as [c' r] eqn:Hstep.
  simpl in Hb. subst r.
  pose proof (drain_step_leaves _ _ _ _ _ Hstep) as Hleaves.
  destruct (internal bag) as [ev|] eqn:Hint;
    destruct (externals bag) as [|x lst] eqn:Hext.
  - destruct H2 as (_ & Nx & Nr & _); [done | done |].
    split_and!; [done | intros Hx; by destruct Nx
                | intros Hr; by destruct Nr].
  - destruct (H1 ev eq_refl) as (_ & Hi & He & Nr); [done|].
    split_and!.
    + intros Hran. apply Hi in Hran. by rewrite Hran in Hleaves.
    + intros Hran. apply He in Hran. by rewrite Hran in Hleaves.
    + intros Hr. by destruct Nr.
  - destruct H6 as (Ni & Nx & _); [done | done |].
    split_and!; [intros Hi; by destruct Ni
                | intros Hx; by destruct Nx | done].
  - destruct H3 as (_ & Ni & Nr & _); [done | done |].
    split_and!; [intros Hi; by destruct Ni | done
                | intros Hr; by destruct Nr].
Qed.

(** As many turns as there are bags end the outer loop of [run]: when
    [run_bags] returns, no bag of the instant is left. *)
Lemma run_bags_empties turns : ∀ c c',
  (length (bags_of c) ≤ turns)%nat →
  run_bags E turns c = (c', Ok tt) → bags_of c' = [].
Proof.
  induction turns as [|n IH]; intros c c' Hlen; simpl.
  - intros [= <-]. apply nil_length_inv. lia.
  - unfold topBag. rewrite bind_assoc, bind_gets.
    destruct (cb_bags (et_bag (m_eventTable c))) as [|bag rest] eqn:Hbags.
    + rewrite bind_ret. by intros [= <-].
    + rewrite bind_assoc. unfold on_table. rewrite bind_modify, bind_ret.
      intros Hrun. apply bind_Ok in Hrun as (c1 & [] & Hbag & Hrun).
      eapply IH; [|exact Hrun].
      match type of Hbag with run_bag _ _ ?c0 = _ =>
        pose proof (frame_run_bag bag c0) as (_ & _ & _ & _ & Hle & _)
      end.
      rewrite Hbag in Hle. simpl in Hle.
      unfold bags_of in *; simpl in *. rewrite Hbags in Hlen.
      simpl in Hlen. lia.
Qed.

Lemma run_transitions_empties c c' :
  run_transitions E c = (c', Ok tt) → emptyBag (et_bag (m_eventTable c')) = true.
Proof.
  unfold run_transitions, on_table. rewrite bind_modify, bind_gets.
  intros Hrun. apply bind_Ok in Hrun as (c1 & [] & Htime & Hrun).
  apply run_bags_empties in Hrun.
  - unfold emptyBag. unfold bags_of in Hrun. by rewrite Hrun.
  - destruct (negb (cb_empty _)); injection Htime as <-; by simpl.
Qed.

(** *** The pending deletions *)

#[local] Instance spares_refl : Reflexive (spares (W := W)).
Proof.
  intros c. unfold spares. split_and!; try done.
  exists []. split; [|done]. unfold did. by rewrite app_nil_r.
Qed.

Lemma destroyed_app l1 l2 : destroyed (l1 ++ l2) = destroyed l1 ++ destroyed l2.
Proof. unfold destroyed. apply omap_app. Qed.

#[local] Instance spares_trans : Transitive (spares (W := W)).
Proof.
  intros c1 c2 c3 (Hd1 & Hp1 & l1 & Hl1 & HP1) (Hd2 & Hp2 & l2 & Hl2 & HP2).
  unfold spares. split_and!; [congruence | by etrans |].
  exists (l1 ++ l2). split.
  - unfold did in *. by rewrite Hl2, Hl1, app_assoc.
  - by rewrite destroyed_app, HP1, HP2.
Qed.

Lemma destroyed_none l :
  Forall (λ a, destroys a = false) l → destroyed l = [].
Proof.
  induction 1 as [|a l Ha _ IH]; [done|].
  unfold destroyed in *. destruct a; simpl in *; (exact IH || discriminate).
Qed.

Lemma frame_spares P c c' :
  (∀ a, P a = true → destroys a = false) → frame P c c' → spares c c'.
Proof.
  intros HP (_ & _ & Hd & Hp & _ & _ & l & Hl & Hall).
  unfold spares. split_and!; try done.
  exists l. split; [done|]. apply destroyed_none.
  eapply Forall_impl; [exact Hall | done].
Qed.

Lemma pres_frame_spares P {A} (m : M W A) :
  (∀ a, P a = true → destroys a = false) →
  pres (frame P) m → pres spares m.
Proof. intros HP. apply pres_weaken. intros c c'. by apply frame_spares. Qed.

Lemma spares_on_table (f : EventTable → EventTable) : pres spares (on_table f).
Proof.
  intros c. unfold spares; simpl. split_and!; try done.
  exists []. split; [|done]. unfold did. by rewrite app_nil_r.
Qed.

Lemma spares_set_currentTime (f : Coordinator W → Time) :
  pres spares (modify (λ c, set_currentTime (f c) c)).
Proof.
  intros c. unfold spares; simpl. split_and!; try done.
  exists []. split; [|done]. unfold did. by rewrite app_nil_r.
Qed.

Lemma spares_run_transitions : pres spares (run_transitions E).
Proof.
  unfold run_transitions. pres_go.
  - apply spares_on_table.
  - apply spares_set_currentTime.
  - eapply pres_frame_spares; [|apply frame_run_bags]. by intros [].
Qed.

Lemma spares_processObservationEvents :
  pres spares (processObservationEvents E).
Proof.
  eapply pres_frame_spares; [|apply frame_processObservationEvents].
  by intros [].
Qed.

(** With [m_toDelete] at 0, a call of [run] destroys no simulator and
    leaves [m_toDelete] at 0, whatever is on the list of the pending
    deletions and whatever the call adds to it. *)
Lemma run_spares c : m_toDelete c = 0%nat → spares c (fst (run E c)).
Proof.
  intros Hzero. revert c Hzero.
  assert (Hrest : pres spares
            (bind (run_transitions E) (λ _,
               bind (delete_old 0) (λ _,
                 bind (processObservationEvents E) (λ _,
                   on_table (set_bag cb_clear)))))).
  { pres_go.
    - apply spares_run_transitions.
    - unfold delete_old. rewrite bool_decide_eq_false_2 by lia. pres_go.
    - apply spares_processObservationEvents.
    - apply spares_on_table. }
  intros c Hzero. unfold run. rewrite bind_gets, Hzero. apply Hrest.
Qed.

Lemma runs_spares n : ∀ c,
  m_toDelete c = 0%nat → spares c (fst (runs E n c)).
Proof.
  induction n as [|n IH]; intros c Hzero; simpl.
  - reflexivity.
  - pose proof (run_spares c Hzero) as Hrun.
    unfold bind. destruct (run E c) as [c1 [[]|e]]; simpl in *; [|done].
    etrans; [exact Hrun|]. apply IH.
    destruct Hrun as (-> & _). exact Hzero.
Qed.

(** [init] leaves [m_toDelete] at 0 when it returns. *)
Lemma init_toDelete c c' : init E c = (c', Ok tt) → m_toDelete c' = 0%nat.
Proof.
  unfold init. intros H. apply bind_Ok in H as (c1 & [] & _ & H).
  by injection H as <-.
Qed.

Lemma foreach_log {A} (f : A → Act) (l : list A) : ∀ c,
  foreach l (λ x, log (f x)) c = (set_trace (trace c ++ (f <$> l)) c, Ok tt).
Proof.
  induction l as [|x l IH]; intros c; simpl.
  - unfold ret. rewrite app_nil_r. by destruct c.
  - unfold log at 1. rewrite bind_modify, IH. simpl.
    by rewrite <- app_assoc.
Qed.

Lemma destroyed_DeleteSimulator (l : list Simulator) :
  destroyed (DeleteSimulator <$> l) = l.
Proof.
  induction l as [|s l IH]; [done|]. unfold destroyed. simpl. f_equal.
  apply IH.
Qed.

Lemma processObservationEvents_deleted c :
  m_deletedSimulator (fst (processObservationEvents E c))
  = m_deletedSimulator c.
Proof.
  assert (H : pres (λ c c', m_deletedSimulator c' = m_deletedSimulator c)
                (processObservationEvents E)); [|apply H].
  assert (Reflexive (λ c c' : Coordinator W,
                       m_deletedSimulator c' = m_deletedSimulator c))
    by done.
  assert (Transitive (λ c c' : Coordinator W,
                        m_deletedSimulator c' = m_deletedSimulator c))
    by (intros ???; congruence).
  unfold processObservationEvents, processObservationEvent,
    call_observation, put_observation, popState, log, on_table, on_world.
  pres_go; by apply pres_modify.
Qed.

(** The deletion step destroys the first [oldToDelete] simulators of the
    list, takes them off and sets [m_toDelete] to what is left; at 0 it
    does nothing. *)
Lemma delete_old_spec n c :
  ∃ c', delete_old n c = (c', Ok tt)
    ∧ did c c' (DeleteSimulator <$> take n (m_deletedSimulator c))
    ∧ m_deletedSimulator c' = drop n (m_deletedSimulator c)
    ∧ m_toDelete c'
      = (if decide (n = 0%nat) then m_toDelete c
         else length (drop n (m_deletedSimulator c))).
Proof.
  unfold delete_old. destruct n as [|n].
  - rewrite bool_decide_eq_false_2 by lia. exists c. simpl.
    split_and!; try done. unfold did. by rewrite app_nil_r.
  - rewrite bool_decide_eq_true_2 by lia.
    rewrite bind_gets. unfold bind at 1. rewrite foreach_log.
    eexists. split; [reflexivity|]. by simpl.
Qed.

(** What a call of [run] that returns does to the pending deletions: with
    [queued] the simulators the transitions of the instant queued, it
    destroys and takes off the first [m_toDelete] simulators of the list,
    where [m_toDelete] is the value the call found. *)
Lemma run_deletion c c' :
  run E c = (c', Ok tt) →
  ∃ queued l,
    did c c' l
    ∧ destroyed l = take (m_toDelete c) (m_deletedSimulator c ++ queued)
    ∧ m_deletedSimulator c'
      = drop (m_toDelete c) (m_deletedSimulator c ++ queued)
    ∧ m_toDelete c'
      = (if decide (m_toDelete c = 0%nat) then 0%nat
         else length (m_deletedSimulator c')).
Proof.
  unfold run. rewrite bind_gets. intros Hrun.
  apply bind_Ok in Hrun as (c1 & [] & H1 & Hrun).
  apply bind_Ok in Hrun as (c2 & [] & H2 & Hrun).
  apply bind_Ok in Hrun as (c3 & [] & H3 & Hrun).
  injection Hrun as <-.
  pose proof (spares_run_transitions c) as (Hn1 & [queued Hq] & l1 & Hl1 & Hd1).
  rewrite H1 in Hn1, Hq, Hl1; simpl in *.
  destruct (delete_old_spec (m_toDelete c) c1) as (c2' & H2' & Hl2 & Hq2 & Hn2).
  rewrite H2 in H2'. injection H2' as <-.
  pose proof (spares_processObservationEvents c2) as (Hn3 & [more Hq3] & l3 & Hl3 & Hd3).
  rewrite H3 in Hn3, Hq3, Hl3; simpl in *.
  clear more Hq3.
  pose proof (processObservationEvents_deleted c2) as Hq3.
  rewrite H3 in Hq3. simpl in Hq3.
  exists queued, (l1 ++ (DeleteSimulator <$> take (m_toDelete c) (m_deletedSimulator c1)) ++ l3).
  split_and!.
  - unfold did in *. simpl. rewrite Hl3, Hl2, Hl1. by rewrite <- !app_assoc.
  - rewrite !destroyed_app, Hd1, Hd3, destroyed_DeleteSimulator, Hq.
    by rewrite app_nil_r.
  - simpl. by rewrite Hq3, Hq2, Hq.
  - simpl. rewrite Hn3, Hn2, Hn1.
    destruct (decide (m_toDelete c = 0%nat)); [done|].
    by rewrite Hq3, Hq2.
Qed.

(** *** Routing *)

Lemma routes_into_refl c : routes_into c c [] [] [].
Proof.
  unfold routes_into, did. rewrite !app_nil_r. by split_and!.
Qed.

Lemma routes_into_trans c1 c2 c3 e1 r1 a1 e2 r2 a2 :
  routes_into c1 c2 e1 r1 a1 → routes_into c2 c3 e2 r2 a2 →
  routes_into c1 c3 (e1 ++ e2) (r1 ++ r2) (a1 ++ a2).
Proof.
  unfold routes_into, did.
  intros (?&?&?&?&?&?&?&?&?&?&He1&Hr1&Ha1) (?&?&?&?&?&?&?&?&?&?&He2&Hr2&Ha2).
  split_and!; try congruence.
  - by rewrite He2, He1, app_assoc.
  - by rewrite Hr2, Hr1, app_assoc.
  - by rewrite Ha2, Ha1, app_assoc.
Qed.

Lemma dispatch_target_spec it jt c c' :
  dispatch_target it jt c = (c', Ok tt) →
  is_atomic jt.1
  ∧ let e := copyExternal it
               (match jt.1 with
                | Atomic a => m_modelList c !! a
                | Coupled _ _ => None
                end) jt.2 in
    routes_into c c'
      (if isRequest it then [] else [e])
      (if isRequest it then [e] else [])
      [put_act e].
Proof.
  unfold dispatch_target. destruct jt as [[a|cm lst] port]; simpl; [|done].
  rewrite bind_gets. unfold getModel, put_act. simpl.
  destruct (isRequest it) eqn:Hreq.
  - intros [= <-]. split; [done|].
    unfold routes_into, did; simpl. split_and!; try done.
    by rewrite app_nil_r.
  - intros [= <-]. split; [done|].
    unfold routes_into, did; simpl. split_and!; try done.
    by rewrite app_nil_r.
Qed.

Lemma dispatch_targets_spec it out : ∀ c c',
  foreach out (dispatch_target it) c = (c', Ok tt) →
  Forall (λ jt, is_atomic jt.1) out
  ∧ let es := (λ jt : Model * string,
                 copyExternal it
                   (match jt.1 with
                    | Atomic a => m_modelList c !! a
                    | Coupled _ _ => None
                    end) jt.2) <$> out in
    routes_into c c'
      (if isRequest it then [] else es)
      (if isRequest it then es else [])
      (put_act <$> es).
Proof.
  induction out as [|jt out IH]; intros c c'; simpl.
  - intros [= <-]. split; [done|].
    destruct (isRequest it); apply routes_into_refl.
  - intros H. apply bind_Ok in H as (c1 & [] & H1 & H2).
    apply dispatch_target_spec in H1 as (Hat & H1).
    apply IH in H2 as (Hall & H2). split; [by constructor|].
    simpl in *.
    assert (Hm : m_modelList c1 = m_modelList c) by apply H1.
    rewrite Hm in H2.
    pose proof (routes_into_trans _ _ _ _ _ _ _ _ _ H1 H2) as H.
    by destruct (isRequest it).
Qed.

Lemma copyExternal_delivered c sim ev jt :
  copyExternal (setModel ev sim)
    (match jt.1 with
     | Atomic a => m_modelList c !! a
     | Coupled _ _ => None
     end) jt.2
  = delivered c sim ev jt.
Proof. done. Qed.

Lemma destinations_ext c c' sim ev :
  world c' = world c → destinations E c' sim ev = destinations E c sim ev.
Proof. unfold destinations. by intros ->. Qed.

Lemma delivered_ext c c' sim ev :
  m_modelList c' = m_modelList c → delivered c' sim ev = delivered c sim ev.
Proof. unfold delivered. by intros ->. Qed.

Lemma routed_ext c c' sim evs :
  world c' = world c → m_modelList c' = m_modelList c →
  routed E c' sim evs = routed E c sim evs.
Proof.
  intros Hw Hm. unfold routed. induction evs as [|ev evs IH]; [done|].
  simpl. f_equal; [|apply IH].
  by rewrite (destinations_ext c c'), (delivered_ext c c').
Qed.

Lemma routing_acts_ext c c' sim evs :
  world c' = world c → m_modelList c' = m_modelList c →
  routing_acts c' sim evs = routing_acts c sim evs.
Proof.
  intros Hw Hm. unfold routing_acts. induction evs as [|ev evs IH]; [done|].
  simpl. f_equal; [|apply IH].
  by rewrite (destinations_ext c c'), (delivered_ext c c').
Qed.

Lemma dispatchExternalEvent_spec eventList sim : ∀ c c',
  dispatchExternalEvent E eventList sim c = (c', Ok tt) →
  Forall (λ ev, Forall (λ jt, is_atomic jt.1) (destinations E c sim ev))
    eventList
  ∧ routes_into c c'
      (routed E c sim (filter (λ ev, isRequest ev = false) eventList))
      (routed E c sim (filter (λ ev, isRequest ev = true) eventList))
      (routing_acts c sim eventList).
Proof.
  unfold dispatchExternalEvent.
  induction eventList as [|ev evs IH]; intros c c'; simpl.
  - intros [= <-]. split; [done|]. apply routes_into_refl.
  - intros H. apply bind_Ok in H as (c2 & [] & H1 & H2).
    rewrite bind_gets in H1.
    apply bind_Ok in H1 as (c1 & [] & H1 & Hlog).
    injection Hlog as <-.
    apply dispatch_targets_spec in H1 as (Hat & H1). simpl in H1.
    set (c2 := set_trace (trace c1 ++ [DeleteExternal (setModel ev sim)]) c1)
      in *.
    assert (Hlog : routes_into c1 c2 [] [] [DeleteExternal (setModel ev sim)]).
    { unfold routes_into, did; simpl. rewrite !app_nil_r. by split_and!. }
    pose proof (routes_into_trans _ _ _ _ _ _ _ _ _ H1 Hlog) as H12.
    rewrite !app_nil_r in H12.
    apply IH in H2 as (Hall & H2).
    assert (Hw : world c2 = world c) by apply H12.
    assert (Hm : m_modelList c2 = m_modelList c) by apply H12.
    rewrite !(routed_ext c c2), (routing_acts_ext c c2) in H2 by done.
    split.
    + constructor; [exact Hat|].
      eapply Forall_impl; [exact Hall|]. intros ev' Hev'.
      by rewrite <- (destinations_ext c c2).
    + pose proof (routes_into_trans _ _ _ _ _ _ _ _ _ H12 H2) as H.
      rewrite !filter_cons.
      destruct (isRequest ev) eqn:Hreq.
      * rewrite decide_False by done. rewrite decide_True by done. exact H.
      * rewrite decide_True by done. rewrite decide_False by done. exact H.
Qed.

Lemma deleted_externals_app l1 l2 :
  deleted_externals (l1 ++ l2) = deleted_externals l1 ++ deleted_externals l2.
Proof. unfold deleted_externals. apply omap_app. Qed.

Lemma deleted_externals_put es : deleted_externals (put_act <$> es) = [].
Proof.
  induction es as [|e es IH]; [done|].
  unfold deleted_externals, put_act in *. simpl.
  destruct (isRequest e); simpl; exact IH.
Qed.

Lemma deleted_externals_routing c sim evs :
  deleted_externals (routing_acts c sim evs)
  = (λ ev, setModel ev sim) <$> evs.
Proof.
  unfold routing_acts. induction evs as [|ev evs IH]; [done|].
  simpl. rewrite !deleted_externals_app, deleted_externals_put. simpl.
  f_equal. exact IH.
Qed.

Lemma routed_time c sim evs t :
  Forall (λ ev, ee_time ev = t) evs →
  Forall (λ e, ee_time e = t) (routed E c sim evs).
Proof.
  intros Hevs. rewrite Forall_forall in *. intros e He.
  unfold routed in He. apply list_elem_of_bind in He as (ev & He & Hev).
  apply list_elem_of_fmap in He as (dst & -> & _). simpl. by apply Hevs.
Qed.

Lemma routed_filter c sim evs (P : ExternalEvent → Prop)
    `{!∀ ev, Decision (P ev)} ev dst :
  ev ∈ evs → P ev → dst ∈ destinations E c sim ev →
  delivered c sim ev dst ∈ routed E c sim (filter P evs).
Proof.
  intros Hev HP Hdst. unfold routed. apply list_elem_of_bind.
  exists ev. split.
  - apply list_elem_of_fmap. by exists dst.
  - by apply list_elem_of_filter.
Qed.

(** C5.  [dispatchExternalEvent] on the events [evs] a simulator emitted at
    time [t], when it returns: the table gains exactly one fresh event per
    event and structural destination, among the request events if the
    event is a request and among the external events otherwise; each is
    bound to the simulator and the port of its destination and is at time
    [t]; and every original event is destroyed. *)
Theorem dispatch_delivers_to_every_destination (evs : list ExternalEvent)
    (sim : Simulator) (t : Time) (c c' : Coordinator W) :
  Forall (λ ev, ee_time ev = t) evs →
  dispatchExternalEvent E evs sim c = (c', Ok tt) →
  et_external (m_eventTable c')
  = et_external (m_eventTable c)
    ++ routed E c sim (filter (λ ev, isRequest ev = false) evs)
  ∧ et_request (m_eventTable c')
    = et_request (m_eventTable c)
      ++ routed E c sim (filter (λ ev, isRequest ev = true) evs)
  ∧ et_internal (m_eventTable c') = et_internal (m_eventTable c)
  ∧ et_observation (m_eventTable c') = et_observation (m_eventTable c)
  ∧ Forall (λ e, ee_time e = t) (routed E c sim evs)
  ∧ (∀ ev a port,
       ev ∈ evs → (Atomic a, port) ∈ destinations E c sim ev →
       let e := mkExternal t (Some sim) (m_modelList c !! a) port
                  (isRequest ev) (ee_attributes ev) in
       if isRequest ev then e ∈ et_request (m_eventTable c')
       else e ∈ et_external (m_eventTable c'))
  ∧ ∃ l, did c c' l
      ∧ deleted_externals l = (λ ev, setModel ev sim) <$> evs.
Proof.
  intros Ht Hrun.
  apply dispatchExternalEvent_spec in Hrun as (Hat & Hr).
  destruct Hr as (_&_&_&_&_&_&Hint&Hobs&_&_&Hext&Hreq&Hdid).
  split_and!; try done.
  - by apply routed_time.
  - intros ev a port Hev Hdst e.
    assert (He : e = delivered c sim ev (Atomic a, port)).
    { unfold e, delivered. simpl. f_equal.
      rewrite Forall_forall in Ht. symmetry. by apply Ht. }
    destruct (isRequest ev) eqn:Hisreq.
    + rewrite Hreq, He. apply elem_of_app. right.
      by apply routed_filter.
    + rewrite Hext, He. apply elem_of_app. right.
      by apply routed_filter.
  - exists (routing_acts c sim evs). split; [done|].
    apply deleted_externals_routing.
Qed.

(** *** The internal path *)

Lemma call_output_spec sim t c c' result :
  call_output E sim t c = (c', Ok result) →
  result = (output E (world c) sim t).1.2
  ∧ ∃ X, did c c' (CallOutput sim t :: X)
      ∧ Forall (λ a, exec_act a = true) X.
Proof.
  unfold call_output, log, on_world.
  rewrite bind_modify, bind_gets, bind_modify. simpl.
  intros H. apply bind_Ok in H as (c2 & [] & Hexec & [= <- <-]).
  split; [done|].
  match type of Hexec with foreach ?cmds _ ?c0 = _ =>
    destruct (frame_did _ _ _ (frame_execs exec_act cmds (λ _ H, H) c0))
      as (X & HX & Hall)
  end.
  rewrite Hexec in HX. exists X. split; [|done].
  unfold did in *. simpl in *. by rewrite HX, <- app_assoc.
Qed.

Lemma call_internalTransition_spec sim ev c c' next :
  call_internalTransition E sim ev c = (c', Ok next) →
  next = (internalTransition E (world c) sim ev).1.2
  ∧ ∃ X, did c c' (CallInternal sim ev :: X)
      ∧ Forall (λ a, exec_act a = true) X.
Proof.
  unfold call_internalTransition, log, on_world.
  rewrite bind_modify, bind_gets, bind_modify. simpl.
  intros H. apply bind_Ok in H as (c2 & [] & Hexec & [= <- <-]).
  split; [done|].
  match type of Hexec with foreach ?cmds _ ?c0 = _ =>
    destruct (frame_did _ _ _ (frame_execs exec_act cmds (λ _ H, H) c0))
      as (X & HX & Hall)
  end.
  rewrite Hexec in HX. exists X. split; [|done].
  unfold did in *. simpl in *. by rewrite HX, <- app_assoc.
Qed.

Lemma notifies_refl model c : notifies model [] c c.
Proof.
  unfold notifies. split_and!; try done. exists []. split_and!; try done.
  apply did_refl.
Qed.

Lemma observed_app l1 l2 : observed (l1 ++ l2) = observed l1 ++ observed l2.
Proof. unfold observed. apply omap_app. Qed.

Lemma notifies_trans model l1 l2 c1 c2 c3 :
  notifies model l1 c1 c2 → notifies model l2 c2 c3 →
  notifies model (l1 ++ l2) c1 c3.
Proof.
  intros (?&?&?& V1 & Hd1 & Hv1 & Ho1) (?&?&?& V2 & Hd2 & Hv2 & Ho2).
  unfold notifies. split_and!; try congruence.
  exists (V1 ++ V2). split_and!.
  - by eapply did_trans.
  - by apply Forall_app.
  - by rewrite observed_app, Ho1, Ho2.
Qed.

(** The event views are visited in the ascending order of their names,
    each once. *)
#[local] Instance by_name_trans : Transitive by_name.
Proof. intros x y z. unfold by_name. apply transitivity. Qed.

#[local] Instance by_name_total : Total by_name.
Proof. intros x y. unfold by_name. apply total, _. Qed.

Lemma eventViewList_sorted c : StronglySorted by_name (eventViewList c).
Proof. unfold eventViewList. apply StronglySorted_merge_sort; apply _. Qed.

Lemma eventViewList_elem_of c name view :
  (name, view) ∈ eventViewList c
  ↔ m_viewList c !! name = Some view ∧ isEvent view = true.
Proof.
  unfold eventViewList. rewrite merge_sort_Permutation.
  rewrite list_elem_of_filter, elem_of_map_to_list. simpl. tauto.
Qed.

Lemma eventViewList_NoDup c : NoDup (fst <$> eventViewList c).
Proof.
  unfold eventViewList. rewrite merge_sort_Permutation.
  eapply NoDup_fmap_fst; [|apply NoDup_filter, NoDup_map_to_list].
  intros k v1 v2 H1 H2.
  apply list_elem_of_filter in H1 as [_ H1], H2 as [_ H2].
  apply elem_of_map_to_list in H1, H2. congruence.
Qed.

Lemma processEventView_unfold model event :
  processEventView E model event
  = bind (gets eventViewList) (λ views,
      foreach views (λ it,
        foreach (view_get it.2 model) (notify_body model event it))).
Proof. reflexivity. Qed.

Lemma notify_body_spec model event it jt c :
  ∃ c', notify_body model event it jt c = (c', Ok tt)
    ∧ notifies model [notification (m_currentTime c) model event it jt] c c'.
Proof.
  unfold notify_body, call_observation, log, on_world, bind, gets, modify,
    ret.
  simpl. eexists. split; [reflexivity|].
  unfold notifies; simpl. split_and!; try done.
  eexists. split_and!.
  - unfold did; simpl. rewrite <- !app_assoc. reflexivity.
  - by repeat constructor.
  - unfold notification. by destruct event.
Qed.

Lemma notify_ports_spec model event it ports : ∀ c,
  ∃ c', foreach ports (notify_body model event it) c = (c', Ok tt)
    ∧ notifies model
        (notification (m_currentTime c) model event it <$> ports) c c'.
Proof.
  induction ports as [|jt ports IH]; intros c; simpl.
  - exists c. split; [done|]. apply notifies_refl.
  - destruct (notify_body_spec model event it jt c) as (c2 & H2 & Hn2).
    unfold bind at 1. rewrite H2.
    destruct (IH c2) as (c3 & H3 & Hn3).
    exists c3. split; [exact H3|].
    assert (Ht : m_currentTime c2 = m_currentTime c) by apply Hn2.
    rewrite Ht in Hn3.
    by apply (notifies_trans model [_] _ c c2 c3).
Qed.

Lemma notify_views_spec model event views : ∀ c,
  ∃ c', foreach views (λ it,
          foreach (view_get it.2 model) (notify_body model event it)) c
        = (c', Ok tt)
    ∧ notifies model
        (views ≫= λ it,
           notification (m_currentTime c) model event it
           <$> view_get it.2 model) c c'.
Proof.
  induction views as [|it views IH]; intros c; simpl.
  - exists c. split; [done|]. apply notifies_refl.
  - destruct (notify_ports_spec model event it (view_get it.2 model) c)
      as (c2 & H2 & Hn2).
    unfold bind at 1. rewrite H2.
    destruct (IH c2) as (c3 & H3 & Hn3).
    exists c3. split; [exact H3|].
    assert (Ht : m_currentTime c2 = m_currentTime c) by apply Hn2.
    rewrite Ht in Hn3.
    by eapply notifies_trans.
Qed.

Lemma processEventView_spec model event c :
  ∃ c', processEventView E model event c = (c', Ok tt)
    ∧ notifies model (notifications c model event) c c'.
Proof.
  rewrite processEventView_unfold, bind_gets.
  apply notify_views_spec.
Qed.

Lemma notifications_ext c c' model ev :
  m_viewList c' = m_viewList c →
  notifications c' model (Some ev) = notifications c model (Some ev).
Proof. unfold notifications, eventViewList. by intros ->. Qed.

Lemma putInternalEvent_elem e tbl : e ∈ et_internal (putInternalEvent e tbl).
Proof. unfold putInternalEvent; simpl. apply elem_of_app. right. by left. Qed.

(** What [processInternalEvent] did when it returns; [c0] is the state
    [output] leaves and [c1] the state in which the internal transition
    is called. *)
Lemma processInternalEvent_trace sim bag bag' c c' :
  processInternalEvent E sim bag c = (c', Ok bag') →
  ∃ ev X1 X2 V c0 c1,
    internal bag = Some ev
    ∧ bag' = delInternal bag
    ∧ let result := (output E (world c) sim (m_currentTime c)).1.2 in
      let next := (internalTransition E (world c1) sim ev).1.2 in
      did c c'
        (CallOutput sim (m_currentTime c) :: X1
         ++ routing_acts c0 sim result
         ++ CallInternal sim ev :: X2
         ++ match next with Some e => [PutInternal e] | None => [] end
         ++ V ++ [DeleteInternal ev])
      ∧ did c c0 (CallOutput sim (m_currentTime c) :: X1)
      ∧ Forall (λ a, exec_act a = true) X1
      ∧ routes_into c0 c1
          (routed E c0 sim (filter (λ e, isRequest e = false) result))
          (routed E c0 sim (filter (λ e, isRequest e = true) result))
          (routing_acts c0 sim result)
      ∧ Forall (λ a, exec_act a = true) X2
      ∧ Forall (λ a, view_act a = true) V
      ∧ observed V = notifications c' sim (Some ev)
      ∧ (∀ e, next = Some e → e ∈ et_internal (m_eventTable c'))
      ∧ m_currentTime c' = m_currentTime c.
Proof.
  unfold processInternalEvent. cbv zeta.
  rewrite bind_gets. intros H.
  assert (Hnow : m_currentTime c' = m_currentTime c).
  { pose proof (frame_processInternalEvent sim bag c) as (Ht & _).
    unfold processInternalEvent in Ht. cbv zeta in Ht.
    rewrite bind_gets in Ht. by rewrite H in Ht. }
  apply bind_Ok in H as (cA & result & Hout & H).
  apply bind_Ok in H as (cB & [] & Hdisp & H).
  destruct (internal bag) as [ev|] eqn:Hev; [|discriminate].
  apply bind_Ok in H as (cC & next & Hint & H).
  apply bind_Ok in H as (cD & [] & Hput & H).
  apply bind_Ok in H as (cE & [] & Hview & H).
  apply bind_Ok in H as (cF & [] & Hlog & H).
  injection H as <- <-. injection Hlog as <-.
  apply call_output_spec in Hout as (-> & X1 & HX1 & Hexec1).
  apply dispatchExternalEvent_spec in Hdisp as (_ & Hroutes).
  assert (HD : did cA cB
                 (routing_acts cA sim
                    (output E (world c) sim (m_currentTime c)).1.2))
    by apply Hroutes.
  apply call_internalTransition_spec in Hint as (-> & X2 & HX2 & Hexec2).
  destruct (processEventView_spec sim (Some ev) cD) as (cE' & Hview' & Hn).
  rewrite Hview in Hview'. injection Hview' as <-.
  destruct Hn as (Htbl & Hviews & _ & V & HV & Hview_act & Hobs).
  exists ev, X1, X2, V, cA, cB. split; [done|]. split; [done|].
  assert (Hputs : did cC cD
            match (internalTransition E (world cB) sim ev).1.2 with
            | Some e => [PutInternal e]
            | None => []
            end
          ∧ ∀ e, (internalTransition E (world cB) sim ev).1.2 = Some e →
                 e ∈ et_internal (m_eventTable cD)).
  { destruct ((internalTransition E (world cB) sim ev).1.2) as [e|].
    - injection Hput as <-. split; [done|].
      intros e' [= <-]. simpl. apply putInternalEvent_elem.
    - injection Hput as <-. split; [apply did_refl | done]. }
  destruct Hputs as [Hputs Hin].
  simpl. split_and!; try done.
  - unfold did in *. simpl. rewrite HV, Hputs, HX2, HD, HX1.
    rewrite <- !app_assoc. simpl. rewrite <- ?app_assoc. reflexivity.
  - rewrite Hobs. symmetry. by apply notifications_ext.
  - intros e He. rewrite Htbl. by apply Hin.
Qed.


(** *** The external path *)

Lemma call_externalTransition_spec sim lst t c c' next :
  call_externalTransition E sim lst t c = (c', Ok next) →
  next = (externalTransition E (world c) sim lst t).1.2
  ∧ ∃ X, did c c' (CallExternal sim lst t :: X)
      ∧ Forall (λ a, exec_act a = true) X.
Proof.
  unfold call_externalTransition, log, on_world.
  rewrite bind_modify, bind_gets, bind_modify. simpl.
  intros H. apply bind_Ok in H as (c2 & [] & Hexec & [= <- <-]).
  split; [done|].
  match type of Hexec with foreach ?cmds _ ?c0 = _ =>
    destruct (frame_did _ _ _ (frame_execs exec_act cmds (λ _ H, H) c0))
      as (X & HX & Hall)
  end.
  rewrite Hexec in HX. exists X. split; [|done].
  unfold did in *. simpl in *. by rewrite HX, <- app_assoc.
Qed.

Lemma notifications_now c model :
  Forall (λ e, oe_time e = m_currentTime c ∧ oe_model e = model)
    (notifications c model None).
Proof.
  unfold notifications. apply Forall_forall. intros e He.
  apply list_elem_of_bind in He as (it & He & _).
  by apply list_elem_of_fmap in He as (port & -> & _).
Qed.

(** What [processExternalEvents] did when it returns. *)
Lemma processExternalEvents_trace (sim : Simulator)
    (bag bag' : EventBagModel) (c c' : Coordinator W) :
  processExternalEvents E sim bag c = (c', Ok bag') →
  ∃ X V,
    bag' = delExternals bag
    ∧ let next := (externalTransition E (world c) sim (externals bag)
                     (m_currentTime c)).1.2 in
      did c c'
        (CallExternal sim (externals bag) (m_currentTime c) :: X
         ++ match next with Some e => [PutInternal e] | None => [] end
         ++ (DeleteExternal <$> externals bag) ++ V)
      ∧ Forall (λ a, exec_act a = true) X
      ∧ Forall (λ a, view_act a = true) V
      ∧ observed V = notifications c' sim None
      ∧ Forall (λ e, oe_time e = m_currentTime c ∧ oe_model e = sim)
          (observed V)
      ∧ m_currentTime c' = m_currentTime c
      ∧ (∀ e, next = Some e → e ∈ et_internal (m_eventTable c')).
Proof.
  unfold processExternalEvents. cbv zeta. rewrite bind_gets. intros H.
  apply bind_Ok in H as (cA & next & Hext & H).
  apply bind_Ok in H as (cB & [] & Hput & H).
  apply bind_Ok in H as (cC & [] & Hdel & H).
  apply bind_Ok in H as (cD & [] & Hview & H).
  injection H as <- <-.
  assert (HtimeA : m_currentTime cA = m_currentTime c).
  { pose proof (frame_call_externalTransition anything sim
                  (externals bag) (m_currentTime c) eq_refl
                  (λ _ _, eq_refl) c) as (Ht & _).
    by rewrite Hext in Ht. }
  apply call_externalTransition_spec in Hext as (-> & X & HX & Hexec).
  rewrite foreach_log in Hdel. injection Hdel as HcC.
  assert (HC : trace cC = trace cB ++ (DeleteExternal <$> externals bag)
               ∧ m_currentTime cC = m_currentTime cB
               ∧ m_eventTable cC = m_eventTable cB).
  { by rewrite <- HcC. }
  destruct HC as (HtrC & HtimeC & HtblC). clear HcC.
  destruct (processEventView_spec sim None cC) as (cD' & Hview' & Hn).
  rewrite Hview in Hview'. injection Hview' as <-.
  destruct Hn as (Htbl & Hviews & Htime & V & HV & Hview_act & Hobs).
  set (next := (externalTransition E (world c) sim (externals bag)
                  (m_currentTime c)).1.2) in *.
  assert (Hputs : did cA cB
            match next with Some e => [PutInternal e] | None => [] end
          ∧ m_currentTime cB = m_currentTime cA
          ∧ ∀ e, next = Some e → e ∈ et_internal (m_eventTable cB)).
  { destruct next as [e|].
    - injection Hput as <-. split_and!; [done | done |].
      intros e' [= <-]. simpl. apply putInternalEvent_elem.
    - injection Hput as <-. split_and!; [apply did_refl | done | done]. }
  destruct Hputs as (Hputs & HtimeB & Hin).
  assert (Hnow : m_currentTime cD = m_currentTime c).
  { by rewrite Htime, HtimeC, HtimeB, HtimeA. }
  assert (Heq : notifications cC sim None = notifications cD sim None).
  { unfold notifications, eventViewList. by rewrite Hviews, Htime. }
  exists X, V. split; [done|]. cbv zeta. split_and!; try done.
  - unfold did in *. rewrite HV, HtrC, Hputs, HX.
    rewrite <- !app_assoc. simpl. by rewrite <- ?app_assoc.
  - by rewrite Hobs.
  - rewrite Hobs, Heq, <- Hnow. apply notifications_now.
  - intros e He. rewrite Htbl, HtblC. by apply Hin.
Qed.

(** X13.  [processExternalEvents], when it returns: it called the
    external transition with the external events of the bag at the
    current time, put the internal event the transition returned, if any,
    in the table, destroyed the external events of the bag, and only then
    asked the simulator for one observation per event view and observed
    port, the views being visited in the order of their names and each
    observation being at the current time; the bag it leaves has no
    external event. *)
Theorem processExternalEvents_transits_then_notifies (sim : Simulator)
    (bag bag' : EventBagModel) (c c' : Coordinator W) :
  processExternalEvents E sim bag c = (c', Ok bag') →
  ∃ X V,
    bag' = delExternals bag
    ∧ let next := (externalTransition E (world c) sim (externals bag)
                     (m_currentTime c)).1.2 in
      did c c'
        (CallExternal sim (externals bag) (m_currentTime c) :: X
         ++ match next with Some e => [PutInternal e] | None => [] end
         ++ (DeleteExternal <$> externals bag) ++ V)
      ∧ Forall (λ a, exec_act a = true) X
      ∧ Forall (λ a, view_act a = true) V
      ∧ observed V = notifications c' sim None
      ∧ Forall (λ e, oe_time e = m_currentTime c ∧ oe_model e = sim)
          (observed V)
      ∧ m_currentTime c' = m_currentTime c
      ∧ (∀ e, next = Some e → e ∈ et_internal (m_eventTable c')).
Proof.
  intros H.
  destruct (processExternalEvents_trace _ _ _ _ _ H)
    as (X & V & Hbag & Htrace).
  cbv zeta in Htrace.
  destruct Htrace as (Hdid & HX & HV & Hobs & Hnow & Ht & Hnext).
  exists X, V. split; [done|]. cbv zeta. by split_and!.
Qed.

(** *** The request path *)

Lemma call_request_spec sim ev t c c' result :
  call_request E sim ev t c = (c', Ok result) →
  result = (request E (world c) sim ev t).1.2
  ∧ ∃ X, did c c' (CallRequest sim ev t :: X)
      ∧ Forall (λ a, exec_act a = true) X.
Proof.
  unfold call_request, log, on_world.
  rewrite bind_modify, bind_gets, bind_modify. simpl.
  intros H. apply bind_Ok in H as (c2 & [] & Hexec & [= <- <-]).
  split; [done|].
  match type of Hexec with foreach ?cmds _ ?c0 = _ =>
    destruct (frame_did _ _ _ (frame_execs exec_act cmds (λ _ H, H) c0))
      as (X & HX & Hall)
  end.
  rewrite Hexec in HX. exists X. split; [|done].
  unfold did in *. simpl in *. by rewrite HX, <- app_assoc.
Qed.

Lemma requested_app l1 l2 : requested (l1 ++ l2) = requested l1 ++ requested l2.
Proof. unfold requested. apply omap_app. Qed.

Lemma requested_none l :
  Forall (λ a, exec_act a || dispatch_act a = true) l → requested l = [].
Proof.
  induction 1 as [|a l Ha _ IH]; [done|].
  destruct a; try discriminate; exact IH.
Qed.

Lemma request_loop_spec sim lst : ∀ c c',
  foreach lst (λ it,
    bind (gets m_currentTime) (λ now,
      bind (call_request E sim it now) (λ result,
        dispatchExternalEvent E result sim))) c = (c', Ok tt) →
  m_currentTime c' = m_currentTime c
  ∧ ∃ l, did c c' l
      ∧ requested l = (λ ev, (sim, ev, m_currentTime c)) <$> lst
      ∧ Forall (λ a, request_path_act a = true) l.
Proof.
  induction lst as [|it lst IH]; intros c c'; simpl.
  - intros [= <-]. split; [done|]. exists []. split_and!; try done.
    apply did_refl.
  - intros H. apply bind_Ok in H as (c2 & [] & Hbody & Hrest).
    rewrite bind_gets in Hbody.
    apply bind_Ok in Hbody as (c1 & result & Hreq & Hdisp).
    assert (Ht1 : m_currentTime c1 = m_currentTime c).
    { pose proof (frame_call_request anything sim it (m_currentTime c)
                    eq_refl (λ _ _, eq_refl) c) as (Ht & _).
      by rewrite Hreq in Ht. }
    apply call_request_spec in Hreq as (_ & X & HX & HallX).
    pose proof (frame_dispatchExternalEvent result sim c1)
      as (Ht2 & _ & _ & _ & _ & _ & D & HD & HallD).
    rewrite Hdisp in Ht2, HD. simpl in Ht2, HD.
    destruct (IH _ _ Hrest) as (Ht3 & l & Hl & Hreqs & Hall).
    split; [congruence|].
    exists ((CallRequest sim it (m_currentTime c) :: X) ++ D ++ l).
    split_and!.
    + eapply did_trans; [exact HX|]. eapply did_trans; [exact HD|done].
    + rewrite !requested_app, Hreqs, Ht2, Ht1.
      rewrite (requested_none D).
      2:{ eapply Forall_impl; [exact HallD|]. intros a Ha. simpl.
          rewrite Ha. by destruct (exec_act a). }
      change (requested (CallRequest sim it (m_currentTime c) :: X))
        with ((sim, it, m_currentTime c) :: requested X).
      rewrite (requested_none X); [done|].
      eapply Forall_impl; [exact HallX|]. intros a Ha. simpl.
      by rewrite Ha.
    + apply Forall_app. split; [constructor; [done|]|].
      * eapply Forall_impl; [exact HallX|]. intros a Ha.
        destruct a; try done.
      * apply Forall_app. split; [|done].
        eapply Forall_impl; [exact HallD|]. intros a Ha.
        destruct a; try done.
Qed.

Lemma request_loop_asks sim lst : ∀ c c',
  foreach lst (λ it,
    bind (gets m_currentTime) (λ now,
      bind (call_request E sim it now) (λ result,
        dispatchExternalEvent E result sim))) c = (c', Ok tt) →
  ∃ l, asks E sim (m_currentTime c) lst c l c' ∧ did c c' l.
Proof.
  induction lst as [|it lst IH]; intros c c'; simpl.
  - intros [= <-]. exists []. split; [constructor | apply did_refl].
  - intros H. apply bind_Ok in H as (c2 & [] & Hbody & Hrest).
    rewrite bind_gets in Hbody.
    apply bind_Ok in Hbody as (c1 & result & Hreq & Hdisp).
    assert (Ht1 : m_currentTime c1 = m_currentTime c).
    { pose proof (frame_call_request anything sim it (m_currentTime c)
                    eq_refl (λ _ _, eq_refl) c) as (Ht & _).
      by rewrite Hreq in Ht. }
    apply call_request_spec in Hreq as (-> & X & HX & HallX).
    apply dispatchExternalEvent_spec in Hdisp as (_ & Hroutes).
    assert (Ht2 : m_currentTime c2 = m_currentTime c).
    { destruct Hroutes as (_&_&_& Ht &_). congruence. }
    destruct (IH _ _ Hrest) as (l & Hasks & Hl). rewrite Ht2 in Hasks.
    eexists. split.
    + eapply asks_cons; [exact HX | exact HallX | exact Hroutes
                        | exact Hasks].
    + change (CallRequest sim it (m_currentTime c) :: X ++ ?r ++ l)
        with ((CallRequest sim it (m_currentTime c) :: X) ++ r ++ l).
      eapply did_trans; [exact HX|]. eapply did_trans; [|exact Hl].
      apply Hroutes.
Qed.

(** X14.  [processRequestEvents], when it returns: it asked the simulator
    about every request event of the bag, once each and in the order of
    the bag, at the current time, and routed the answers of each request
    before the next one is asked: every answer is put in the table, once
    per structural destination, and destroyed.  It called no other
    transition; it destroyed the request events of the bag at the end,
    and the bag it leaves has no request event. *)
Theorem processRequestEvents_asks_in_order (sim : Simulator)
    (bag bag' : EventBagModel) (c c' : Coordinator W) :
  processRequestEvents E sim bag c = (c', Ok bag') →
  bag' = delRequest bag
  ∧ m_currentTime c' = m_currentTime c
  ∧ ∃ l c1, did c c' (l ++ (DeleteExternal <$> Request bag))
      ∧ asks E sim (m_currentTime c) (Request bag) c l c1
      ∧ m_eventTable c' = m_eventTable c1
      ∧ requested l = (λ ev, (sim, ev, m_currentTime c)) <$> Request bag
      ∧ Forall (λ a, request_path_act a = true) l
      ∧ Forall (λ a, match a with
                     | CallOutput _ _ | CallInternal _ _
                     | CallExternal _ _ _ | CallConfluent _ => False
                     | _ => True
                     end) l.
Proof.
  unfold processRequestEvents. cbv zeta. intros H.
  apply bind_Ok in H as (cA & [] & Hloop & H).
  apply bind_Ok in H as (cB & [] & Hdel & H).
  injection H as <- <-.
  destruct (request_loop_asks _ _ _ _ Hloop) as (l' & Hasks & Hl').
  apply request_loop_spec in Hloop as (Ht & l & Hl & Hreqs & Hall).
  rewrite (did_inj _ _ _ _ Hl' Hl) in Hasks.
  rewrite foreach_log in Hdel. injection Hdel as <-.
  split; [done|]. split; [done|].
  exists l, cA. split_and!; try done.
  - unfold did in *. simpl. by rewrite Hl, app_assoc.
  - eapply Forall_impl; [exact Hall|]. intros a Ha. by destruct a.
Qed.

(** *** The observations of the instant *)

Lemma replies_app l1 l2 : replies (l1 ++ l2) = replies l1 ++ replies l2.
Proof. unfold replies. apply omap_app. Qed.

Lemma observations_put_app l1 l2 :
  observations_put (l1 ++ l2) = observations_put l1 ++ observations_put l2.
Proof. unfold observations_put. apply omap_app. Qed.

Lemma observes_refl c : observes [] c c.
Proof.
  exists []. split_and!; try done; [apply did_refl|].
  simpl. by rewrite app_nil_r.
Qed.

Lemma observes_trans o1 o2 c1 c2 c3 :
  observes o1 c1 c2 → observes o2 c2 c3 → observes (o1 ++ o2) c1 c3.
Proof.
  intros (l1 & Hd1 & Hf1 & Ho1 & He1 & Hp1) (l2 & Hd2 & Hf2 & Ho2 & He2 & Hp2).
  exists (l1 ++ l2). split_and!.
  - by eapply did_trans.
  - by apply Forall_app.
  - by rewrite observed_app, Ho1, Ho2.
  - by rewrite He2, He1, replies_app, app_assoc.
  - by rewrite observations_put_app, replies_app, Hp1, Hp2.
Qed.

Lemma processObservationEvent_spec top c :
  observes [top] c (fst (processObservationEvent E top c)).
Proof.
  unfold processObservationEvent, call_observation, put_observation,
    popState, log, on_world, on_table, getView, bind, gets, modify, ret,
    throw.
  simpl.
  destruct (observation E (world c) (oe_model top) top) as [w [event|]];
    simpl;
    [destruct (m_viewList c !! oe_view event) as [view|]; simpl;
     [destruct (view_processObservationEvent view event) as [event2|];
      simpl|]|].
  all: eexists; split_and!;
    [ unfold did; simpl; rewrite <- ?app_assoc; reflexivity
    | by repeat constructor
    | done
    | simpl; rewrite ?app_nil_r; done
    | done ].
Qed.

Lemma foreach_observation_spec states : ∀ c,
  ∃ obs, observes obs c (fst (foreach states (processObservationEvent E) c))
    ∧ obs `prefix_of` states
    ∧ (snd (foreach states (processObservationEvent E) c) = Ok tt →
       obs = states).
Proof.
  induction states as [|top states IH]; intros c; simpl.
  - exists []. split_and!; try done. apply observes_refl.
  - pose proof (processObservationEvent_spec top c) as H1.
    unfold bind.
    destruct (processObservationEvent E top c) as [c1 [[]|e]]; simpl in *.
    + destruct (IH c1) as (obs & H2 & Hpre & Hok).
      exists ([top] ++ obs). split_and!.
      * by eapply observes_trans.
      * by apply prefix_cons.
      * intros Hr. simpl. f_equal. by apply Hok.
    + exists [top]. split_and!; try done.
      apply prefix_cons, prefix_nil.
Qed.

Lemma run_phases c :
  run E c = bind (transitions_phase E) (λ _, observation_phase E) c.
Proof.
  unfold run, transitions_phase, observation_phase.
  by rewrite bind_gets, bind_assoc, bind_gets, bind_assoc.
Qed.

Lemma popEvent_states tbl e :
  e ∈ cb_states (et_bag (popEvent tbl)) →
  oe_time e = et_currentTime (popEvent tbl) ∧ e ∈ et_observation tbl.
Proof.
  unfold popEvent. destruct (topEvent tbl) as [t|]; simpl.
  - intros He. by apply list_elem_of_filter in He.
  - by intros ?%elem_of_nil.
Qed.

Lemma delete_old_keeps n c :
  m_eventTable (fst (delete_old n c)) = m_eventTable c
  ∧ m_currentTime (fst (delete_old n c)) = m_currentTime c.
Proof.
  unfold delete_old. destruct (bool_decide (0 < n)%nat); [|done].
  rewrite bind_gets. unfold bind at 1 3. by rewrite foreach_log.
Qed.

Lemma run_transitions_unfold c :
  run_transitions E c = run_bags E (length (bags_of (popped c))) (popped c).
Proof.
  unfold run_transitions, on_table, popped, bags_of.
  rewrite bind_modify, bind_gets. simpl.
  by destruct (cb_empty (et_bag (popEvent (m_eventTable c)))).
Qed.

Lemma popped_states c e :
  e ∈ states_of (popped c) →
  oe_time e = m_currentTime (popped c)
  ∧ e ∈ et_observation (m_eventTable c).
Proof.
  unfold popped, states_of.
  destruct (cb_empty (et_bag (popEvent (m_eventTable c)))) eqn:Hempty;
    simpl; intros He.
  - unfold cb_empty in Hempty.
    destruct (cb_bags _), (cb_states _); try discriminate.
    by apply elem_of_nil in He.
  - by apply popEvent_states in He.
Qed.

Lemma popped_trace c : trace (popped c) = trace c.
Proof. unfold popped. by destruct (cb_empty _). Qed.

(** When the transitions of the instant are over, the observation events
    left in the queue of the instant were pending in the table when [run]
    was called, and their time is the current time. *)
Lemma transitions_phase_states c e :
  e ∈ states_of (fst (transitions_phase E c)) →
  oe_time e = m_currentTime (fst (transitions_phase E c))
  ∧ e ∈ et_observation (m_eventTable c).
Proof.
  unfold transitions_phase. rewrite !bind_gets.
  unfold bind. rewrite run_transitions_unfold.
  pose proof (frame_run_bags (length (bags_of (popped c))) (popped c))
    as (Ht & _ & _ & _ & _ & Hsub & _).
  destruct (run_bags E _ (popped c)) as [c1 [[]|err]]; cbn [fst snd] in *.
  - destruct (delete_old_keeps (m_toDelete c) c1) as [Htbl Hcur].
    unfold states_of in *. rewrite Htbl, Hcur, Ht.
    intros He. by apply popped_states, Hsub.
  - rewrite Ht. intros He. by apply popped_states, Hsub.
Qed.

Lemma transitions_phase_did c :
  ∃ T1, did c (fst (transitions_phase E c)) T1
    ∧ Forall (λ a, bag_act a = true ∨ destroys a = true) T1.
Proof.
  unfold transitions_phase. rewrite bind_gets.
  unfold bind at 1. rewrite run_transitions_unfold.
  destruct (frame_did _ _ _
              (frame_run_bags (length (bags_of (popped c))) (popped c)))
    as (T & HT & Hall).
  unfold did in HT. rewrite popped_trace in HT.
  destruct (run_bags E _ (popped c)) as [c1 [[]|err]]; cbn [fst snd] in *.
  - destruct (delete_old_spec (m_toDelete c) c1) as (c2 & H2 & Hd2 & _).
    rewrite H2. simpl. eexists. split.
    + unfold did in *. rewrite Hd2, HT, <- app_assoc. reflexivity.
    + apply Forall_app. split.
      * eapply Forall_impl; [exact Hall|]. intros a Ha. by left.
      * apply Forall_fmap, Forall_true. intros s. by right.
  - exists T. split; [done|].
    eapply Forall_impl; [exact Hall|]. intros a Ha. by left.
Qed.

Lemma run_after_transitions c c1 :
  transitions_phase E c = (c1, Ok tt) →
  run E c
  = match foreach (states_of c1) (processObservationEvent E) c1 with
    | (c2, Ok _) => (set_eventTable (set_bag cb_clear (m_eventTable c2)) c2,
                     Ok tt)
    | (c2, Throw e) => (c2, Throw e)
    end.
Proof.
  intros Hp. rewrite run_phases. unfold bind at 1. rewrite Hp.
  unfold observation_phase, processObservationEvents.
  rewrite bind_assoc, bind_gets. unfold bind, states_of.
  by destruct (foreach _ _ c1) as [c2 [[]|e]].
Qed.

(** *** The observations a deletion takes out of the instant *)

Lemma filter_all {A} (P : A → Prop) `{!∀ x, Decision (P x)} (l : list A) :
  (∀ x, P x) → filter P l = l.
Proof.
  intros HP. induction l as [|x l IH]; [done|].
  rewrite filter_cons_True by done. by rewrite IH.
Qed.

Lemma filter_none {A} (P : A → Prop) `{!∀ x, Decision (P x)} (l : list A) :
  (∀ x, ¬ P x) → filter P l = [].
Proof.
  intros HP. induction l as [|x l IH]; [done|].
  by rewrite filter_cons_False.
Qed.

Lemma cleared_app l1 l2 : cleared (l1 ++ l2) = cleared l1 ++ cleared l2.
Proof. unfold cleared. apply omap_app. Qed.

#[local] Instance purges_refl : Reflexive (purges (W := W)).
Proof.
  intros c. exists []. split; [apply did_refl|].
  symmetry. apply filter_all. intros e. apply not_elem_of_nil.
Qed.

#[local] Instance purges_trans : Transitive (purges (W := W)).
Proof.
  intros c1 c2 c3 (l1 & Hd1 & Hs1) (l2 & Hd2 & Hs2).
  exists (l1 ++ l2). split; [by eapply did_trans|].
  rewrite Hs2, Hs1, list_filter_filter. apply list_filter_iff.
  intros e. rewrite cleared_app, not_elem_of_app. tauto.
Qed.

Lemma purges_modify (f : Coordinator W → Coordinator W) :
  (∀ c, trace (f c) = trace c ∧ states_of (f c) = states_of c) →
  pres purges (modify f).
Proof.
  intros Hf c. destruct (Hf c) as [Ht Hs]. exists []. split.
  - unfold did. simpl. by rewrite Ht, app_nil_r.
  - simpl. rewrite Hs. symmetry. apply filter_all.
    intros e. apply not_elem_of_nil.
Qed.

Lemma purges_log a : cleared [a] = [] → pres purges (log a).
Proof.
  intros Ha c. exists [a]. split; [done|]. rewrite Ha.
  symmetry. apply filter_all. intros e. apply not_elem_of_nil.
Qed.

Ltac purges_leaf :=
  lazymatch goal with
  | |- Devs.pres _ (log _) => apply purges_log; reflexivity
  | |- Devs.pres _ (on_world _) => apply purges_modify; intros; by split
  | |- Devs.pres _ (on_table _) => apply purges_modify; intros; by split
  | |- Devs.pres _ (modify _) => apply purges_modify; intros; by split
  | _ => idtac
  end.

Lemma purges_put_internal e : pres purges (put_internal e).
Proof. unfold put_internal. pres_go; purges_leaf. Qed.

Lemma purges_put_external e : pres purges (put_external e).
Proof. unfold put_external. pres_go; purges_leaf. Qed.

Lemma purges_put_request e : pres purges (put_request e).
Proof. unfold put_request. pres_go; purges_leaf. Qed.

Lemma purges_put_observation e : pres purges (put_observation e).
Proof. unfold put_observation. pres_go; purges_leaf. Qed.

Lemma purges_addObservableToView model portname view :
  pres purges (addObservableToView model portname view).
Proof.
  unfold addObservableToView. pres_go; purges_leaf.
  apply purges_put_observation.
Qed.

(** [delAtomicModel] takes the observation events of the simulator it
    deletes out of the queue of the instant. *)
Lemma purges_delAtomicModel parent atom :
  pres purges (delAtomicModel E parent atom).
Proof.
  intros c. unfold delAtomicModel. rewrite bind_gets.
  destruct (m_modelList c !! atom) as [s|]; [|reflexivity].
  exists [CallClear s]. split; [reflexivity|].
  unfold states_of; simpl. apply list_filter_iff.
  intros e. by rewrite list_elem_of_singleton.
Qed.

Lemma purges_delCoupledModel mdl :
  ∀ parent, pres purges (delCoupledModel E parent mdl).
Proof.
  induction mdl as [a|cm lst IH] using Model_induction; intros parent; simpl.
  - pres_go.
  - apply pres_bind; [apply _ | | intros _; pres_go; purges_leaf].
    induction IH as [|it lst Hit _ IHlst]; pres_go; try done.
    apply purges_delAtomicModel.
Qed.

Lemma purges_delModel parent modelname :
  pres purges (delModel E parent modelname).
Proof.
  unfold delModel. pres_go.
  - apply purges_delAtomicModel.
  - apply purges_delCoupledModel.
Qed.

Lemma purges_exec cmd : pres purges (exec E cmd).
Proof.
  destruct cmd; simpl.
  - apply purges_delModel.
  - apply purges_addObservableToView.
Qed.

Lemma purges_call_output sim t : pres purges (call_output E sim t).
Proof. unfold call_output. pres_go; purges_leaf. apply purges_exec. Qed.

Lemma purges_call_internalTransition sim ev :
  pres purges (call_internalTransition E sim ev).
Proof.
  unfold call_internalTransition. pres_go; purges_leaf. apply purges_exec.
Qed.

Lemma purges_call_externalTransition sim lst t :
  pres purges (call_externalTransition E sim lst t).
Proof.
  unfold call_externalTransition. pres_go; purges_leaf. apply purges_exec.
Qed.

Lemma purges_call_request sim ev t : pres purges (call_request E sim ev t).
Proof. unfold call_request. pres_go; purges_leaf. apply purges_exec. Qed.

Lemma purges_call_observation sim ev :
  pres purges (call_observation E sim ev).
Proof. unfold call_observation. pres_go; purges_leaf. Qed.

Lemma purges_dispatchExternalEvent eventList sim :
  pres purges (dispatchExternalEvent E eventList sim).
Proof.
  unfold dispatchExternalEvent, dispatch_target. pres_go; purges_leaf.
  - apply purges_put_request.
  - apply purges_put_external.
Qed.

Lemma purges_processEventView model event :
  pres purges (processEventView E model event).
Proof.
  unfold processEventView. pres_go; purges_leaf.
  apply purges_call_observation.
Qed.

Lemma purges_processInternalEvent sim modelbag :
  pres purges (processInternalEvent E sim modelbag).
Proof.
  unfold processInternalEvent. pres_go; purges_leaf.
  - apply purges_call_output.
  - apply purges_dispatchExternalEvent.
  - apply purges_call_internalTransition.
  - apply purges_put_internal.
  - apply purges_processEventView.
Qed.

Lemma purges_processExternalEvents sim modelbag :
  pres purges (processExternalEvents E sim modelbag).
Proof.
  unfold processExternalEvents. pres_go; purges_leaf.
  - apply purges_call_externalTransition.
  - apply purges_put_internal.
  - apply purges_processEventView.
Qed.

Lemma purges_processRequestEvents sim modelbag :
  pres purges (processRequestEvents E sim modelbag).
Proof.
  unfold processRequestEvents. pres_go; purges_leaf.
  - apply purges_call_request.
  - apply purges_dispatchExternalEvent.
Qed.

Lemma purges_drain_step sim bag : pres purges (drain_step E sim bag).
Proof.
  unfold drain_step.
  destruct (negb (emptyInternal bag)), (negb (emptyExternal bag));
    pres_go; purges_leaf.
  all: first [ apply purges_processInternalEvent
             | apply purges_processExternalEvents
             | apply purges_processRequestEvents ].
Qed.

Lemma purges_drain turns : ∀ sim bag, pres purges (drain E turns sim bag).
Proof.
  induction turns as [|n IH]; intros sim bag; simpl; pres_go.
  - apply purges_drain_step.
  - apply IH.
Qed.

Lemma purges_run_bag bag : pres purges (run_bag E bag).
Proof. unfold run_bag. pres_go. apply purges_drain. Qed.

Lemma purges_topBag : pres purges topBag.
Proof.
  intros c. unfold topBag, bind, gets; simpl.
  destruct (cb_bags (et_bag (m_eventTable c))) as [|bag rest] eqn:Hbags;
    simpl; [reflexivity|].
  exists []. split.
  - unfold did. simpl. by rewrite app_nil_r.
  - unfold states_of; simpl. symmetry. apply filter_all.
    intros e. apply not_elem_of_nil.
Qed.

Lemma purges_run_bags turns : pres purges (run_bags E turns).
Proof.
  induction turns as [|n IH]; simpl; pres_go.
  - apply purges_topBag.
  - apply purges_run_bag.
  - apply IH.
Qed.

Lemma purges_delete_old n : pres purges (delete_old n).
Proof.
  unfold delete_old. destruct (bool_decide (0 < n)%nat); pres_go;
    purges_leaf.
Qed.

(** The observation events left in the queue of the instant when the
    transitions are over: the scheduled events of the table at its
    earliest time, those of the simulators deleted meanwhile excepted. *)
Lemma transitions_phase_purges c :
  purges (popped c) (fst (transitions_phase E c)).
Proof.
  unfold transitions_phase. rewrite bind_gets.
  unfold bind at 1. rewrite run_transitions_unfold.
  pose proof (purges_run_bags (length (bags_of (popped c))) (popped c))
    as Hbags.
  destruct (run_bags E _ (popped c)) as [c1 [[]|err]]; cbn [fst snd] in *;
    [|done].
  etrans; [exact Hbags|]. apply purges_delete_old.
Qed.

Lemma popped_states_eq c :
  states_of (popped c)
  = filter (λ e, getNextTime c = Some (oe_time e))
      (et_observation (m_eventTable c)).
Proof.
  assert (Hs : cb_states (et_bag (popEvent (m_eventTable c)))
               = filter (λ e, getNextTime c = Some (oe_time e))
                   (et_observation (m_eventTable c))).
  { unfold popEvent, getNextTime.
    destruct (topEvent (m_eventTable c)) as [t|]; simpl.
    - apply list_filter_iff. intros e.
      split; [by intros -> | by intros [= ->]].
    - symmetry. by apply filter_none. }
  unfold popped, states_of.
  by destruct (cb_empty (et_bag (popEvent (m_eventTable c)))).
Qed.

Lemma transitions_phase_observations c T1 :
  did c (fst (transitions_phase E c)) T1 →
  states_of (fst (transitions_phase E c))
  = filter (λ e, oe_model e ∉ cleared T1)
      (filter (λ e, getNextTime c = Some (oe_time e))
         (et_observation (m_eventTable c))).
Proof.
  intros HT1. destruct (transitions_phase_purges c) as (l & Hl & Hs).
  unfold did in Hl. rewrite popped_trace in Hl.
  rewrite (did_inj _ _ _ _ HT1 Hl), Hs. by rewrite popped_states_eq.
Qed.

Lemma run_throws_in_transitions c c1 e :
  transitions_phase E c = (c1, Throw e) → run E c = (c1, Throw e).
Proof. intros Hp. rewrite run_phases. unfold bind. by rewrite Hp. Qed.

(** *** The calls of the transitions of a bag *)

Lemma transitions_app l1 l2 :
  transitions (l1 ++ l2) = transitions l1 ++ transitions l2.
Proof. unfold transitions. apply filter_app. Qed.

Lemma transitions_cons a l :
  transitions (a :: l)
  = if transition_call a then a :: transitions l else transitions l.
Proof.
  unfold transitions. rewrite filter_cons.
  destruct (transition_call a).
  - by rewrite decide_True.
  - by rewrite decide_False.
Qed.

Lemma transitions_kind (P : Act → bool) l :
  (∀ a, P a = true → transition_call a = false) →
  Forall (λ a, P a = true) l → transitions l = [].
Proof.
  intros HP. induction 1 as [|a l Ha _ IH]; [done|].
  rewrite transitions_cons. by rewrite (HP a Ha).
Qed.

Lemma exec_act_quiet a : exec_act a = true → transition_call a = false.
Proof. by destruct a. Qed.

Lemma dispatch_act_quiet a :
  dispatch_act a = true → transition_call a = false.
Proof. by destruct a. Qed.

Lemma view_act_quiet a : view_act a = true → transition_call a = false.
Proof. by destruct a. Qed.

Lemma routing_acts_kind c sim evs :
  Forall (λ a, dispatch_act a = true) (routing_acts c sim evs).
Proof.
  unfold routing_acts, Devs.routing_acts. apply Forall_forall.
  intros a Ha. apply list_elem_of_bind in Ha as (e & Ha & _).
  apply elem_of_app in Ha as [Ha|Ha].
  - apply list_elem_of_fmap in Ha as (e' & -> & _).
    unfold put_act. by destruct (isRequest e').
  - by apply list_elem_of_singleton in Ha as ->.
Qed.

(** The internal path calls [output], then the internal transition, and
    no other transition. *)
Lemma processInternalEvent_calls sim bag bag' c c' :
  processInternalEvent E sim bag c = (c', Ok bag') →
  ∃ ev l,
    internal bag = Some ev ∧ bag' = delInternal bag ∧ did c c' l
    ∧ transitions l
      = [CallOutput sim (m_currentTime c); CallInternal sim ev]
    ∧ m_currentTime c' = m_currentTime c.
Proof.
  intros H.
  destruct (processInternalEvent_trace _ _ _ _ _ H)
    as (ev & X1 & X2 & V & c0 & c1 & Hev & Hbag & Ht).
  cbv zeta in Ht.
  destruct Ht as (Hdid & _ & HX1 & _ & HX2 & HV & _ & _ & Hnow).
  eexists ev, _. split_and!; [done | done | exact Hdid | | done].
  rewrite transitions_cons. simpl. f_equal.
  rewrite !transitions_app, transitions_cons. simpl.
  rewrite !transitions_app.
  rewrite (transitions_kind _ X1 exec_act_quiet HX1).
  rewrite (transitions_kind _ _ dispatch_act_quiet
             (routing_acts_kind c0 sim _)).
  rewrite (transitions_kind _ X2 exec_act_quiet HX2).
  rewrite (transitions_kind _ V view_act_quiet HV).
  simpl. f_equal.
  by destruct ((internalTransition E (world c1) sim ev).1.2).
Qed.

(** The external path calls the external transition and no other. *)
Lemma processExternalEvents_calls sim bag bag' c c' :
  processExternalEvents E sim bag c = (c', Ok bag') →
  ∃ l,
    bag' = delExternals bag ∧ did c c' l
    ∧ transitions l
      = [CallExternal sim (externals bag) (m_currentTime c)]
    ∧ m_currentTime c' = m_currentTime c.
Proof.
  intros H.
  destruct (processExternalEvents_trace _ _ _ _ _ H)
    as (X & V & Hbag & Ht).
  cbv zeta in Ht. destruct Ht as (Hdid & HX & HV & _ & _ & Hnow & _).
  eexists. split_and!; [done | exact Hdid | | done].
  rewrite transitions_cons. simpl. f_equal.
  rewrite !transitions_app.
  rewrite (transitions_kind _ X exec_act_quiet HX).
  rewrite (transitions_kind _ V view_act_quiet HV).
  rewrite (transitions_kind dispatch_act (DeleteExternal <$> _)
             dispatch_act_quiet).
  2:{ apply Forall_fmap, Forall_true. by intros ?. }
  simpl. rewrite app_nil_r.
  by destruct ((externalTransition E (world c) sim (externals bag)
                  (m_currentTime c)).1.2).
Qed.

Lemma transitions_requested l :
  Forall (λ a, request_path_act a = true) l →
  transitions l = (λ x, CallRequest x.1.1 x.1.2 x.2) <$> requested l.
Proof.
  induction 1 as [|a l Ha _ IH]; [done|].
  rewrite transitions_cons.
  destruct a; try discriminate; simpl in *;
    first [ exact IH | by rewrite IH ].
Qed.

(** The request path calls [request], once per request event and in
    their order, and no other transition. *)
Lemma processRequestEvents_calls sim bag bag' c c' :
  processRequestEvents E sim bag c = (c', Ok bag') →
  ∃ l,
    bag' = delRequest bag ∧ did c c' l
    ∧ transitions l
      = (λ r, CallRequest sim r (m_currentTime c)) <$> Request bag
    ∧ m_currentTime c' = m_currentTime c.
Proof.
  unfold processRequestEvents. cbv zeta. intros H.
  apply bind_Ok in H as (cA & [] & Hloop & H).
  apply bind_Ok in H as (cB & [] & Hdel & H).
  injection H as <- <-.
  apply request_loop_spec in Hloop as (Ht & l & Hl & Hreqs & Hall).
  rewrite foreach_log in Hdel. injection Hdel as <-.
  exists (l ++ (DeleteExternal <$> Request bag)).
  split_and!; [done | | | done].
  - unfold did in *. simpl. by rewrite Hl, app_assoc.
  - rewrite transitions_app, (transitions_requested l Hall), Hreqs.
    rewrite (transitions_kind dispatch_act (DeleteExternal <$> _)
               dispatch_act_quiet).
    2:{ apply Forall_fmap, Forall_true. by intros ?. }
    rewrite app_nil_r, <- list_fmap_compose. done.
Qed.

(** One turn of the loop over a bag makes the first calls of the bag: with
    the calls of the bag it leaves, they are the calls of the bag. *)
Lemma drain_step_calls sim bag bag' c c' :
  bag_empty bag = false →
  drain_step E sim bag c = (c', Ok bag') →
  ∃ l, did c c' l
    ∧ m_currentTime c' = m_currentTime c
    ∧ ∀ w', transitions l ++ bag_calls E w' (m_currentTime c) sim bag'
            = bag_calls E (world c) (m_currentTime c) sim bag.
Proof.
  unfold bag_empty, drain_step, emptyInternal, emptyExternal, emptyRequest,
    bag_calls.
  destruct (internal bag) as [ev|] eqn:Hint;
    destruct (externals bag) as [|x lst] eqn:Hext; simpl.
  - intros _ H.
    apply processInternalEvent_calls in H
      as (ev' & l & Hev & -> & Hl & Hcalls & Hnow).
    rewrite Hint in Hev. injection Hev as <-.
    exists l. split_and!; [done | done |]. intros w'.
    rewrite Hcalls. simpl. by rewrite Hext.
  - intros _ H. unfold log in H. rewrite bind_modify, bind_gets in H.
    simpl in H.
    set (c1 := set_trace (trace c ++ [CallConfluent sim]) c) in *.
    destruct (confluentTransitions E (world c) sim ev (x :: lst)).
    + apply processInternalEvent_calls in H
        as (ev' & l & Hev & -> & Hl & Hcalls & Hnow).
      rewrite Hint in Hev. injection Hev as <-.
      exists (CallConfluent sim :: l). split_and!; [ | done |].
      * unfold did in *. rewrite Hl. simpl. by rewrite <- app_assoc.
      * intros w'. rewrite transitions_cons, Hcalls. simpl.
        by rewrite Hext.
    + apply processExternalEvents_calls in H
        as (l & -> & Hl & Hcalls & Hnow).
      exists (CallConfluent sim :: l). split_and!; [ | done |].
      * unfold did in *. rewrite Hl. simpl. by rewrite <- app_assoc.
      * intros w'. rewrite transitions_cons, Hcalls. simpl.
        by rewrite Hint, Hext.
  - destruct (Request bag) as [|r rs] eqn:Hreq; [done|]. intros _ H.
    apply processRequestEvents_calls in H as (l & -> & Hl & Hcalls & Hnow).
    exists l. split_and!; [done | done |]. intros w'.
    rewrite Hcalls. simpl. by rewrite Hint, Hext, Hreq, app_nil_r.
  - intros _ H.
    apply processExternalEvents_calls in H
      as (l & -> & Hl & Hcalls & Hnow).
    exists l. split_and!; [done | done |]. intros w'.
    rewrite Hcalls. simpl. by rewrite Hint, Hext.
Qed.

(** The loop over a bag, when it returns, has made the calls of the bag,
    in their order. *)
Lemma drain_calls sim turns : ∀ bag c c' bag',
  (bag_parts bag ≤ turns)%nat →
  drain E turns sim bag c = (c', Ok bag') →
  ∃ l, did c c' l
    ∧ transitions l = bag_calls E (world c) (m_currentTime c) sim bag
    ∧ m_currentTime c' = m_currentTime c.
Proof.
  assert (Hnone : ∀ bag w now, bag_empty bag = true →
            bag_calls E w now sim bag = []).
  { intros bag w now. unfold bag_empty, emptyInternal, emptyExternal,
      emptyRequest, bag_calls.
    by destruct (internal bag), (externals bag), (Request bag). }
  induction turns as [|n IH]; intros bag c c' bag' Hparts; simpl.
  - intros [= <- <-]. exists []. split_and!; [apply did_refl | | done].
    symmetry. apply Hnone, bag_parts_0. lia.
  - destruct (bag_empty bag) eqn:Hempty.
    + intros [= <- <-]. exists []. split_and!; [apply did_refl | | done].
      symmetry. by apply Hnone.
    + intros H. apply bind_Ok in H as (c1 & bag1 & Hstep & Hrest).
      pose proof (drain_step_returns sim bag Hempty _ _ _ Hstep) as Hless.
      simpl in Hless.
      destruct (drain_step_calls _ _ _ _ _ Hempty Hstep)
        as (l1 & Hl1 & Hnow1 & Hcalls).
      destruct (IH bag1 c1 c' bag') as (l2 & Hl2 & Hcalls2 & Hnow2);
        [lia | done |].
      exists (l1 ++ l2). split_and!; [by eapply did_trans | | congruence].
      rewrite transitions_app, Hcalls2, Hnow1. apply Hcalls.
Qed.

Lemma run_bag_calls sim bag c c' :
  run_bag E (Some sim, bag) c = (c', Ok tt) →
  ∃ l, did c c' l
    ∧ transitions l = bag_calls E (world c) (m_currentTime c) sim bag
    ∧ m_currentTime c' = m_currentTime c.
Proof.
  unfold run_bag. simpl. intros H.
  apply bind_Ok in H as (c1 & bag' & Hdrain & [= <-]).
  eapply drain_calls; [apply bag_parts_le_3 | exact Hdrain].
Qed.

(** *** The bags a deletion takes out of the instant *)

Lemma purge_bags_app ss1 ss2 bags :
  purge_bags (ss1 ++ ss2) bags = purge_bags ss2 (purge_bags ss1 bags).
Proof. unfold purge_bags. apply foldl_app. Qed.

#[local] Instance sifts_refl : Reflexive (sifts (W := W)).
Proof. intros c. exists []. split; [apply did_refl | done]. Qed.

#[local] Instance sifts_trans : Transitive (sifts (W := W)).
Proof.
  intros c1 c2 c3 (l1 & Hd1 & Hs1) (l2 & Hd2 & Hs2).
  exists (l1 ++ l2). split; [by eapply did_trans|].
  by rewrite Hs2, Hs1, cleared_app, purge_bags_app.
Qed.

Lemma sifts_modify (f : Coordinator W → Coordinator W) :
  (∀ c, trace (f c) = trace c ∧ bags_of (f c) = bags_of c) →
  pres sifts (modify f).
Proof.
  intros Hf c. destruct (Hf c) as [Ht Hs]. exists []. split.
  - unfold did. simpl. by rewrite Ht, app_nil_r.
  - simpl. by rewrite Hs.
Qed.

Lemma sifts_log a : cleared [a] = [] → pres sifts (log a).
Proof. intros Ha c. exists [a]. split; [done|]. by rewrite Ha. Qed.

Ltac sifts_leaf :=
  lazymatch goal with
  | |- Devs.pres _ (log _) => apply sifts_log; reflexivity
  | |- Devs.pres _ (on_world _) => apply sifts_modify; intros; by split
  | |- Devs.pres _ (on_table _) => apply sifts_modify; intros; by split
  | |- Devs.pres _ (modify _) => apply sifts_modify; intros; by split
  | _ => idtac
  end.

Lemma sifts_put_internal e : pres sifts (put_internal e).
Proof. unfold put_internal. pres_go; sifts_leaf. Qed.

Lemma sifts_put_external e : pres sifts (put_external e).
Proof. unfold put_external. pres_go; sifts_leaf. Qed.

Lemma sifts_put_request e : pres sifts (put_request e).
Proof. unfold put_request. pres_go; sifts_leaf. Qed.

Lemma sifts_put_observation e : pres sifts (put_observation e).
Proof. unfold put_observation. pres_go; sifts_leaf. Qed.

Lemma sifts_addObservableToView model portname view :
  pres sifts (addObservableToView model portname view).
Proof.
  unfold addObservableToView. pres_go; sifts_leaf.
  apply sifts_put_observation.
Qed.

(** [delAtomicModel] takes the events of the simulator it deletes out of
    the bags of the instant. *)
Lemma sifts_delAtomicModel parent atom :
  pres sifts (delAtomicModel E parent atom).
Proof.
  intros c. unfold delAtomicModel. rewrite bind_gets.
  destruct (m_modelList c !! atom) as [s|]; [|reflexivity].
  exists [CallClear s]. split; reflexivity.
Qed.

Lemma sifts_delCoupledModel mdl :
  ∀ parent, pres sifts (delCoupledModel E parent mdl).
Proof.
  induction mdl as [a|cm lst IH] using Model_induction; intros parent; simpl.
  - pres_go.
  - apply pres_bind; [apply _ | | intros _; pres_go; sifts_leaf].
    induction IH as [|it lst Hit _ IHlst]; pres_go; try done.
    apply sifts_delAtomicModel.
Qed.

Lemma sifts_delModel parent modelname :
  pres sifts (delModel E parent modelname).
Proof.
  unfold delModel. pres_go.
  - apply sifts_delAtomicModel.
  - apply sifts_delCoupledModel.
Qed.

Lemma sifts_exec cmd : pres sifts (exec E cmd).
Proof.
  destruct cmd; simpl.
  - apply sifts_delModel.
  - apply sifts_addObservableToView.
Qed.

Lemma sifts_call_output sim t : pres sifts (call_output E sim t).
Proof. unfold call_output. pres_go; sifts_leaf. apply sifts_exec. Qed.

Lemma sifts_call_internalTransition sim ev :
  pres sifts (call_internalTransition E sim ev).
Proof.
  unfold call_internalTransition. pres_go; sifts_leaf. apply sifts_exec.
Qed.

Lemma sifts_call_externalTransition sim lst t :
  pres sifts (call_externalTransition E sim lst t).
Proof.
  unfold call_externalTransition. pres_go; sifts_leaf. apply sifts_exec.
Qed.

Lemma sifts_call_request sim ev t : pres sifts (call_request E sim ev t).
Proof. unfold call_request. pres_go; sifts_leaf. apply sifts_exec. Qed.

Lemma sifts_call_observation sim ev :
  pres sifts (call_observation E sim ev).
Proof. unfold call_observation. pres_go; sifts_leaf. Qed.

Lemma sifts_dispatchExternalEvent eventList sim :
  pres sifts (dispatchExternalEvent E eventList sim).
Proof.
  unfold dispatchExternalEvent, dispatch_target. pres_go; sifts_leaf.
  - apply sifts_put_request.
  - apply sifts_put_external.
Qed.

Lemma sifts_processEventView model event :
  pres sifts (processEventView E model event).
Proof.
  unfold processEventView. pres_go; sifts_leaf.
  apply sifts_call_observation.
Qed.

Lemma sifts_processInternalEvent sim modelbag :
  pres sifts (processInternalEvent E sim modelbag).
Proof.
  unfold processInternalEvent. pres_go; sifts_leaf.
  - apply sifts_call_output.
  - apply sifts_dispatchExternalEvent.
  - apply sifts_call_internalTransition.
  - apply sifts_put_internal.
  - apply sifts_processEventView.
Qed.

Lemma sifts_processExternalEvents sim modelbag :
  pres sifts (processExternalEvents E sim modelbag).
Proof.
  unfold processExternalEvents. pres_go; sifts_leaf.
  - apply sifts_call_externalTransition.
  - apply sifts_put_internal.
  - apply sifts_processEventView.
Qed.

Lemma sifts_processRequestEvents sim modelbag :
  pres sifts (processRequestEvents E sim modelbag).
Proof.
  unfold processRequestEvents. pres_go; sifts_leaf.
  - apply sifts_call_request.
  - apply sifts_dispatchExternalEvent.
Qed.

Lemma sifts_drain_step sim bag : pres sifts (drain_step E sim bag).
Proof.
  unfold drain_step.
  destruct (negb (emptyInternal bag)), (negb (emptyExternal bag));
    pres_go; sifts_leaf.
  all: first [ apply sifts_processInternalEvent
             | apply sifts_processExternalEvents
             | apply sifts_processRequestEvents ].
Qed.

Lemma sifts_drain turns : ∀ sim bag, pres sifts (drain E turns sim bag).
Proof.
  induction turns as [|n IH]; intros sim bag; simpl; pres_go.
  - apply sifts_drain_step.
  - apply IH.
Qed.

Lemma sifts_run_bag bag : pres sifts (run_bag E bag).
Proof. unfold run_bag. pres_go. apply sifts_drain. Qed.

(** *** The bags the loop of [run] takes *)

Lemma run_bags_takes turns : ∀ c c',
  (length (bags_of c) ≤ turns)%nat →
  run_bags E turns c = (c', Ok tt) →
  ∃ steps,
    takes (bags_of c) steps
    ∧ did c c' (concat (snd <$> steps))
    ∧ Forall (bag_done E (m_currentTime c)) steps
    ∧ m_currentTime c' = m_currentTime c.
Proof.
  induction turns as [|n IH]; intros c c' Hlen; simpl.
  - intros [= <-]. exists []. split_and!; try done; [|apply did_refl].
    destruct (bags_of c); [constructor | simpl in Hlen; lia].
  - unfold topBag. rewrite bind_assoc, bind_gets.
    fold (bags_of c).
    destruct (bags_of c) as [|kb rest] eqn:Hbags.
    + rewrite bind_ret. intros [= <-]. exists [].
      split_and!; try done; [constructor | apply did_refl].
    + rewrite bind_assoc. unfold on_table. rewrite bind_modify, bind_ret.
      set (c0 := set_eventTable _ c). intros H.
      apply bind_Ok in H as (c1 & [] & Hbag & Hrest).
      destruct (sifts_run_bag kb c0) as (l1 & Hl1 & Hsift).
      pose proof (frame_run_bag kb c0) as (Hnow & _ & _ & _ & Hle & _).
      rewrite Hbag in Hl1, Hsift, Hnow, Hle. cbn [fst] in *.
      assert (Hrest0 : bags_of c0 = rest) by done.
      rewrite Hrest0 in Hsift, Hle.
      destruct (IH c1 c') as (steps & Htakes & Hdid & Hdone & Hnow');
        [simpl in Hlen; lia | done |].
      exists ((kb, l1) :: steps). split_and!.
      * constructor. by rewrite <- Hsift.
      * simpl. eapply did_trans; [|exact Hdid].
        unfold did in *. by rewrite Hl1.
      * constructor; [|by rewrite Hnow in Hdone].
        unfold bag_done. destruct kb as [[sim|] b]; simpl.
        -- destruct (run_bag_calls _ _ _ _ Hbag) as (l & Hl & Hcalls & _).
           rewrite (did_inj _ _ _ _ Hl1 Hl). by exists (world c0).
        -- unfold run_bag in Hbag. simpl in Hbag.
           destruct (bag_empty b); [|done].
           injection Hbag as <-.
           eapply did_inj; [exact Hl1 | apply did_refl].
      * by rewrite Hnow', Hnow.
Qed.

(** *** What the observation of an event does *)

Lemma processObservationEvent_acts top c c' :
  processObservationEvent E top c = (c', Ok tt) →
  did c c'
    (observation_acts (m_viewList c) top
       (observation E (world c) (oe_model top) top).2)
  ∧ world c' = (observation E (world c) (oe_model top) top).1
  ∧ m_viewList c' = m_viewList c.
Proof.
  unfold processObservationEvent, call_observation, put_observation,
    popState, log, on_world, on_table, getView, bind, gets, modify, ret,
    throw, observation_acts, did.
  simpl.
  destruct (observation E (world c) (oe_model top) top) as [w [event|]];
    simpl;
    [destruct (m_viewList c !! oe_view event) as [view|]; simpl;
     [destruct (view_processObservationEvent view event) as [event2|];
      simpl|]|].
  all: intros [= <-]; simpl; rewrite <- ?app_assoc; done.
Qed.

Lemma foreach_observation_trace states : ∀ c c',
  foreach states (processObservationEvent E) c = (c', Ok tt) →
  did c c' (observation_trace E (m_viewList c) (world c) states).
Proof.
  induction states as [|top states IH]; intros c c'; simpl.
  - intros [= <-]. apply did_refl.
  - intros H. apply bind_Ok in H as (c1 & [] & Htop & Hrest).
    apply processObservationEvent_acts in Htop as (Hd & Hw & Hv).
    apply IH in Hrest. rewrite Hw, Hv in Hrest.
    exact (did_trans _ _ _ _ _ Hd Hrest).
Qed.

(** *** What a call of [run] that returns did *)

(** The transitions of the instant, when they are over: the bags of the
    instant were taken one after the other, each making the calls of its
    bag, and the simulators that were pending were destroyed then. *)
Lemma transitions_phase_trace c c1 :
  transitions_phase E c = (c1, Ok tt) →
  ∃ steps D,
    takes (bags_of (popped c)) steps
    ∧ Forall (bag_done E (m_currentTime c1)) steps
    ∧ Forall (λ a, destroys a = true) D
    ∧ did c c1 (concat (snd <$> steps) ++ D)
    ∧ m_currentTime c1 = m_currentTime (popped c).
Proof.
  intros Hphase.
  unfold transitions_phase in Hphase. rewrite bind_gets in Hphase.
  apply bind_Ok in Hphase as (c0 & [] & Hbags & Hdel).
  rewrite run_transitions_unfold in Hbags.
  destruct (run_bags_takes _ _ _ (le_n _) Hbags)
    as (steps & Htakes & Hdid & Hdone & Hnow0).
  destruct (delete_old_spec (m_toDelete c) c0) as (c1' & Hdel' & HD & _).
  rewrite Hdel in Hdel'. injection Hdel' as <-.
  destruct (delete_old_keeps (m_toDelete c) c0) as [_ Hnow1].
  rewrite Hdel in Hnow1. cbn [fst] in Hnow1.
  exists steps, (DeleteSimulator <$> take (m_toDelete c)
                   (m_deletedSimulator c0)).
  split_and!; try done.
  - by rewrite Hnow1, Hnow0.
  - apply Forall_fmap, Forall_true. by intros ?.
  - eapply did_trans; [|exact HD].
    unfold did in *. by rewrite Hdid, popped_trace.
  - congruence.
Qed.

(** The observations of the instant, when they are over: each event was
    handed to its simulator and the answer to the view it names. *)
Lemma observation_phase_trace c1 c' :
  observation_phase E c1 = (c', Ok tt) →
  did c1 c' (observation_trace E (m_viewList c1) (world c1) (states_of c1))
  ∧ m_currentTime c' = m_currentTime c1.
Proof.
  intros Hobs.
  pose proof (frame_processObservationEvents c1) as (Hnow & _).
  unfold observation_phase in Hobs.
  apply bind_Ok in Hobs as (c2 & [] & Hloop & [= <-]).
  rewrite Hloop in Hnow. cbn [fst] in Hnow.
  unfold processObservationEvents in Hloop. rewrite bind_gets in Hloop.
  apply foreach_observation_trace in Hloop.
  by split.
Qed.

Lemma run_trace c c' :
  run E c = (c', Ok tt) →
  ∃ steps D c1,
    transitions_phase E c = (c1, Ok tt)
    ∧ takes (bags_of (popped c)) steps
    ∧ Forall (bag_done E (m_currentTime c')) steps
    ∧ Forall (λ a, destroys a = true) D
    ∧ did c c1 (concat (snd <$> steps) ++ D)
    ∧ did c1 c'
        (observation_trace E (m_viewList c1) (world c1) (states_of c1)).
Proof.
  intros Hrun. rewrite run_phases in Hrun.
  apply bind_Ok in Hrun as (c1 & [] & Hphase & Hobs).
  destruct (transitions_phase_trace _ _ Hphase)
    as (steps & D & Htakes & Hdone & HD & Hd1 & _).
  destruct (observation_phase_trace _ _ Hobs) as [Hd2 Hnow].
  exists steps, D, c1. split_and!; try done. by rewrite Hnow.
Qed.

(** A call of [run], in two phases: the transitions of the instant, up to
    the state [c1], then the observations. *)
Lemma run_two_phases (c : Coordinator W) :
  let c1 := fst (transitions_phase E c) in
  let c' := fst (run E c) in
  ∃ T1 T2,
    did c c1 T1 ∧ did c1 c' T2
    ∧ Forall (λ a, bag_act a = true ∨ destroys a = true) T1
    ∧ Forall (λ a, transition_call a = false) T2
    ∧ observed T2 `prefix_of` states_of c1
    ∧ (snd (run E c) = Ok tt → observed T2 = states_of c1)
    ∧ states_of c1
      = filter (λ e, oe_model e ∉ cleared T1)
          (filter (λ e, getNextTime c = Some (oe_time e))
             (et_observation (m_eventTable c)))
    ∧ (∀ e, e ∈ states_of c1 →
         oe_time e = m_currentTime c'
         ∧ e ∈ et_observation (m_eventTable c))
    ∧ et_observation (m_eventTable c')
      = et_observation (m_eventTable c1) ++ replies T2
    ∧ observations_put T2 = replies T2.
Proof.
  cbv zeta.
  destruct (transitions_phase_did c) as (T1 & HT1 & Hall1).
  pose proof (transitions_phase_states c) as Hstates.
  pose proof (transitions_phase_observations c T1 HT1) as Hpurged.
  destruct (transitions_phase E c) as [c1' r] eqn:Hp.
  cbn [fst] in *. destruct r as [[]|err].
  - rewrite (run_after_transitions c c1' Hp).
    destruct (foreach_observation_spec (states_of c1') c1')
      as (obs & (T2 & HT2 & Hall2 & Hobs & Hput & Hrep) & Hpre & Hok).
    pose proof (frame_processObservationEvents c1') as (Ht & _).
    unfold processObservationEvents in Ht. rewrite bind_gets in Ht.
    fold (states_of c1') in Ht.
    destruct (foreach (states_of c1') (processObservationEvent E) c1')
      as [c2 [[]|err]]; cbn [fst snd] in *.
    + exists T1, T2. rewrite Hobs. split_and!; try done.
      intros e He. cbn. rewrite Ht. by apply Hstates.
    + exists T1, T2. rewrite Hobs. split_and!; try done.
      intros e He. rewrite Ht. by apply Hstates.
  - rewrite (run_throws_in_transitions c c1' err Hp). cbn [fst snd].
    exists T1, []. split_and!; try done.
    + apply did_refl.
    + apply prefix_nil.
    + cbn. by rewrite app_nil_r.
Qed.


(** *** The paths of a bag *)

Lemma transitions_none l :
  Forall (λ a, transition_call a = false) l → transitions l = [].
Proof.
  induction 1 as [|a l Ha _ IH]; [done|].
  rewrite transitions_cons. by rewrite Ha.
Qed.

(** C4.  The loop of [run] over the bag of a simulator, when it returns,
    has made the calls of the bag, in this order.  With an internal event
    and external events pending, [confluentTransitions] is called, once,
    and both paths run, once each: the internal path first and the
    external path after it when the answer is INTERNAL, the external path
    first and the internal path after it when the answer is EXTERNAL.
    With an internal event only the internal path runs, and not the
    external one; with external events only the external path runs, and
    not the internal one.  The requests are processed last, when neither
    an internal nor an external event is left in the bag, each once and
    in their order.  And a call of [run] that returns has taken every bag
    of the instant, one after the other, and made the calls of each; what
    else it did is no call of a transition. *)
Theorem run_bag_makes_the_calls_of_the_bag (sim : Simulator)
    (bag : EventBagModel) (c c' : Coordinator W) :
  run_bag E (Some sim, bag) c = (c', Ok tt) →
  (∃ l, did c c' l
     ∧ transitions l = bag_calls E (world c) (m_currentTime c) sim bag
     ∧ (∀ ev, internal bag = Some ev → externals bag ≠ [] →
          confluent_called sim l
          ∧ internal_path_ran sim l ∧ external_path_ran sim l)
     ∧ (internal bag ≠ None → externals bag = [] →
          internal_path_ran sim l ∧ ¬ external_path_ran sim l
          ∧ ¬ confluent_called sim l)
     ∧ (internal bag = None → externals bag ≠ [] →
          external_path_ran sim l ∧ ¬ internal_path_ran sim l
          ∧ ¬ confluent_called sim l)
     ∧ (internal bag = None → externals bag = [] →
          ¬ internal_path_ran sim l ∧ ¬ external_path_ran sim l
          ∧ ¬ confluent_called sim l))
  ∧ (∀ c0 c0' : Coordinator W,
       run E c0 = (c0', Ok tt) →
       ∃ steps others,
         did c0 c0' (concat (snd <$> steps) ++ others)
         ∧ takes (bags_of (popped c0)) steps
         ∧ Forall (bag_done E (m_currentTime c0')) steps
         ∧ transitions others = []).
Proof.
  intros Hbag. split.
  - destruct (run_bag_calls _ _ _ _ Hbag) as (l & Hl & Hcalls & _).
    exists l. split; [done|]. split; [done|].
    assert (Hin : ∀ a, transition_call a = true →
              a ∈ l ↔ a ∈ bag_calls E (world c) (m_currentTime c) sim bag).
    { intros a Ha. rewrite <- Hcalls. unfold transitions.
      rewrite list_elem_of_filter. tauto. }
    unfold confluent_called, internal_path_ran, external_path_ran.
    unfold bag_calls in Hin.
    destruct (internal bag) as [ev|] eqn:Hint;
      destruct (externals bag) as [|x lst] eqn:Hext.
    + split_and!; try done. intros _ _. split_and!.
      * exists (m_currentTime c). apply Hin; [done|].
        apply elem_of_app. left. left.
      * intros (evs & t & H). apply Hin in H; [|done].
        apply elem_of_app in H as [H|H].
        -- apply elem_of_cons in H as [H|H]; [done|].
           apply elem_of_cons in H as [H|H]; [done|]. by inversion H.
        -- by apply list_elem_of_fmap in H as (r & H & _).
      * intros H. apply Hin in H; [|done].
        apply elem_of_app in H as [H|H].
        -- apply elem_of_cons in H as [H|H]; [done|].
           apply elem_of_cons in H as [H|H]; [done|]. by inversion H.
        -- by apply list_elem_of_fmap in H as (r & H & _).
    + split_and!; try done. intros ev' _ _.
      destruct (confluentTransitions E (world c) sim ev (x :: lst)).
      * split_and!.
        -- apply Hin; [done|]. apply elem_of_app. left. left.
        -- exists (m_currentTime c). apply Hin; [done|].
           apply elem_of_app. left. right. left.
        -- exists (x :: lst), (m_currentTime c). apply Hin; [done|].
           apply elem_of_app. left. do 3 right. left.
      * split_and!.
        -- apply Hin; [done|]. apply elem_of_app. left. left.
        -- exists (m_currentTime c). apply Hin; [done|].
           apply elem_of_app. left. do 2 right. left.
        -- exists (x :: lst), (m_currentTime c). apply Hin; [done|].
           apply elem_of_app. left. right. left.
    + split_and!; try done. intros _ _. split_and!.
      * intros (t & H). apply Hin in H; [|done]. simpl in H.
        by apply list_elem_of_fmap in H as (r & H & _).
      * intros (evs & t & H). apply Hin in H; [|done]. simpl in H.
        by apply list_elem_of_fmap in H as (r & H & _).
      * intros H. apply Hin in H; [|done]. simpl in H.
        by apply list_elem_of_fmap in H as (r & H & _).
    + split_and!; try done. intros _ _. split_and!.
      * exists (x :: lst), (m_currentTime c). apply Hin; [done|].
        apply elem_of_app. left. left.
      * intros (t & H). apply Hin in H; [|done].
        apply elem_of_app in H as [H|H].
        -- apply elem_of_cons in H as [H|H]; [done|]. by inversion H.
        -- by apply list_elem_of_fmap in H as (r & H & _).
      * intros H. apply Hin in H; [|done].
        apply elem_of_app in H as [H|H].
        -- apply elem_of_cons in H as [H|H]; [done|]. by inversion H.
        -- by apply list_elem_of_fmap in H as (r & H & _).
  - intros c0 c0' Hrun.
    destruct (run_trace _ _ Hrun)
      as (steps & D & c1 & Hphase & Htakes & Hdone & HD & Hd1 & Hd2).
    exists steps,
      (D ++ observation_trace E (m_viewList c1) (world c1) (states_of c1)).
    split_and!; try done.
    + rewrite app_assoc. by eapply did_trans.
    + rewrite transitions_app.
      rewrite (transitions_kind destroys D); [|by intros []|done].
      destruct (run_two_phases c0) as (T1 & T2 & _ & HT2 & _ & Hno & _).
      rewrite Hphase, Hrun in HT2. cbn [fst] in HT2.
      rewrite (did_inj _ _ _ _ Hd2 HT2). by apply transitions_none.
Qed.

(** *** Deletion of an atomic model *)

Lemma delModelEvents_free s tbl : table_free s (delModelEvents s tbl).
Proof.
  unfold table_free, delModelEvents, cb_free, cb_delModel; simpl.
  split_and!.
  - apply Forall_forall. intros e He. by apply list_elem_of_filter in He as [? _].
  - apply Forall_forall. intros e He. by apply list_elem_of_filter in He as [? _].
  - apply Forall_forall. intros e He. by apply list_elem_of_filter in He as [? _].
  - apply Forall_forall. intros e He. by apply list_elem_of_filter in He as [? _].
  - apply Forall_forall. intros kb Hkb.
    apply list_elem_of_fmap in Hkb as ([k b] & -> & Hkb).
    apply list_elem_of_filter in Hkb as [Hk _]. simpl in *.
    split; [done|]. unfold bag_free, bag_purge; simpl. split_and!.
    + intros e. destruct (internal b) as [e'|]; [|done].
      destruct (decide (ie_model e' = s)); [done|]. by intros [= <-].
    + apply Forall_forall. intros e He.
      by apply list_elem_of_filter in He as [? _].
    + apply Forall_forall. intros e He.
      by apply list_elem_of_filter in He as [? _].
  - apply Forall_forall. intros e He. by apply list_elem_of_filter in He as [? _].
Qed.

Lemma Forall_filter_keep {A} (P Q : A → Prop) `{!∀ x, Decision (Q x)}
    (l : list A) :
  Forall P l → Forall P (filter Q l).
Proof.
  rewrite !Forall_forall. intros Hall x Hx.
  apply list_elem_of_filter in Hx as [_ Hx]. by apply Hall.
Qed.

Lemma delModelEvents_keeps_free s s' tbl :
  table_free s tbl → table_free s (delModelEvents s' tbl).
Proof.
  intros (Hi & He & Hr & Ho & Hb & Hs).
  unfold table_free, delModelEvents, cb_free, cb_delModel; simpl.
  split_and!; try by apply Forall_filter_keep.
  apply Forall_fmap. apply Forall_filter_keep.
  eapply Forall_impl; [exact Hb|]. intros [k b] [Hk (Hbi & Hbe & Hbr)].
  simpl in *. split; [done|]. unfold bag_free, bag_purge; simpl.
  split_and!; try by apply Forall_filter_keep.
  intros e. destruct (internal b) as [e'|]; [|done].
  destruct (decide (ie_model e' = s')); [done|]. intros [= <-]. by apply Hbi.
Qed.

Lemma bag_update_free s key f bags :
  key ≠ Some s →
  (∀ b, bag_free s b → bag_free s (f b)) →
  Forall (λ kb, kb.1 ≠ Some s ∧ bag_free s kb.2) bags →
  Forall (λ kb, kb.1 ≠ Some s ∧ bag_free s kb.2) (bag_update key f bags).
Proof.
  intros Hkey Hf. induction 1 as [|[k b] bags [Hk Hb] Hbags IH]; simpl.
  - constructor; [|done]. split; [done|]. apply Hf.
    unfold bag_free, no_bag; simpl. by split_and!.
  - destruct (decide (k = key)) as [->|Hne]; constructor; try done.
    split; [done|]. by apply Hf.
Qed.

Lemma make_bags_free s ints exts reqs :
  Forall (λ e, ie_model e ≠ s) ints →
  Forall (λ e, ¬ ext_mentions s e) exts →
  Forall (λ e, ¬ ext_mentions s e) reqs →
  Forall (λ kb, kb.1 ≠ Some s ∧ bag_free s kb.2) (make_bags ints exts reqs).
Proof.
  intros Hi He Hr. unfold make_bags.
  assert (H0 : Forall (λ kb : option Simulator * EventBagModel,
                         kb.1 ≠ Some s ∧ bag_free s kb.2) []) by done.
  revert H0. generalize (@nil (option Simulator * EventBagModel)) as bags.
  intros bags Hbags.
  assert (H1 : Forall (λ kb, kb.1 ≠ Some s ∧ bag_free s kb.2)
                 (foldl (λ bags e, addInternal e bags) bags ints)).
  { revert bags Hbags. induction Hi as [|e ints He' _ IH]; intros bags Hbags;
      simpl; [done|].
    apply IH. unfold addInternal. apply bag_update_free; try done.
    - by intros [= ?].
    - intros b (Hbi & Hbe & Hbr). unfold bag_free; simpl. split_and!; try done.
      by intros e' [= <-]. }
  clear Hbags.
  assert (H2 : Forall (λ kb, kb.1 ≠ Some s ∧ bag_free s kb.2)
                 (foldl (λ bags e, addExternal e bags)
                    (foldl (λ bags e, addInternal e bags) bags ints) exts)).
  { revert H1. generalize (foldl (λ bags e, addInternal e bags) bags ints).
    induction He as [|e exts He' _ IH]; intros bs Hbs; simpl; [done|].
    apply IH. unfold addExternal. apply bag_update_free; try done.
    - intros Ht. apply He'. by right.
    - intros b (Hbi & Hbe & Hbr). unfold bag_free; simpl. split_and!; try done.
      apply Forall_app. split; [done|]. by constructor. }
  revert H2.
  generalize (foldl (λ bags e, addExternal e bags)
                (foldl (λ bags e, addInternal e bags) bags ints) exts).
  induction Hr as [|e reqs He' _ IH]; intros bs Hbs; simpl; [done|].
  apply IH. unfold addRequest. apply bag_update_free; try done.
  - intros Ht. apply He'. by right.
  - intros b (Hbi & Hbe & Hbr). unfold bag_free; simpl. split_and!; try done.
    apply Forall_app. split; [done|]. by constructor.
Qed.

Lemma popEvent_free s tbl : table_free s tbl → table_free s (popEvent tbl).
Proof.
  intros (Hi & He & Hr & Ho & Hb).
  unfold popEvent. destruct (topEvent tbl) as [t|].
  - unfold table_free, cb_free; simpl.
    split_and!; try by apply Forall_filter_keep.
    apply make_bags_free; by apply Forall_filter_keep.
  - unfold table_free, cb_free; simpl. by split_and!.
Qed.

Lemma table_op_free s tbl op :
  table_free s tbl → op_free s op → table_free s (table_op tbl op).
Proof.
  intros Hfree Hop. destruct op as [e|e|e|e| |s']; simpl in *.
  - destruct Hfree as (Hi & He & Hr & Ho & Hb).
    unfold table_free; simpl. split_and!; try done.
    apply Forall_app. split; [by apply Forall_filter_keep | by constructor].
  - destruct Hfree as (Hi & He & Hr & Ho & Hb).
    unfold table_free; simpl. split_and!; try done.
    apply Forall_app. split; [done | by constructor].
  - destruct Hfree as (Hi & He & Hr & Ho & Hb).
    unfold table_free; simpl. split_and!; try done.
    apply Forall_app. split; [done | by constructor].
  - destruct Hfree as (Hi & He & Hr & Ho & Hb).
    unfold table_free; simpl. split_and!; try done.
    apply Forall_app. split; [done | by constructor].
  - by apply popEvent_free.
  - by apply delModelEvents_keeps_free.
Qed.


(** *** Time *)

#[local] Instance keeps_time_refl t : Reflexive (keeps_time (W := W) t).
Proof. by intros c. Qed.

#[local] Instance keeps_time_trans t : Transitive (keeps_time (W := W) t).
Proof.
  intros c1 c2 c3 H12 H23 Ht Hok.
  destruct (H12 Ht Hok) as [Ht2 Hok2]. by apply H23.
Qed.

Lemma pres_bind_returns R `{!Transitive R} {A B} (Q : A → Prop)
    (m : M W A) (f : A → M W B) :
  pres R m → returns Q m → (∀ a, Q a → pres R (f a)) → pres R (bind m f).
Proof.
  intros Hm HQ Hf c. unfold bind. specialize (Hm c).
  destruct (m c) as [c1 [a|e]] eqn:Hmc; simpl in *; [|exact Hm].
  etrans; [exact Hm|]. apply Hf. by eapply HQ.
Qed.

(** Under [keeps_time t] a continuation reads a state at time [t] where
    nothing is scheduled in the past. *)
Lemma time_gets t {A B} (g : Coordinator W → A) (f : A → M W B) :
  (∀ c, m_currentTime c = t → time_ok c → keeps_time t c (fst (f (g c) c))) →
  pres (keeps_time t) (bind (gets g) f).
Proof. intros Hf c Ht Hok. rewrite bind_gets. by apply Hf. Qed.

Lemma time_log t a : pres (keeps_time t) (log a).
Proof. by intros c. Qed.

Lemma time_on_world t (f : W → W) : pres (keeps_time t) (on_world f).
Proof. by intros c. Qed.

Lemma time_set_modelList t (f : Coordinator W → gmap AtomicModel Simulator) :
  pres (keeps_time t) (modify (λ c, set_modelList (f c) c)).
Proof. by intros c. Qed.

Lemma time_set_deletedSimulator t (f : Coordinator W → list Simulator) :
  pres (keeps_time t) (modify (λ c, set_deletedSimulator (f c) c)).
Proof. by intros c. Qed.

Lemma time_set_toDelete t (f : Coordinator W → nat) :
  pres (keeps_time t) (modify (λ c, set_toDelete (f c) c)).
Proof. by intros c. Qed.

Lemma time_on_table t (f : EventTable → EventTable) :
  (∀ tbl, table_from t tbl → table_from t (f tbl)) →
  pres (keeps_time t) (on_table f).
Proof.
  intros Hf c Ht [Htbl Hviews]. simpl. split; [done|].
  split; [|done]. simpl. rewrite Ht in *. by apply Hf.
Qed.

Lemma table_from_putInternalEvent t e tbl :
  t ≤ ie_time e → table_from t tbl → table_from t (putInternalEvent e tbl).
Proof.
  intros He (Hi & Hx & Hr & Ho & Hb & Hs). unfold table_from; simpl.
  split_and!; try done.
  apply Forall_app. split; [by apply Forall_filter_keep | by constructor].
Qed.

Lemma table_from_putExternalEvent t e tbl :
  t ≤ ee_time e → table_from t tbl → table_from t (putExternalEvent e tbl).
Proof.
  intros He (Hi & Hx & Hr & Ho & Hb & Hs). unfold table_from; simpl.
  split_and!; try done. apply Forall_app. split; [done | by constructor].
Qed.

Lemma table_from_putRequestEvent t e tbl :
  t ≤ ee_time e → table_from t tbl → table_from t (putRequestEvent e tbl).
Proof.
  intros He (Hi & Hx & Hr & Ho & Hb & Hs). unfold table_from; simpl.
  split_and!; try done. apply Forall_app. split; [done | by constructor].
Qed.

Lemma table_from_putObservationEvent t e tbl :
  t ≤ oe_time e → table_from t tbl → table_from t (putObservationEvent e tbl).
Proof.
  intros He (Hi & Hx & Hr & Ho & Hb & Hs). unfold table_from; simpl.
  split_and!; try done. apply Forall_app. split; [done | by constructor].
Qed.

Lemma table_from_delModelEvents t s tbl :
  table_from t tbl → table_from t (delModelEvents s tbl).
Proof.
  intros (Hi & Hx & Hr & Ho & Hb & Hs). unfold table_from; simpl.
  split_and!; try by apply Forall_filter_keep.
  apply Forall_fmap, Forall_filter_keep.
  eapply Forall_impl; [exact Hb|]. intros [k b] (Hbi & Hbx & Hbr).
  unfold bag_from, bag_purge; simpl in *.
  split_and!; try by apply Forall_filter_keep.
  intros e. destruct (internal b) as [e'|]; [|done].
  destruct (decide (ie_model e' = s)); [done|]. intros [= <-]. by apply Hbi.
Qed.

Lemma time_put_internal t e : t ≤ ie_time e → pres (keeps_time t) (put_internal e).
Proof.
  intros He. unfold put_internal. pres_go; [apply time_log|].
  apply time_on_table. intros tbl. by apply table_from_putInternalEvent.
Qed.

Lemma time_put_external t e : t ≤ ee_time e → pres (keeps_time t) (put_external e).
Proof.
  intros He. unfold put_external. pres_go; [apply time_log|].
  apply time_on_table. intros tbl. by apply table_from_putExternalEvent.
Qed.

Lemma time_put_request t e : t ≤ ee_time e → pres (keeps_time t) (put_request e).
Proof.
  intros He. unfold put_request. pres_go; [apply time_log|].
  apply time_on_table. intros tbl. by apply table_from_putRequestEvent.
Qed.

Lemma time_put_observation t e :
  t ≤ oe_time e → pres (keeps_time t) (put_observation e).
Proof.
  intros He. unfold put_observation. pres_go; [apply time_log|].
  apply time_on_table. intros tbl. by apply table_from_putObservationEvent.
Qed.

Lemma views_periodic_removeObservable s views :
  views_periodic views → views_periodic (removeObservable s <$> views).
Proof.
  intros Hv name v p Hlook Hkind. rewrite lookup_fmap in Hlook.
  destruct (views !! name) as [v0|] eqn:Hv0; [|done].
  injection Hlook as <-. by eapply Hv.
Qed.

Lemma time_addObservableToView t model portname view :
  pres (keeps_time t) (addObservableToView model portname view).
Proof.
  unfold addObservableToView. apply time_gets. intros c Ht Hok.
  destruct (m_viewList c !! view) as [obs|] eqn:Hobs; [|done].
  rewrite bind_gets. destruct (getModel c model) as [simulator|]; [|done].
  rewrite bind_gets, bind_modify.
  set (c1 := set_viewList _ c).
  assert (Hok1 : m_currentTime c1 = t ∧ time_ok c1).
  { split; [done|]. destruct Hok as [Htbl Hviews]. split; [done|].
    intros name v p Hlook Hkind. unfold c1 in Hlook. simpl in Hlook.
    destruct (decide (view = name)) as [->|Hne].
    - rewrite lookup_insert_eq in Hlook. injection Hlook as <-.
      by eapply Hviews.
    - rewrite lookup_insert_ne in Hlook by done. by eapply Hviews. }
  intros _ _. unfold addObservable. simpl.
  destruct (v_kind obs); try done.
  apply time_put_observation; [|apply Hok1..]. simpl. lia.
Qed.

Lemma time_delAtomicModel t parent atom :
  pres (keeps_time t) (delAtomicModel E parent atom).
Proof.
  unfold delAtomicModel. pres_go.
  - apply time_set_modelList.
  - intros c Ht [Htbl Hviews]. simpl. split; [done|]. split; [done|].
    by apply views_periodic_removeObservable.
  - apply time_on_table. intros tbl. apply table_from_delModelEvents.
  - apply time_log.
  - apply time_on_world.
  - apply time_set_deletedSimulator.
  - apply time_on_world.
Qed.

Lemma time_delCoupledModel t mdl :
  ∀ parent, pres (keeps_time t) (delCoupledModel E parent mdl).
Proof.
  induction mdl as [a|cm lst IH] using Model_induction; intros parent; simpl.
  - pres_go.
  - apply pres_bind; [apply _ | | intros _; pres_go; apply time_on_world].
    induction IH as [|it lst Hit _ IHlst]; pres_go; try done.
    apply time_delAtomicModel.
Qed.

Lemma time_exec t cmd : pres (keeps_time t) (exec E cmd).
Proof.
  destruct cmd; simpl.
  - unfold delModel. pres_go.
    + apply time_delAtomicModel.
    + apply time_delCoupledModel.
  - apply time_addObservableToView.
Qed.

Lemma time_gets_now t {B} (f : Time → M W B) :
  pres (keeps_time t) (f t) → pres (keeps_time t) (bind (gets m_currentTime) f).
Proof. intros Hf. apply time_gets. intros c Ht _. rewrite Ht. apply Hf. Qed.

Lemma time_execs t cmds : pres (keeps_time t) (foreach cmds (exec E)).
Proof. pres_go. apply time_exec. Qed.

Lemma time_call_output t sim t0 : pres (keeps_time t) (call_output E sim t0).
Proof.
  unfold call_output. pres_go;
    [apply time_log | apply time_on_world | apply time_exec].
Qed.

Lemma time_call_internalTransition t sim ev :
  pres (keeps_time t) (call_internalTransition E sim ev).
Proof.
  unfold call_internalTransition. pres_go;
    [apply time_log | apply time_on_world | apply time_exec].
Qed.

Lemma time_call_externalTransition t sim lst t0 :
  pres (keeps_time t) (call_externalTransition E sim lst t0).
Proof.
  unfold call_externalTransition. pres_go;
    [apply time_log | apply time_on_world | apply time_exec].
Qed.

Lemma time_call_request t sim ev t0 :
  pres (keeps_time t) (call_request E sim ev t0).
Proof.
  unfold call_request. pres_go;
    [apply time_log | apply time_on_world | apply time_exec].
Qed.

Lemma time_call_observation t sim ev :
  pres (keeps_time t) (call_observation E sim ev).
Proof.
  unfold call_observation. pres_go; [apply time_log | apply time_on_world].
Qed.

Lemma call_output_returns sim t0 :
  causal E →
  returns (λ result, Forall (λ e, t0 ≤ ee_time e) result)
    (call_output E sim t0).
Proof.
  intros (Hout & _) c c' result H.
  apply call_output_spec in H as [-> _]. apply Hout.
Qed.

Lemma call_internalTransition_returns sim ev :
  causal E →
  returns (λ next, ∀ e, next = Some e → ie_time ev ≤ ie_time e)
    (call_internalTransition E sim ev).
Proof.
  intros (_ & Hint & _) c c' next H.
  apply call_internalTransition_spec in H as [-> _]. apply Hint.
Qed.

Lemma call_externalTransition_returns sim lst t0 :
  causal E →
  returns (λ next, ∀ e, next = Some e → t0 ≤ ie_time e)
    (call_externalTransition E sim lst t0).
Proof.
  intros (_ & _ & Hext & _) c c' next.
  unfold call_externalTransition, log, on_world.
  rewrite bind_modify, bind_gets, bind_modify. simpl.
  intros H. apply bind_Ok in H as (c2 & [] & _ & [= _ <-]). apply Hext.
Qed.

Lemma call_request_returns sim ev t0 :
  causal E →
  returns (λ result, Forall (λ e, t0 ≤ ee_time e) result)
    (call_request E sim ev t0).
Proof.
  intros (_ & _ & _ & Hreq & _) c c' result.
  unfold call_request, log, on_world.
  rewrite bind_modify, bind_gets, bind_modify. simpl.
  intros H. apply bind_Ok in H as (c2 & [] & _ & [= _ <-]). apply Hreq.
Qed.

Lemma call_observation_returns sim ev :
  causal E →
  returns (λ event, ∀ e, event = Some e → oe_time ev ≤ oe_time e)
    (call_observation E sim ev).
Proof.
  intros (_ & _ & _ & _ & Hobs) c c' event.
  unfold call_observation, log, on_world.
  rewrite bind_modify, bind_gets, bind_modify. simpl.
  intros [= _ <-]. apply Hobs.
Qed.

Lemma time_dispatchExternalEvent t eventList sim :
  Forall (λ e, t ≤ ee_time e) eventList →
  pres (keeps_time t) (dispatchExternalEvent E eventList sim).
Proof.
  intros Hevs. unfold dispatchExternalEvent.
  apply pres_foreach; [apply _ | apply _ |]. intros it Hit.
  rewrite Forall_forall in Hevs. apply Hevs in Hit.
  pres_go; [|apply time_log].
  unfold dispatch_target. pres_go.
  - by apply time_put_request.
  - by apply time_put_external.
Qed.

Lemma time_processEventView t model event :
  pres (keeps_time t) (processEventView E model event).
Proof.
  unfold processEventView. pres_go;
    [apply time_call_observation | apply time_log..].
Qed.

Lemma time_processInternalEvent t sim bag :
  causal E → bag_from t bag →
  pres (keeps_time t) (processInternalEvent E sim bag).
Proof.
  intros Hcausal (Hint & _ & _). unfold processInternalEvent. cbv zeta.
  apply time_gets_now.
  eapply pres_bind_returns;
    [apply _ | apply time_call_output | by apply call_output_returns |].
  intros result Hresult.
  apply pres_bind; [apply _ | by apply time_dispatchExternalEvent |].
  intros _.
  destruct (internal bag) as [ev|]; [|pres_go].
  specialize (Hint ev eq_refl).
  eapply pres_bind_returns;
    [apply _ | apply time_call_internalTransition
    | by apply call_internalTransition_returns |].
  intros next Hnext. pres_go.
  - apply time_put_internal. specialize (Hnext _ eq_refl). lia.
  - apply time_processEventView.
  - apply time_log.
Qed.

Lemma time_processExternalEvents t sim bag :
  causal E → pres (keeps_time t) (processExternalEvents E sim bag).
Proof.
  intros Hcausal. unfold processExternalEvents.
  apply time_gets_now.
  eapply pres_bind_returns;
    [apply _ | apply time_call_externalTransition
    | by apply call_externalTransition_returns |].
  intros next Hnext. pres_go.
  - apply time_put_internal. by apply Hnext.
  - apply time_log.
  - apply time_processEventView.
Qed.

Lemma time_processRequestEvents t sim bag :
  causal E → pres (keeps_time t) (processRequestEvents E sim bag).
Proof.
  intros Hcausal. unfold processRequestEvents.
  apply pres_bind; [apply _ | | pres_go; apply time_log].
  apply pres_foreach; [apply _ | apply _ |]. intros it _.
  apply time_gets_now.
  eapply pres_bind_returns;
    [apply _ | apply time_call_request | by apply call_request_returns |].
  intros result Hresult. by apply time_dispatchExternalEvent.
Qed.

Lemma time_drain_step t sim bag :
  causal E → bag_from t bag → pres (keeps_time t) (drain_step E sim bag).
Proof.
  intros Hcausal Hbag. unfold drain_step.
  destruct (negb (emptyInternal bag)), (negb (emptyExternal bag));
    pres_go.
  all: first [ apply time_log
             | by apply time_processInternalEvent
             | by apply time_processExternalEvents
             | by apply time_processRequestEvents ].
Qed.

Lemma drain_step_bag_from t sim bag :
  bag_from t bag → returns (bag_from t) (drain_step E sim bag).
Proof.
  intros Hbag. unfold drain_step.
  destruct (negb (emptyInternal bag)), (negb (emptyExternal bag));
    returns_go.
  all: first
    [ eapply returns_weaken; [|apply processInternalEvent_returns]
    | eapply returns_weaken; [|apply processExternalEvents_returns]
    | eapply returns_weaken; [|apply processRequestEvents_returns] ].
  all: intros b ->; destruct Hbag as (Hi & Hx & Hr);
    unfold bag_from; simpl; by split_and!.
Qed.

Lemma time_drain t turns : ∀ sim bag,
  causal E → bag_from t bag → pres (keeps_time t) (drain E turns sim bag).
Proof.
  induction turns as [|n IH]; intros sim bag Hcausal Hbag; simpl.
  - pres_go.
  - destruct (bag_empty bag); [pres_go|].
    eapply pres_bind_returns;
      [apply _ | by apply time_drain_step | by apply drain_step_bag_from |].
    intros b Hb. by apply IH.
Qed.

Lemma time_run_bag t bag :
  causal E → bag_from t bag.2 → pres (keeps_time t) (run_bag E bag).
Proof.
  intros Hcausal Hbag. unfold run_bag. pres_go. by apply time_drain.
Qed.

Lemma time_run_bags t turns :
  causal E → pres (keeps_time t) (run_bags E turns).
Proof.
  intros Hcausal. induction turns as [|n IH]; simpl; [pres_go|].
  intros c Ht Hok. unfold topBag. rewrite bind_assoc, bind_gets.
  destruct (cb_bags (et_bag (m_eventTable c))) as [|bag rest] eqn:Hbags.
  - by rewrite bind_ret.
  - rewrite bind_assoc. unfold on_table. rewrite bind_modify, bind_ret.
    set (c1 := set_eventTable _ c).
    destruct Hok as [(Hi & Hx & Hr & Ho & Hb & Hs) Hviews].
    rewrite Hbags in Hb. apply Forall_cons in Hb as [Hbag Hrest].
    rewrite Ht in *.
    assert (H1 : m_currentTime c1 = t ∧ time_ok c1).
    { split; [done|]. split; [|done]. unfold c1; simpl.
      rewrite Ht. unfold table_from; simpl. by split_and!. }
    assert (Hp : pres (keeps_time t) (bind (run_bag E bag) (λ _, run_bags E n))).
    { apply pres_bind; [apply _ | by apply time_run_bag | intros; apply IH]. }
    apply Hp; apply H1.
Qed.

Lemma time_popState t : pres (keeps_time t) popState.
Proof.
  unfold popState. apply time_on_table.
  intros tbl (Hi & Hx & Hr & Ho & Hb & Hs). unfold table_from; simpl.
  split_and!; try done. destruct (cb_states (et_bag tbl)); [done|].
  by apply Forall_cons in Hs as [_ ?].
Qed.

Lemma time_processObservationEvent t top :
  causal E → t ≤ oe_time top →
  pres (keeps_time t) (processObservationEvent E top).
Proof.
  intros Hcausal Htop. unfold processObservationEvent.
  eapply pres_bind_returns;
    [apply _ | apply time_call_observation
    | by apply call_observation_returns |].
  intros event Hevent.
  apply pres_bind;
    [apply _ | | pres_go; [apply time_log | apply time_popState]].
  destruct event as [event|]; [|pres_go].
  specialize (Hevent _ eq_refl).
  apply time_gets. intros c Ht [Htbl Hviews].
  unfold getView. destruct (m_viewList c !! oe_view event) as [view|] eqn:Hv;
    [|done].
  assert (Hp : pres (keeps_time t)
    (bind (log (ViewProcess (v_name view) (Some event)
                  (view_processObservationEvent view event))) (λ _,
       bind (log (DeleteObservation (Some event))) (λ _,
         match view_processObservationEvent view event with
         | Some e => put_observation e
         | None => ret tt
         end)))).
  { apply pres_bind; [apply _ | apply time_log | intros _].
    apply pres_bind; [apply _ | apply time_log | intros _].
    unfold view_processObservationEvent.
    destruct (v_kind view) as [p| |] eqn:Hkind; [|pres_go..].
    apply time_put_observation. simpl.
    pose proof (Hviews _ _ _ Hv Hkind). simpl in Hevent. lia. }
  by apply Hp.
Qed.

Lemma time_processObservationEvents t :
  causal E → pres (keeps_time t) (processObservationEvents E).
Proof.
  intros Hcausal. unfold processObservationEvents.
  apply time_gets. intros c Ht Hok.
  assert (Hstates : Forall (λ e, t ≤ oe_time e)
                      (cb_states (et_bag (m_eventTable c)))).
  { destruct Hok as [(_ & _ & _ & _ & _ & Hs) _]. by rewrite Ht in Hs. }
  assert (Hp : pres (keeps_time t)
            (foreach (cb_states (et_bag (m_eventTable c)))
               (processObservationEvent E))).
  { apply pres_foreach; [apply _ | apply _ |]. intros top Htop.
    rewrite Forall_forall in Hstates.
    apply time_processObservationEvent; [done | by apply Hstates]. }
  by apply Hp.
Qed.

Lemma min_time_spec l t :
  min_time l = Some t → t ∈ l ∧ Forall (λ x, t ≤ x) l.
Proof.
  destruct l as [|x l]; [done|]. simpl. intros [= <-].
  induction l as [|y l [IHin IHall]]; simpl.
  - split; [left | constructor; [lia | done]].
  - apply Forall_cons in IHall as [Hx Hall]. split.
    + destruct (Z.min_spec y (foldr Z.min x l)) as [[_ ->]|[_ ->]].
      * right. left.
      * apply elem_of_cons in IHin as [->|Hin]; [left | right; by right].
    + constructor; [lia|]. constructor; [lia|].
      eapply Forall_impl; [exact Hall|]. simpl. lia.
Qed.

Lemma bag_update_from t key f bags :
  (∀ b, bag_from t b → bag_from t (f b)) →
  Forall (λ kb, bag_from t kb.2) bags →
  Forall (λ kb, bag_from t kb.2) (bag_update key f bags).
Proof.
  intros Hf. induction 1 as [|[k b] bags Hb Hbags IH]; simpl.
  - constructor; [|done]. apply Hf.
    unfold bag_from, no_bag; simpl. by split_and!.
  - destruct (decide (k = key)) as [->|Hne]; constructor; try done.
    by apply Hf.
Qed.

Lemma make_bags_from t ints exts reqs :
  Forall (λ e, t ≤ ie_time e) ints →
  Forall (λ e, t ≤ ee_time e) exts →
  Forall (λ e, t ≤ ee_time e) reqs →
  Forall (λ kb, bag_from t kb.2) (make_bags ints exts reqs).
Proof.
  intros Hi He Hr. unfold make_bags.
  assert (H0 : Forall (λ kb : option Simulator * EventBagModel,
                         bag_from t kb.2) []) by done.
  revert H0. generalize (@nil (option Simulator * EventBagModel)) as bags.
  intros bags Hbags.
  assert (H1 : Forall (λ kb, bag_from t kb.2)
                 (foldl (λ bags e, addInternal e bags) bags ints)).
  { revert bags Hbags. induction Hi as [|e ints He' _ IH]; intros bags Hbags;
      simpl; [done|].
    apply IH. unfold addInternal. apply bag_update_from; try done.
    intros b (Hbi & Hbe & Hbr). unfold bag_from; simpl. split_and!; try done.
    by intros e' [= <-]. }
  clear Hbags.
  assert (H2 : Forall (λ kb, bag_from t kb.2)
                 (foldl (λ bags e, addExternal e bags)
                    (foldl (λ bags e, addInternal e bags) bags ints) exts)).
  { revert H1. generalize (foldl (λ bags e, addInternal e bags) bags ints).
    induction He as [|e exts He' _ IH]; intros bs Hbs; simpl; [done|].
    apply IH. unfold addExternal. apply bag_update_from; try done.
    intros b (Hbi & Hbe & Hbr). unfold bag_from; simpl. split_and!; try done.
    apply Forall_app. split; [done|]. by constructor. }
  revert H2.
  generalize (foldl (λ bags e, addExternal e bags)
                (foldl (λ bags e, addInternal e bags) bags ints) exts).
  induction Hr as [|e reqs He' _ IH]; intros bs Hbs; simpl; [done|].
  apply IH. unfold addRequest. apply bag_update_from; try done.
  intros b (Hbi & Hbe & Hbr). unfold bag_from; simpl. split_and!; try done.
  apply Forall_app. split; [done|]. by constructor.
Qed.

Lemma Forall_filter_eq {A} (f : A → Time) (t : Time) (l : list A) :
  Forall (λ e, t ≤ f e) (filter (λ e, f e = t) l).
Proof.
  apply Forall_forall. intros e He.
  apply list_elem_of_filter in He as [-> _]. lia.
Qed.

(** The table after [popEvent]: its time is the earliest scheduled time,
    no earlier than any bound on the pending events, and nothing left in
    the table or put in the bag of the instant is earlier. *)
Lemma popEvent_from t0 tbl t :
  topEvent tbl = Some t →
  Forall (λ e, t0 ≤ ie_time e) (et_internal tbl) →
  Forall (λ e, t0 ≤ ee_time e) (et_external tbl) →
  Forall (λ e, t0 ≤ ee_time e) (et_request tbl) →
  Forall (λ e, t0 ≤ oe_time e) (et_observation tbl) →
  t0 ≤ t ∧ et_currentTime (popEvent tbl) = t ∧ table_from t (popEvent tbl).
Proof.
  intros Htop Hi Hx Hr Ho. unfold popEvent. rewrite Htop.
  apply min_time_spec in Htop as [Hin Hall]. unfold et_times in *.
  rewrite !Forall_app, !Forall_fmap in Hall.
  destruct Hall as (Hi' & Hx' & Hr' & Ho').
  split; [|split; [done|]].
  - rewrite !elem_of_app, !list_elem_of_fmap in Hin.
    rewrite Forall_forall in Hi. rewrite Forall_forall in Hx.
    rewrite Forall_forall in Hr. rewrite Forall_forall in Ho.
    destruct Hin as [(e & -> & He)|[(e & -> & He)|[(e & -> & He)|(e & -> & He)]]].
    + by apply Hi.
    + by apply Hx.
    + by apply Hr.
    + by apply Ho.
  - unfold table_from; simpl.
    split_and!; try by apply Forall_filter_keep.
    apply make_bags_from.
    + apply (Forall_filter_eq ie_time).
    + apply (Forall_filter_eq ee_time).
    + apply (Forall_filter_eq ee_time).
Qed.

Lemma popEvent_none tbl :
  topEvent tbl = None → popEvent tbl = set_bag cb_clear tbl.
Proof. unfold popEvent. by intros ->. Qed.

(** The state in which the loop over the bags starts: the time has not
    decreased and nothing is scheduled in the past. *)
Lemma popped_time c :
  time_ok c → m_currentTime c ≤ m_currentTime (popped c) ∧ time_ok (popped c).
Proof.
  intros [(Hi & Hx & Hr & Ho & Hb & Hs) Hviews].
  unfold popped.
  destruct (topEvent (m_eventTable c)) as [t|] eqn:Htop.
  - destruct (popEvent_from (m_currentTime c) _ t Htop Hi Hx Hr Ho)
      as (Hle & Ht & Hfrom).
    destruct (cb_empty (et_bag (popEvent (m_eventTable c)))) eqn:Hempty.
    + split; [simpl; lia|]. split; [|done]. simpl.
      destruct Hfrom as (Hi' & Hx' & Hr' & Ho' & Hb' & Hs').
      unfold cb_empty in Hempty.
      unfold table_from.
      destruct (cb_bags (et_bag (popEvent (m_eventTable c)))),
        (cb_states (et_bag (popEvent (m_eventTable c)))); try discriminate.
      split_and!; try done.
      all: eapply Forall_impl; [eassumption|]; simpl; intros; lia.
    + unfold time_ok, set_currentTime, set_eventTable.
      cbn [m_currentTime m_eventTable m_viewList]. rewrite Ht.
      by split_and!.
  - rewrite (popEvent_none _ Htop). simpl.
    split; [lia|]. split; [|done]. simpl. unfold table_from; simpl.
    by split_and!.
Qed.

Lemma run_unfold c :
  run E c
  = bind (run_bags E (length (bags_of (popped c)))) (λ _,
      bind (delete_old (m_toDelete c)) (λ _, observation_phase E))
      (popped c).
Proof.
  unfold run. rewrite bind_gets. unfold bind at 1.
  rewrite run_transitions_unfold. reflexivity.
Qed.

Lemma time_delete_old t n : pres (keeps_time t) (delete_old n).
Proof.
  unfold delete_old. destruct (bool_decide (0 < n)%nat); pres_go.
  - apply time_log.
  - apply time_set_deletedSimulator.
  - apply time_set_toDelete.
Qed.

Lemma time_observation_phase t :
  causal E → pres (keeps_time t) (observation_phase E).
Proof.
  intros Hcausal. unfold observation_phase. pres_go.
  - by apply time_processObservationEvents.
  - apply time_on_table. intros tbl (Hi & Hx & Hr & Ho & Hb & Hs).
    unfold table_from; simpl. by split_and!.
Qed.

(** One call of [run]: the current time does not decrease, and nothing is
    scheduled in the past when the call is over. *)
Lemma run_time c :
  causal E → time_ok c →
  m_currentTime c ≤ m_currentTime (fst (run E c)) ∧ time_ok (fst (run E c)).
Proof.
  intros Hcausal Hok. rewrite run_unfold.
  destruct (popped_time c Hok) as [Hle Hok'].
  set (t := m_currentTime (popped c)) in *.
  assert (Hp : pres (keeps_time t)
            (bind (run_bags E (length (bags_of (popped c)))) (λ _,
               bind (delete_old (m_toDelete c)) (λ _, observation_phase E)))).
  { pres_go.
    - by apply time_run_bags.
    - apply time_delete_old.
    - by apply time_observation_phase. }
  destruct (Hp (popped c) eq_refl Hok') as [Ht Hok'']. by rewrite Ht.
Qed.

Lemma runs_snoc n : ∀ c, runs E (S n) c = bind (runs E n) (λ _, run E) c.
Proof.
  induction n as [|n IH]; intros c.
  - simpl. unfold bind, ret. by destruct (run E c) as [c1 [[]|e]].
  - change (runs E (S (S n)) c) with (bind (run E) (λ _, runs E (S n)) c).
    change (runs E (S n)) with (bind (run E) (λ _ : unit, runs E n)).
    rewrite bind_assoc. unfold bind at 1 3.
    destruct (run E c) as [c1 [[]|e]]; [|done]. apply IH.
Qed.

Lemma runs_time n : ∀ c,
  causal E → time_ok c →
  m_currentTime c ≤ m_currentTime (fst (runs E n c))
  ∧ time_ok (fst (runs E n c)).
Proof.
  induction n as [|n IH]; intros c Hcausal Hok; simpl.
  - split; [lia | done].
  - destruct (run_time c Hcausal Hok) as [Hle Hok1]. unfold bind.
    destruct (run E c) as [c1 [[]|e]]; simpl in *; [|done].
    destruct (IH c1 Hcausal Hok1) as [Hle' Hok']. split; [lia | done].
Qed.

(** A call of [run] that pops an empty bag. *)
Lemma run_empty_bag c :
  cb_empty (et_bag (popEvent (m_eventTable c))) = true →
  m_currentTime (fst (run E c)) = m_currentTime c
  ∧ m_modelList (fst (run E c)) = m_modelList c
  ∧ world (fst (run E c)) = world c
  ∧ snd (run E c) = Ok tt.
Proof.
  intros Hempty.
  destruct (run E c) as [cr r] eqn:Hrun. cbn [fst snd].
  revert Hrun. rewrite run_unfold.
  assert (Hp : popped c = set_eventTable (popEvent (m_eventTable c)) c).
  { unfold popped. by rewrite Hempty. }
  unfold cb_empty in Hempty.
  destruct (cb_bags (et_bag (popEvent (m_eventTable c)))) eqn:Hbags;
    [|done].
  destruct (cb_states (et_bag (popEvent (m_eventTable c)))) eqn:Hstates;
    [|done].
  assert (Hb : bags_of (popped c) = []).
  { rewrite Hp. unfold bags_of. by cbn [m_eventTable set_eventTable]. }
  rewrite Hb. cbn [length run_bags]. rewrite bind_ret.
  destruct (delete_old_spec (m_toDelete c) (popped c)) as (c2 & H2 & _).
  assert (Hkeep : m_eventTable c2 = popEvent (m_eventTable c)
                  ∧ m_currentTime c2 = m_currentTime c
                  ∧ m_modelList c2 = m_modelList c ∧ world c2 = world c).
  { revert H2. rewrite Hp. unfold delete_old.
    destruct (bool_decide (0 < m_toDelete c)%nat).
    - rewrite bind_gets. unfold bind at 1. rewrite foreach_log.
      unfold bind, modify. by intros [= <-].
    - unfold ret. cbv beta. intros [= <-]. by split_and!. }
  destruct Hkeep as (Htbl & Ht & Hm & Hw).
  unfold bind at 1. rewrite H2.
  unfold observation_phase, processObservationEvents.
  rewrite bind_assoc, bind_gets, Htbl, Hstates.
  cbn [foreach]. rewrite bind_ret. unfold on_table, modify.
  intros [= <- <-]. by split_and!.
Qed.

(** C7.  Over successive calls of [run], with simulators that answer no
    event in the past, from a state where nothing is scheduled in the
    past: the current time after one more call is never earlier, and
    nothing is ever scheduled in the past.  And a call of [run] whose
    popped bag is empty returns and leaves the current time, the model
    table and the models as they are. *)
Theorem current_time_never_decreases (c : Coordinator W) :
  causal E → time_ok c →
  (∀ n, m_currentTime (fst (runs E n c))
        ≤ m_currentTime (fst (runs E (S n) c)))
  ∧ (∀ n, m_currentTime c ≤ m_currentTime (fst (runs E n c))
          ∧ time_ok (fst (runs E n c)))
  ∧ (∀ c0 : Coordinator W,
       cb_empty (et_bag (popEvent (m_eventTable c0))) = true →
       snd (run E c0) = Ok tt
       ∧ m_currentTime (fst (run E c0)) = m_currentTime c0
       ∧ m_modelList (fst (run E c0)) = m_modelList c0
       ∧ world (fst (run E c0)) = world c0).
Proof.
  intros Hcausal Hok. split_and!.
  - intros n. rewrite runs_snoc. unfold bind.
    destruct (runs_time n c Hcausal Hok) as [_ Hokn].
    destruct (runs E n c) as [cn [[]|e]]; simpl in *; [|lia].
    by apply run_time.
  - intros n. by apply runs_time.
  - intros c0 Hempty.
    by destruct (run_empty_bag c0 Hempty) as (Ht & Hm & Hw & Hr).
Qed.

(** *** No event of a deleted simulator comes back *)

#[local] Instance keeps_free_refl s : Reflexive (keeps_free (W := W) s).
Proof. intros c Hc. exact Hc. Qed.

#[local] Instance keeps_free_trans s : Transitive (keeps_free (W := W) s).
Proof. intros c1 c2 c3 H12 H23 H. by apply H23, H12. Qed.

(** Under [keeps_free s] a continuation reads a state that is free of
    [s]. *)
Lemma free_gets s {A B} (g : Coordinator W → A) (f : A → M W B) :
  (∀ c, free s c → keeps_free s c (fst (f (g c) c))) →
  pres (keeps_free s) (bind (gets g) f).
Proof. intros Hf c Hc. rewrite bind_gets. by apply Hf. Qed.

Lemma free_same s (f : Coordinator W → Coordinator W) :
  (∀ c, m_eventTable (f c) = m_eventTable c
        ∧ m_modelList (f c) = m_modelList c) →
  pres (keeps_free s) (modify f).
Proof.
  intros Hf c [Ht Hm]. destruct (Hf c) as [Et Em].
  split; simpl; by rewrite ?Et, ?Em.
Qed.

Lemma free_on_table s op :
  op_free s op → pres (keeps_free s) (on_table (λ tbl, table_op tbl op)).
Proof. intros Hop c [Ht Hm]. split; [|done]. simpl. by apply table_op_free. Qed.

Ltac free_leaf := try (apply free_same; intros; by split).

Lemma free_put_internal s e :
  ie_model e ≠ s → pres (keeps_free s) (put_internal e).
Proof.
  intros He. unfold put_internal. pres_go; free_leaf.
  by apply (free_on_table s (OpPutInternal e)).
Qed.

Lemma free_put_external s e :
  ¬ ext_mentions s e → pres (keeps_free s) (put_external e).
Proof.
  intros He. unfold put_external. pres_go; free_leaf.
  by apply (free_on_table s (OpPutExternal e)).
Qed.

Lemma free_put_request s e :
  ¬ ext_mentions s e → pres (keeps_free s) (put_request e).
Proof.
  intros He. unfold put_request. pres_go; free_leaf.
  by apply (free_on_table s (OpPutRequest e)).
Qed.

Lemma free_put_observation s e :
  oe_model e ≠ s → pres (keeps_free s) (put_observation e).
Proof.
  intros He. unfold put_observation. pres_go; free_leaf.
  by apply (free_on_table s (OpPutObservation e)).
Qed.

Lemma free_addObservableToView s model portname view :
  pres (keeps_free s) (addObservableToView model portname view).
Proof.
  unfold addObservableToView. apply free_gets. intros c Hc.
  destruct (m_viewList c !! view) as [obs|]; [|done].
  rewrite bind_gets. unfold getModel.
  destruct (m_modelList c !! model) as [simulator|] eqn:Hsim; [|done].
  rewrite bind_gets, bind_modify.
  set (c1 := set_viewList _ c).
  assert (Hc1 : free s c1) by (destruct Hc; by split).
  intros _. unfold addObservable; simpl.
  destruct (v_kind obs); try done.
  apply free_put_observation; [|done]. simpl. intros ->.
  destruct Hc as [_ Hm]. by apply (Hm model).
Qed.

Lemma free_delAtomicModel s parent atom :
  pres (keeps_free s) (delAtomicModel E parent atom).
Proof.
  unfold delAtomicModel. pres_go; free_leaf.
  - intros c [Ht Hm]. split; [done|]. simpl. intros a Ha.
    apply lookup_delete_Some in Ha as [_ Ha]. by apply (Hm a).
  - by apply (free_on_table s (OpDelModelEvents _)).
Qed.

Lemma free_delCoupledModel s mdl :
  ∀ parent, pres (keeps_free s) (delCoupledModel E parent mdl).
Proof.
  induction mdl as [a|cm lst IH] using Model_induction; intros parent; simpl.
  - pres_go.
  - apply pres_bind; [apply _ | | intros _; pres_go; free_leaf].
    induction IH as [|it lst Hit _ IHlst]; pres_go; try done.
    apply free_delAtomicModel.
Qed.

Lemma free_exec s cmd : pres (keeps_free s) (exec E cmd).
Proof.
  destruct cmd; simpl.
  - unfold delModel. pres_go.
    + apply free_delAtomicModel.
    + apply free_delCoupledModel.
  - apply free_addObservableToView.
Qed.

Lemma free_call_output s sim t : pres (keeps_free s) (call_output E sim t).
Proof. unfold call_output. pres_go; free_leaf. apply free_exec. Qed.

Lemma free_call_internalTransition s sim ev :
  pres (keeps_free s) (call_internalTransition E sim ev).
Proof.
  unfold call_internalTransition. pres_go; free_leaf. apply free_exec.
Qed.

Lemma free_call_externalTransition s sim lst t :
  pres (keeps_free s) (call_externalTransition E sim lst t).
Proof.
  unfold call_externalTransition. pres_go; free_leaf. apply free_exec.
Qed.

Lemma free_call_request s sim ev t :
  pres (keeps_free s) (call_request E sim ev t).
Proof. unfold call_request. pres_go; free_leaf. apply free_exec. Qed.

Lemma free_call_observation s sim ev :
  pres (keeps_free s) (call_observation E sim ev).
Proof. unfold call_observation. pres_go; free_leaf. Qed.

Lemma call_internalTransition_own sim ev :
  answers_own E →
  returns (λ next, ∀ e, next = Some e → ie_model e = sim)
    (call_internalTransition E sim ev).
Proof.
  intros (Hint & _) c c' next H.
  apply call_internalTransition_spec in H as [-> _]. apply Hint.
Qed.

Lemma call_externalTransition_own sim lst t0 :
  answers_own E →
  returns (λ next, ∀ e, next = Some e → ie_model e = sim)
    (call_externalTransition E sim lst t0).
Proof.
  intros (_ & Hext & _) c c' next.
  unfold call_externalTransition, log, on_world.
  rewrite bind_modify, bind_gets, bind_modify. simpl.
  intros H. apply bind_Ok in H as (c2 & [] & _ & [= _ <-]). apply Hext.
Qed.

Lemma call_observation_own sim ev :
  answers_own E →
  returns (λ event, ∀ e, event = Some e → oe_model e = oe_model ev)
    (call_observation E sim ev).
Proof.
  intros (_ & _ & Hobs) c c' event.
  unfold call_observation, log, on_world.
  rewrite bind_modify, bind_gets, bind_modify. simpl.
  intros [= _ <-]. apply Hobs.
Qed.

(** The copy of an event of another simulator that is routed to a model
    of the table references neither. *)
Lemma free_dispatch_target s it jt :
  ee_model it ≠ Some s → pres (keeps_free s) (dispatch_target it jt).
Proof.
  intros Hit. unfold dispatch_target.
  destruct jt.1 as [a|]; [|pres_go].
  apply free_gets. intros c Hc. unfold getModel.
  assert (He : ¬ ext_mentions s (copyExternal it (m_modelList c !! a) jt.2)).
  { unfold ext_mentions; simpl. intros [?|Ha]; [done|].
    destruct Hc as [_ Hm]. by apply (Hm a). }
  destruct (isRequest it).
  - by apply free_put_request.
  - by apply free_put_external.
Qed.

Lemma free_dispatchExternalEvent s eventList sim :
  sim ≠ s → pres (keeps_free s) (dispatchExternalEvent E eventList sim).
Proof.
  intros Hsim. unfold dispatchExternalEvent. pres_go; free_leaf.
  apply free_dispatch_target. simpl. by intros [= ->].
Qed.

Lemma free_processEventView s model event :
  pres (keeps_free s) (processEventView E model event).
Proof. unfold processEventView. pres_go; free_leaf. Qed.

Lemma free_processInternalEvent s sim bag :
  answers_own E → sim ≠ s →
  pres (keeps_free s) (processInternalEvent E sim bag).
Proof.
  intros Hown Hsim. unfold processInternalEvent. cbv zeta.
  apply pres_bind; [apply _ | apply pres_gets; apply _ | intros now].
  apply pres_bind; [apply _ | apply free_call_output | intros result].
  apply pres_bind;
    [apply _ | by apply free_dispatchExternalEvent | intros _].
  destruct (internal bag) as [ev|]; [|pres_go].
  eapply pres_bind_returns;
    [apply _ | apply free_call_internalTransition
    | by apply call_internalTransition_own |].
  intros next Hnext. pres_go; free_leaf.
  - apply free_put_internal. by rewrite (Hnext _ eq_refl).
  - apply free_processEventView.
Qed.

Lemma free_processExternalEvents s sim bag :
  answers_own E → sim ≠ s →
  pres (keeps_free s) (processExternalEvents E sim bag).
Proof.
  intros Hown Hsim. unfold processExternalEvents. cbv zeta.
  apply pres_bind; [apply _ | apply pres_gets; apply _ | intros now].
  eapply pres_bind_returns;
    [apply _ | apply free_call_externalTransition
    | by apply call_externalTransition_own |].
  intros next Hnext. pres_go; free_leaf.
  - apply free_put_internal. by rewrite (Hnext _ eq_refl).
  - apply free_processEventView.
Qed.

Lemma free_processRequestEvents s sim bag :
  sim ≠ s → pres (keeps_free s) (processRequestEvents E sim bag).
Proof.
  intros Hsim. unfold processRequestEvents. pres_go; free_leaf.
  - apply free_call_request.
  - by apply free_dispatchExternalEvent.
Qed.

Lemma free_drain_step s sim bag :
  answers_own E → sim ≠ s → pres (keeps_free s) (drain_step E sim bag).
Proof.
  intros Hown Hsim. unfold drain_step.
  destruct (negb (emptyInternal bag)), (negb (emptyExternal bag));
    pres_go; free_leaf.
  all: first [ by apply free_processInternalEvent
             | by apply free_processExternalEvents
             | by apply free_processRequestEvents ].
Qed.

Lemma free_drain s turns : ∀ sim bag,
  answers_own E → sim ≠ s → pres (keeps_free s) (drain E turns sim bag).
Proof.
  induction turns as [|n IH]; intros sim bag Hown Hsim; simpl; pres_go.
  - by apply free_drain_step.
  - by apply IH.
Qed.

Lemma free_run_bag s bag :
  answers_own E → bag.1 ≠ Some s → pres (keeps_free s) (run_bag E bag).
Proof.
  intros Hown Hkey. unfold run_bag.
  destruct bag.1 as [sim|]; pres_go.
  apply free_drain; [done|]. by intros ->.
Qed.

(** The bags of the instant belong to other simulators. *)
Lemma free_run_bags s turns :
  answers_own E → pres (keeps_free s) (run_bags E turns).
Proof.
  intros Hown. induction turns as [|n IH]; simpl; [pres_go|].
  intros c Hc. unfold topBag. rewrite bind_assoc, bind_gets.
  destruct (cb_bags (et_bag (m_eventTable c))) as [|bag rest] eqn:Hbags.
  - by rewrite bind_ret.
  - rewrite bind_assoc. unfold on_table. rewrite bind_modify, bind_ret.
    set (c1 := set_eventTable _ c).
    destruct Hc as [(Hi & Hx & Hr & Ho & Hb & Hs) Hm].
    rewrite Hbags in Hb. apply Forall_cons in Hb as [[Hkey Hbag] Hrest].
    assert (H1 : free s c1).
    { split; [|done]. unfold c1, table_free, cb_free; simpl.
      by split_and!. }
    assert (Hp : pres (keeps_free s)
              (bind (run_bag E bag) (λ _, run_bags E n))).
    { apply pres_bind; [apply _ | by apply free_run_bag | intros; apply IH]. }
    by apply Hp.
Qed.

Lemma free_popState s : pres (keeps_free s) popState.
Proof.
  intros c [(Hi & Hx & Hr & Ho & Hb & Hs) Hm]. split; [|done].
  unfold table_free, cb_free; simpl. split_and!; try done.
  destruct (cb_states (et_bag (m_eventTable c))); [done|].
  by apply Forall_cons in Hs as [_ ?].
Qed.

Lemma free_processObservationEvent s top :
  answers_own E → oe_model top ≠ s →
  pres (keeps_free s) (processObservationEvent E top).
Proof.
  intros Hown Htop. unfold processObservationEvent.
  eapply pres_bind_returns;
    [apply _ | apply free_call_observation
    | by apply call_observation_own |].
  intros event Hevent.
  apply pres_bind; [apply _ | | pres_go; free_leaf; apply free_popState].
  destruct event as [event|]; [|pres_go].
  specialize (Hevent _ eq_refl).
  apply pres_bind; [apply _ | apply pres_gets; apply _ | intros view].
  destruct view as [view|]; [|pres_go]. cbv zeta.
  apply pres_bind; [apply _ | free_leaf | intros _].
  apply pres_bind; [apply _ | free_leaf | intros _].
  unfold view_processObservationEvent.
  destruct (v_kind view); [|pres_go..].
  apply free_put_observation. simpl. congruence.
Qed.

Lemma free_processObservationEvents s :
  answers_own E → pres (keeps_free s) (processObservationEvents E).
Proof.
  intros Hown. unfold processObservationEvents.
  apply free_gets. intros c Hc.
  assert (Hstates : Forall (λ e, oe_model e ≠ s)
                      (cb_states (et_bag (m_eventTable c)))).
  { by destruct Hc as [(_ & _ & _ & _ & _ & Hs) _]. }
  assert (Hp : pres (keeps_free s)
            (foreach (cb_states (et_bag (m_eventTable c)))
               (processObservationEvent E))).
  { apply pres_foreach; [apply _ | apply _ |]. intros top Htop.
    rewrite Forall_forall in Hstates.
    apply free_processObservationEvent; [done | by apply Hstates]. }
  by apply Hp.
Qed.

Lemma free_delete_old s n : pres (keeps_free s) (delete_old n).
Proof.
  unfold delete_old. destruct (bool_decide (0 < n)%nat); pres_go; free_leaf.
Qed.

Lemma free_popped s c : free s c → free s (popped c).
Proof.
  intros [Ht Hm]. unfold popped.
  destruct (cb_empty (et_bag (popEvent (m_eventTable c))));
    (split; [by apply popEvent_free | done]).
Qed.




(** *** Registration of models and views *)

(** X9.  [addModel] registers a simulator for a model that has none:
    [getModel] then returns it, the other models keep theirs, and a
    second registration of the model throws [InternalError] and changes
    nothing.  Deleting the model afterwards gives the model table back
    as it was and queues the simulator for deletion. *)
Theorem addModel_registers_once (parent : CoupledModel)
    (model : AtomicModel) (simulator other : Simulator)
    (c : Coordinator W) :
  (is_Some (getModel c model) →
     addModel model simulator c = (c, Throw InternalError))
  ∧ (getModel c model = None →
       let c' := fst (addModel model simulator c) in
       snd (addModel model simulator c) = Ok tt
       ∧ getModel c' model = Some simulator
       ∧ (∀ m, m ≠ model → getModel c' m = getModel c m)
       ∧ addModel model other c' = (c', Throw InternalError)
       ∧ snd (delAtomicModel E parent model c') = Ok tt
       ∧ m_modelList (fst (delAtomicModel E parent model c'))
         = m_modelList c
       ∧ m_deletedSimulator (fst (delAtomicModel E parent model c'))
         = m_deletedSimulator c ++ [simulator]).
Proof.
  unfold getModel. split.
  - intros [s Hs]. unfold addModel. by rewrite bind_gets, Hs.
  - intros Hnone. cbv zeta.
    assert (Hadd : addModel model simulator c
              = (set_modelList (<[model := simulator]> (m_modelList c)) c,
                 Ok tt)).
    { unfold addModel. by rewrite bind_gets, Hnone. }
    rewrite Hadd. cbn [fst snd].
    set (c' := set_modelList _ c).
    assert (Hlook : m_modelList c' !! model = Some simulator).
    { unfold c'; simpl. by rewrite lookup_insert_eq. }
    assert (Hdel : delAtomicModel E parent model c'
      = (set_world
           (graph_delModel E (clear E (world c') simulator) parent
              (Atomic model))
           (set_deletedSimulator (m_deletedSimulator c' ++ [simulator])
              (set_trace (trace c' ++ [CallClear simulator])
                 (set_eventTable
                    (delModelEvents simulator (m_eventTable c'))
                    (set_viewList
                       (removeObservable simulator <$> m_viewList c')
                       (set_modelList (delete model (m_modelList c'))
                          c'))))),
         Ok tt)).
    { unfold delAtomicModel. rewrite bind_gets, Hlook. reflexivity. }
    rewrite Hdel. cbn [fst snd]. split_and!; try done.
    + intros m Hne. unfold c'; simpl. by rewrite lookup_insert_ne.
    + unfold addModel. by rewrite bind_gets, Hlook.
    + simpl. by apply delete_insert_id.
Qed.

(** X10.  [addView] always returns.  The view registered under a name
    is the first one added with that name: a view whose name is taken is
    ignored and the coordinator is left as it was, and no other name is
    touched. *)
Theorem addView_keeps_the_first_view (view : View) (c : Coordinator W) :
  let c' := fst (addView view c) in
  snd (addView view c) = Ok tt
  ∧ getView c' (v_name view)
    = Some (default view (getView c (v_name view)))
  ∧ (∀ name, name ≠ v_name view → getView c' name = getView c name)
  ∧ (is_Some (getView c (v_name view)) → c' = c)
  ∧ (∀ second, v_name second = v_name view →
       addView second c' = (c', Ok tt)).
Proof.
  cbv zeta. unfold getView, addView. rewrite bind_gets.
  destruct (m_viewList c !! v_name view) as [old|] eqn:Hold; simpl.
  - split_and!; try done.
    intros second Hname. by rewrite bind_gets, Hname, Hold.
  - split_and!; try done.
    + by rewrite lookup_insert_eq.
    + intros name Hne. by rewrite lookup_insert_ne.
    + intros second Hname. rewrite bind_gets, Hname. simpl.
      by rewrite lookup_insert_eq.
Qed.

(** *** Routing to a destination that is not an atomic model *)

Lemma dispatch_targets_returns it out : ∀ c,
  Forall (λ jt : Model * string, is_atomic jt.1) out →
  ∃ c', foreach out (dispatch_target it) c = (c', Ok tt).
Proof.
  induction out as [|jt out IH]; intros c Hout; simpl; [by eexists|].
  apply Forall_cons in Hout as [Hjt Hout].
  assert (Hone : ∃ c1, dispatch_target it jt c = (c1, Ok tt)).
  { unfold dispatch_target. destruct jt.1; [|done].
    rewrite bind_gets. destruct (isRequest it); by eexists. }
  destruct Hone as [c1 Hone]. unfold bind. rewrite Hone. by apply IH.
Qed.

Lemma dispatch_targets_throws it out : ∀ c c' e,
  foreach out (dispatch_target it) c = (c', Throw e) → e = InternalError.
Proof.
  induction out as [|jt out IH]; intros c c' e; simpl; [done|].
  intros [H|(c1 & [] & _ & H)]%bind_Throw; [|by eapply IH].
  revert H. unfold dispatch_target. destruct jt.1.
  - rewrite bind_gets. by destruct (isRequest it).
  - by intros [= _ <-].
Qed.

Lemma dispatch_returns evs sim : ∀ c,
  Forall (λ ev, Forall (λ jt, is_atomic jt.1) (destinations E c sim ev))
    evs →
  ∃ c', dispatchExternalEvent E evs sim c = (c', Ok tt).
Proof.
  unfold dispatchExternalEvent.
  induction evs as [|ev evs IH]; intros c Hevs; simpl; [by eexists|].
  apply Forall_cons in Hevs as [Hev Hevs].
  destruct (dispatch_targets_returns (setModel ev sim) _ c Hev)
    as [c0 H0].
  pose proof H0 as Hspec.
  apply dispatch_targets_spec in Hspec as (_ & Hw & _).
  unfold bind at 1. rewrite bind_gets. unfold bind at 1.
  unfold destinations in H0. simpl in H0. rewrite H0.
  unfold log, modify. cbn [fst snd].
  apply IH. eapply Forall_impl; [exact Hevs|]. intros ev' Hev'.
  simpl in *. by rewrite (destinations_ext c).
Qed.

Lemma dispatch_throws evs sim : ∀ c c' e,
  dispatchExternalEvent E evs sim c = (c', Throw e) → e = InternalError.
Proof.
  unfold dispatchExternalEvent.
  induction evs as [|ev evs IH]; intros c c' e; simpl; [done|].
  intros [H|(c1 & [] & _ & H)]%bind_Throw; [|by eapply IH].
  rewrite bind_gets in H.
  apply bind_Throw in H as [H|(c1 & [] & _ & H)]; [|done].
  by eapply dispatch_targets_throws.
Qed.

(** X11.  [dispatchExternalEvent] returns exactly when every destination
    of every event is an atomic model; otherwise it throws, and what it
    throws is an [InternalError].  Either way it changes neither the
    models, the views, the current time nor the pending deletions. *)
Theorem dispatch_throws_iff_a_coupled_destination
    (evs : list ExternalEvent) (sim : Simulator) (c : Coordinator W) :
  let r := dispatchExternalEvent E evs sim c in
  (snd r = Ok tt
   ↔ Forall (λ ev, Forall (λ jt, is_atomic jt.1) (destinations E c sim ev))
       evs)
  ∧ (snd r ≠ Ok tt → snd r = Throw InternalError)
  ∧ m_modelList (fst r) = m_modelList c
  ∧ m_viewList (fst r) = m_viewList c
  ∧ m_currentTime (fst r) = m_currentTime c
  ∧ m_deletedSimulator (fst r) = m_deletedSimulator c
  ∧ et_internal (m_eventTable (fst r)) = et_internal (m_eventTable c).
Proof.
  cbv zeta.
  assert (Hsame : pres (λ c c' : Coordinator W,
              m_modelList c' = m_modelList c
              ∧ m_viewList c' = m_viewList c
              ∧ m_currentTime c' = m_currentTime c
              ∧ m_deletedSimulator c' = m_deletedSimulator c
              ∧ et_internal (m_eventTable c')
                = et_internal (m_eventTable c))
            (dispatchExternalEvent E evs sim)).
  { assert (Hrefl : Reflexive (λ c c' : Coordinator W,
              m_modelList c' = m_modelList c
              ∧ m_viewList c' = m_viewList c
              ∧ m_currentTime c' = m_currentTime c
              ∧ m_deletedSimulator c' = m_deletedSimulator c
              ∧ et_internal (m_eventTable c')
                = et_internal (m_eventTable c))) by done.
    assert (Htrans : Transitive (λ c c' : Coordinator W,
              m_modelList c' = m_modelList c
              ∧ m_viewList c' = m_viewList c
              ∧ m_currentTime c' = m_currentTime c
              ∧ m_deletedSimulator c' = m_deletedSimulator c
              ∧ et_internal (m_eventTable c')
                = et_internal (m_eventTable c))).
    { intros c1 c2 c3 (?&?&?&?&?) (?&?&?&?&?). split_and!; congruence. }
    unfold dispatchExternalEvent, dispatch_target, put_request,
      put_external.
    pres_go; try (apply pres_modify; intros; by split_and!). }
  destruct (Hsame c) as (Hm & Hv & Ht & Hd & Hi).
  split_and!; try done.
  - split.
    + intros Hok.
      destruct (dispatchExternalEvent E evs sim c) as [c' r] eqn:Hr.
      simpl in Hok. subst r.
      by apply dispatchExternalEvent_spec in Hr as [? _].
    + intros Hall. destruct (dispatch_returns evs sim c Hall) as [c' Hr].
      by rewrite Hr.
  - destruct (dispatchExternalEvent E evs sim c) as [c' [[]|e]] eqn:Hr;
      simpl; [done|].
    intros _. by rewrite (dispatch_throws _ _ _ _ _ Hr).
Qed.

(** *** Deletion of a coupled model *)




(** *** A deleted simulator is not called again *)

#[local] Instance quiet_refl s : Reflexive (quiet (W := W) s).
Proof.
  intros c Hc. split; [done|]. exists []. split; [apply did_refl|constructor].
Qed.

#[local] Instance quiet_trans s : Transitive (quiet (W := W) s).
Proof.
  intros c1 c2 c3 H12 H23 H1.
  destruct (H12 H1) as (H2 & l1 & Hl1 & Hq1).
  destruct (H23 H2) as (H3 & l2 & Hl2 & Hq2).
  split; [done|]. exists (l1 ++ l2).
  split; [by eapply did_trans | by apply Forall_app].
Qed.

Lemma quiet_gets s {A B} (g : Coordinator W → A) (f : A → M W B) :
  (∀ c, free s c → quiet s c (fst (f (g c) c))) →
  pres (quiet s) (bind (gets g) f).
Proof. intros Hf c Hc. rewrite bind_gets. by apply Hf. Qed.

(** A call that logs nothing. *)
Lemma quiet_keep s {A} (m : M W A) :
  pres (keeps_free s) m → (∀ c, trace (fst (m c)) = trace c) →
  pres (quiet s) m.
Proof.
  intros Hf Ht c Hc. split; [by apply Hf|]. exists [].
  split; [|constructor]. unfold did. by rewrite Ht, app_nil_r.
Qed.

Lemma quiet_log s a : calls_on s a = false → pres (quiet s) (log a).
Proof.
  intros Ha c Hc. split.
  - destruct Hc; by split.
  - exists [a]. split; [done | by constructor].
Qed.

(** A call whose acts are all of a kind that calls no simulator. *)
Lemma quiet_frame s P {A} (m : M W A) :
  (∀ a, P a = true → calls_on s a = false) →
  pres (keeps_free s) m → pres (frame P) m → pres (quiet s) m.
Proof.
  intros HP Hf Hfr c Hc. split; [by apply Hf|].
  destruct (frame_did _ _ _ (Hfr c)) as (l & Hl & Hall).
  exists l. split; [done|]. eapply Forall_impl; [exact Hall|]. exact HP.
Qed.

Ltac quiet_leaf :=
  try (apply quiet_log; reflexivity);
  try (apply quiet_keep; [apply free_same; intros; by split | done]).

Lemma quiet_put_internal s e :
  ie_model e ≠ s → pres (quiet s) (put_internal e).
Proof.
  intros He. unfold put_internal. pres_go; quiet_leaf.
  apply quiet_keep; [|done]. by apply (free_on_table s (OpPutInternal e)).
Qed.

Lemma quiet_put_observation s e :
  oe_model e ≠ s → pres (quiet s) (put_observation e).
Proof.
  intros He. unfold put_observation. pres_go; quiet_leaf.
  apply quiet_keep; [|done]. by apply (free_on_table s (OpPutObservation e)).
Qed.

Lemma quiet_addObservableToView s model portname view :
  pres (quiet s) (addObservableToView model portname view).
Proof.
  apply (quiet_frame s (λ a, match a with
                             | PutObservation _ => true
                             | _ => false
                             end)).
  - by intros [].
  - apply free_addObservableToView.
  - unfold addObservableToView. pres_go; frame_leaf.
    by apply frame_put_observation.
Qed.

Lemma quiet_delAtomicModel s parent atom :
  pres (quiet s) (delAtomicModel E parent atom).
Proof.
  unfold delAtomicModel. apply quiet_gets. intros c Hc.
  destruct (m_modelList c !! atom) as [satom|] eqn:Hsatom; [|reflexivity].
  assert (Hne : satom ≠ s).
  { intros ->. destruct Hc as [_ Hm]. by apply (Hm atom). }
  match goal with
  | |- quiet s c (fst (?m c)) => enough (Hp : pres (quiet s) m) by apply Hp
  end.
  clear c Hc Hsatom.
  pres_go; quiet_leaf.
  - apply quiet_keep; [|done].
    intros c [Ht Hm]. split; [done|]. simpl. intros a Ha.
    apply lookup_delete_Some in Ha as [_ Ha]. by apply (Hm a).
  - apply quiet_keep; [|done].
    by apply (free_on_table s (OpDelModelEvents _)).
  - apply quiet_log. simpl. by apply bool_decide_eq_false_2.
Qed.

Lemma quiet_delCoupledModel s mdl :
  ∀ parent, pres (quiet s) (delCoupledModel E parent mdl).
Proof.
  induction mdl as [a|cm lst IH] using Model_induction; intros parent; simpl.
  - pres_go.
  - apply pres_bind; [apply _ | | intros _; pres_go; quiet_leaf].
    induction IH as [|it lst Hit _ IHlst]; pres_go; try done.
    apply quiet_delAtomicModel.
Qed.

Lemma quiet_exec s cmd : pres (quiet s) (exec E cmd).
Proof.
  destruct cmd; simpl.
  - unfold delModel. pres_go.
    + apply quiet_delAtomicModel.
    + apply quiet_delCoupledModel.
  - apply quiet_addObservableToView.
Qed.

Lemma quiet_call_output s sim t :
  sim ≠ s → pres (quiet s) (call_output E sim t).
Proof.
  intros Hsim. unfold call_output. pres_go; quiet_leaf.
  - apply quiet_log. simpl. by apply bool_decide_eq_false_2.
  - apply quiet_exec.
Qed.

Lemma quiet_call_internalTransition s sim ev :
  sim ≠ s → pres (quiet s) (call_internalTransition E sim ev).
Proof.
  intros Hsim. unfold call_internalTransition. pres_go; quiet_leaf.
  - apply quiet_log. simpl. by apply bool_decide_eq_false_2.
  - apply quiet_exec.
Qed.

Lemma quiet_call_externalTransition s sim lst t :
  sim ≠ s → pres (quiet s) (call_externalTransition E sim lst t).
Proof.
  intros Hsim. unfold call_externalTransition. pres_go; quiet_leaf.
  - apply quiet_log. simpl. by apply bool_decide_eq_false_2.
  - apply quiet_exec.
Qed.

Lemma quiet_call_request s sim ev t :
  sim ≠ s → pres (quiet s) (call_request E sim ev t).
Proof.
  intros Hsim. unfold call_request. pres_go; quiet_leaf.
  - apply quiet_log. simpl. by apply bool_decide_eq_false_2.
  - apply quiet_exec.
Qed.

Lemma quiet_call_observation s sim ev :
  sim ≠ s → pres (quiet s) (call_observation E sim ev).
Proof.
  intros Hsim. unfold call_observation. pres_go; quiet_leaf.
  apply quiet_log. simpl. by apply bool_decide_eq_false_2.
Qed.

Lemma quiet_dispatchExternalEvent s eventList sim :
  sim ≠ s → pres (quiet s) (dispatchExternalEvent E eventList sim).
Proof.
  intros Hsim. apply (quiet_frame s dispatch_act).
  - by intros [].
  - by apply free_dispatchExternalEvent.
  - apply frame_dispatchExternalEvent.
Qed.

Lemma quiet_processEventView s model event :
  model ≠ s → pres (quiet s) (processEventView E model event).
Proof.
  intros Hmodel. unfold processEventView. pres_go; quiet_leaf.
  by apply quiet_call_observation.
Qed.

Lemma quiet_processInternalEvent s sim bag :
  answers_own E → sim ≠ s →
  pres (quiet s) (processInternalEvent E sim bag).
Proof.
  intros Hown Hsim. unfold processInternalEvent. cbv zeta.
  apply pres_bind; [apply _ | apply pres_gets; apply _ | intros now].
  apply pres_bind; [apply _ | by apply quiet_call_output | intros result].
  apply pres_bind;
    [apply _ | by apply quiet_dispatchExternalEvent | intros _].
  destruct (internal bag) as [ev|]; [|pres_go].
  eapply pres_bind_returns;
    [apply _ | by apply quiet_call_internalTransition
    | by apply call_internalTransition_own |].
  intros next Hnext. pres_go; quiet_leaf.
  - apply quiet_put_internal. by rewrite (Hnext _ eq_refl).
  - by apply quiet_processEventView.
Qed.

Lemma quiet_processExternalEvents s sim bag :
  answers_own E → sim ≠ s →
  pres (quiet s) (processExternalEvents E sim bag).
Proof.
  intros Hown Hsim. unfold processExternalEvents. cbv zeta.
  apply pres_bind; [apply _ | apply pres_gets; apply _ | intros now].
  eapply pres_bind_returns;
    [apply _ | by apply quiet_call_externalTransition
    | by apply call_externalTransition_own |].
  intros next Hnext. pres_go; quiet_leaf.
  - apply quiet_put_internal. by rewrite (Hnext _ eq_refl).
  - by apply quiet_processEventView.
Qed.

Lemma quiet_processRequestEvents s sim bag :
  sim ≠ s → pres (quiet s) (processRequestEvents E sim bag).
Proof.
  intros Hsim. unfold processRequestEvents. pres_go; quiet_leaf.
  - by apply quiet_call_request.
  - by apply quiet_dispatchExternalEvent.
Qed.

Lemma quiet_drain_step s sim bag :
  answers_own E → sim ≠ s → pres (quiet s) (drain_step E sim bag).
Proof.
  intros Hown Hsim. unfold drain_step.
  destruct (negb (emptyInternal bag)), (negb (emptyExternal bag));
    pres_go; quiet_leaf.
  all: first [ by apply quiet_processInternalEvent
             | by apply quiet_processExternalEvents
             | by apply quiet_processRequestEvents
             | apply quiet_log; simpl; by apply bool_decide_eq_false_2 ].
Qed.

Lemma quiet_drain s turns : ∀ sim bag,
  answers_own E → sim ≠ s → pres (quiet s) (drain E turns sim bag).
Proof.
  induction turns as [|n IH]; intros sim bag Hown Hsim; simpl; pres_go.
  - by apply quiet_drain_step.
  - by apply IH.
Qed.

Lemma quiet_run_bag s bag :
  answers_own E → bag.1 ≠ Some s → pres (quiet s) (run_bag E bag).
Proof.
  intros Hown Hkey. unfold run_bag.
  destruct bag.1 as [sim|]; pres_go.
  apply quiet_drain; [done|]. by intros ->.
Qed.

(** The bags of the instant belong to other simulators. *)
Lemma quiet_run_bags s turns :
  answers_own E → pres (quiet s) (run_bags E turns).
Proof.
  intros Hown. induction turns as [|n IH]; simpl; [pres_go|].
  intros c Hc. unfold topBag. rewrite bind_assoc, bind_gets.
  destruct (cb_bags (et_bag (m_eventTable c))) as [|bag rest] eqn:Hbags.
  - rewrite bind_ret. by apply quiet_refl.
  - rewrite bind_assoc. unfold on_table. rewrite bind_modify, bind_ret.
    set (c1 := set_eventTable _ c).
    destruct Hc as [(Hi & Hx & Hr & Ho & Hb & Hs) Hm].
    rewrite Hbags in Hb. apply Forall_cons in Hb as [[Hkey Hbag] Hrest].
    assert (H1 : free s c1).
    { split; [|done]. unfold c1, table_free, cb_free; simpl.
      by split_and!. }
    assert (Hp : pres (quiet s)
              (bind (run_bag E bag) (λ _, run_bags E n))).
    { apply pres_bind; [apply _ | by apply quiet_run_bag | intros; apply IH]. }
    exact (Hp c1 H1).
Qed.

Lemma quiet_processObservationEvent s top :
  answers_own E → oe_model top ≠ s →
  pres (quiet s) (processObservationEvent E top).
Proof.
  intros Hown Htop. unfold processObservationEvent.
  eapply pres_bind_returns;
    [apply _ | by apply quiet_call_observation
    | by apply call_observation_own |].
  intros event Hevent.
  apply pres_bind;
    [apply _ | | pres_go; quiet_leaf;
                 apply quiet_keep; [apply free_popState | done]].
  destruct event as [event|]; [|pres_go].
  specialize (Hevent _ eq_refl).
  apply pres_bind; [apply _ | apply pres_gets; apply _ | intros view].
  destruct view as [view|]; [|pres_go]. cbv zeta.
  apply pres_bind; [apply _ | quiet_leaf | intros _].
  apply pres_bind; [apply _ | quiet_leaf | intros _].
  unfold view_processObservationEvent.
  destruct (v_kind view); [|pres_go..].
  apply quiet_put_observation. simpl. congruence.
Qed.

Lemma quiet_processObservationEvents s :
  answers_own E → pres (quiet s) (processObservationEvents E).
Proof.
  intros Hown. unfold processObservationEvents.
  apply quiet_gets. intros c Hc.
  assert (Hstates : Forall (λ e, oe_model e ≠ s)
                      (cb_states (et_bag (m_eventTable c)))).
  { by destruct Hc as [(_ & _ & _ & _ & _ & Hs) _]. }
  assert (Hp : pres (quiet s)
            (foreach (cb_states (et_bag (m_eventTable c)))
               (processObservationEvent E))).
  { apply pres_foreach; [apply _ | apply _ |]. intros top Htop.
    rewrite Forall_forall in Hstates.
    apply quiet_processObservationEvent; [done | by apply Hstates]. }
  by apply Hp.
Qed.

Lemma quiet_delete_old s n : pres (quiet s) (delete_old n).
Proof.
  unfold delete_old. destruct (bool_decide (0 < n)%nat); pres_go; quiet_leaf.
Qed.

(** A call of [run] on a coordinator that is free of [s] calls no method
    of [s]. *)
Lemma run_quiet s c : answers_own E → quiet s c (fst (run E c)).
Proof.
  intros Hown Hc. rewrite run_unfold.
  assert (Hp : pres (quiet s)
            (bind (run_bags E (length (bags_of (popped c)))) (λ _,
               bind (delete_old (m_toDelete c))
                 (λ _, observation_phase E)))).
  { unfold observation_phase. pres_go.
    - by apply quiet_run_bags.
    - apply quiet_delete_old.
    - by apply quiet_processObservationEvents.
    - apply quiet_keep; [|done].
      intros c' [(Hi & Hx & Hr & Ho & Hb & Hs) Hm]. split; [|done].
      unfold table_free, cb_free; simpl. by split_and!. }
  destruct (Hp (popped c) (free_popped s c Hc)) as (Hfree & l & Hl & Hall).
  split; [done|]. exists l. split; [|done].
  unfold did in *. rewrite Hl. f_equal. unfold popped.
  by destruct (cb_empty (et_bag (popEvent (m_eventTable c)))).
Qed.

Lemma runs_quiet s n : ∀ c, answers_own E → quiet s c (fst (runs E n c)).
Proof.
  induction n as [|n IH]; intros c Hown; simpl; [reflexivity|].
  pose proof (run_quiet s c Hown) as Hrun. unfold bind.
  destruct (run E c) as [c1 [[]|e]]; simpl in *; [|done].
  etrans; [exact Hrun|]. by apply IH.
Qed.

(** *** Calls that delete no model *)

#[local] Instance idle_refl : Reflexive (idle (W := W)).
Proof. intros c. split; [done|]. exists []. split; [apply did_refl | done]. Qed.

#[local] Instance idle_trans : Transitive (idle (W := W)).
Proof.
  intros c1 c2 c3 (Hm1 & l1 & Hl1 & Hc1) (Hm2 & l2 & Hl2 & Hc2).
  split; [congruence|]. exists (l1 ++ l2).
  split; [by eapply did_trans|]. by rewrite cleared_app, Hc1, Hc2.
Qed.

Lemma idle_same (f : Coordinator W → Coordinator W) :
  (∀ c, m_modelList (f c) = m_modelList c ∧ trace (f c) = trace c) →
  pres idle (modify f).
Proof.
  intros Hf c. destruct (Hf c) as [Hm Ht]. split; [done|].
  exists []. split; [|done]. unfold did. simpl. by rewrite Ht, app_nil_r.
Qed.

Lemma idle_log a : cleared [a] = [] → pres idle (log a).
Proof. intros Ha c. split; [done|]. by exists [a]. Qed.

Lemma idle_gets {A B} (g : Coordinator W → A) (f : A → M W B) :
  (∀ c, idle c (fst (f (g c) c))) → pres idle (bind (gets g) f).
Proof. intros Hf c. rewrite bind_gets. apply Hf. Qed.

Ltac idle_leaf :=
  lazymatch goal with
  | |- Devs.pres _ (log _) => apply idle_log; reflexivity
  | |- Devs.pres _ (on_world _) => apply idle_same; intros; by split
  | |- Devs.pres _ (on_table _) => apply idle_same; intros; by split
  | |- Devs.pres _ (modify _) => apply idle_same; intros; by split
  | _ => idtac
  end.

Lemma idle_put_internal e : pres idle (put_internal e).
Proof. unfold put_internal. pres_go; idle_leaf. Qed.

Lemma idle_put_external e : pres idle (put_external e).
Proof. unfold put_external. pres_go; idle_leaf. Qed.

Lemma idle_put_request e : pres idle (put_request e).
Proof. unfold put_request. pres_go; idle_leaf. Qed.

Lemma idle_put_observation e : pres idle (put_observation e).
Proof. unfold put_observation. pres_go; idle_leaf. Qed.

Lemma idle_addObservableToView model portname view :
  pres idle (addObservableToView model portname view).
Proof.
  unfold addObservableToView. pres_go; idle_leaf.
  apply idle_put_observation.
Qed.

Lemma idle_call_observation sim ev : pres idle (call_observation E sim ev).
Proof. unfold call_observation. pres_go; idle_leaf. Qed.

Lemma idle_dispatchExternalEvent eventList sim :
  pres idle (dispatchExternalEvent E eventList sim).
Proof.
  unfold dispatchExternalEvent, dispatch_target. pres_go; idle_leaf.
  - apply idle_put_request.
  - apply idle_put_external.
Qed.

Lemma idle_processEventView model event :
  pres idle (processEventView E model event).
Proof.
  unfold processEventView. pres_go; idle_leaf.
  apply idle_call_observation.
Qed.

Lemma idle_popState : pres idle popState.
Proof. unfold popState. idle_leaf. Qed.

Lemma idle_processObservationEvents :
  pres idle (processObservationEvents E).
Proof.
  unfold processObservationEvents, processObservationEvent.
  pres_go; idle_leaf.
  - apply idle_call_observation.
  - apply idle_put_observation.
  - apply idle_popState.
Qed.

Lemma idle_delete_old n : pres idle (delete_old n).
Proof.
  unfold delete_old. destruct (bool_decide (0 < n)%nat); pres_go; idle_leaf.
Qed.

(** The transitions of a model that makes no executive call. *)
Lemma idle_call_output s t :
  makes_no_call E s → pres idle (call_output E s t).
Proof.
  intros (Ho & _) c. unfold call_output, log, on_world.
  rewrite bind_modify, bind_gets, bind_modify. simpl. rewrite Ho. simpl.
  split; [done|]. by exists [CallOutput s t].
Qed.

Lemma idle_call_internalTransition s ev :
  makes_no_call E s → pres idle (call_internalTransition E s ev).
Proof.
  intros (_ & Hi & _) c. unfold call_internalTransition, log, on_world.
  rewrite bind_modify, bind_gets, bind_modify. simpl. rewrite Hi. simpl.
  split; [done|]. by exists [CallInternal s ev].
Qed.

Lemma idle_call_externalTransition s lst t :
  makes_no_call E s → pres idle (call_externalTransition E s lst t).
Proof.
  intros (_ & _ & Hx & _) c. unfold call_externalTransition, log, on_world.
  rewrite bind_modify, bind_gets, bind_modify. simpl. rewrite Hx. simpl.
  split; [done|]. by exists [CallExternal s lst t].
Qed.

Lemma idle_call_request s ev t :
  makes_no_call E s → pres idle (call_request E s ev t).
Proof.
  intros (_ & _ & _ & Hr) c. unfold call_request, log, on_world.
  rewrite bind_modify, bind_gets, bind_modify. simpl. rewrite Hr. simpl.
  split; [done|]. by exists [CallRequest s ev t].
Qed.

Lemma idle_processInternalEvent s bag :
  makes_no_call E s → pres idle (processInternalEvent E s bag).
Proof.
  intros Hno. unfold processInternalEvent. pres_go; idle_leaf.
  - by apply idle_call_output.
  - apply idle_dispatchExternalEvent.
  - by apply idle_call_internalTransition.
  - apply idle_put_internal.
  - apply idle_processEventView.
Qed.

Lemma idle_processExternalEvents s bag :
  makes_no_call E s → pres idle (processExternalEvents E s bag).
Proof.
  intros Hno. unfold processExternalEvents. pres_go; idle_leaf.
  - by apply idle_call_externalTransition.
  - apply idle_put_internal.
  - apply idle_processEventView.
Qed.

Lemma idle_processRequestEvents s bag :
  makes_no_call E s → pres idle (processRequestEvents E s bag).
Proof.
  intros Hno. unfold processRequestEvents. pres_go; idle_leaf.
  - by apply idle_call_request.
  - apply idle_dispatchExternalEvent.
Qed.

Lemma idle_drain_step s bag :
  makes_no_call E s → pres idle (drain_step E s bag).
Proof.
  intros Hno. unfold drain_step.
  destruct (negb (emptyInternal bag)), (negb (emptyExternal bag));
    pres_go; idle_leaf.
  all: first [ by apply idle_processInternalEvent
             | by apply idle_processExternalEvents
             | by apply idle_processRequestEvents ].
Qed.

Lemma idle_drain s turns : ∀ bag,
  makes_no_call E s → pres idle (drain E turns s bag).
Proof.
  induction turns as [|n IH]; intros bag Hno; simpl; pres_go.
  - by apply idle_drain_step.
  - by apply IH.
Qed.

(** The bag of a model that makes no executive call, and a bag without
    simulator. *)
Lemma idle_run_bag s bag :
  makes_no_call E s → bag.1 = Some s ∨ bag.1 = None →
  pres idle (run_bag E bag).
Proof.
  intros Hno Hkey. unfold run_bag.
  destruct bag.1 as [sim|]; pres_go.
  destruct Hkey as [[= ->]|?]; [|done]. by apply idle_drain.
Qed.

(** *** A simulator deleted during a call of [run] *)

#[local] Instance settles_refl s : Reflexive (settles (W := W) s).
Proof.
  intros c. split_and!; [done | done |].
  exists []. split; [apply did_refl|]. by intros _ ?%elem_of_nil.
Qed.

Lemma single_subseteq s (c c' : Coordinator W) :
  m_modelList c' ⊆ m_modelList c → single s c → single s c'.
Proof.
  intros Hsub Hs a a' Ha Ha'.
  apply Hs; by eapply lookup_weaken.
Qed.

#[local] Instance settles_trans s : Transitive (settles (W := W) s).
Proof.
  intros c1 c2 c3 (Hm1 & Hf1 & l1 & Hl1 & Hs1) (Hm2 & Hf2 & l2 & Hl2 & Hs2).
  split_and!.
  - by etrans.
  - intros ?. by apply Hf2, Hf1.
  - exists (l1 ++ l2). split; [by eapply did_trans|].
    intros Hsingle Hin. rewrite cleared_app in Hin.
    apply elem_of_app in Hin as [Hin|Hin].
    + by apply Hf2, Hs1.
    + apply Hs2; [|done]. by eapply single_subseteq.
Qed.

(** A call that keeps freedom and deletes no model settles. *)
Lemma settles_idle s {A} (m : M W A) :
  pres (keeps_free s) m → pres idle m → pres (settles s) m.
Proof.
  intros Hf Hi c. destruct (Hi c) as (Hm & l & Hl & Hc).
  split_and!.
  - by rewrite Hm.
  - apply Hf.
  - exists l. split; [done|]. rewrite Hc. by intros _ ?%elem_of_nil.
Qed.

Lemma settles_gets s {A B} (g : Coordinator W → A) (f : A → M W B) :
  (∀ c, settles s c (fst (f (g c) c))) → pres (settles s) (bind (gets g) f).
Proof. intros Hf c. rewrite bind_gets. apply Hf. Qed.

Ltac settles_leaf :=
  try (apply settles_idle; [apply free_same; intros; by split | idle_leaf]).

Lemma settles_delAtomicModel s parent atom :
  pres (settles s) (delAtomicModel E parent atom).
Proof.
  intros c. split_and!.
  - unfold delAtomicModel. rewrite bind_gets.
    destruct (m_modelList c !! atom) as [satom|]; [|done].
    simpl. apply delete_subseteq.
  - apply free_delAtomicModel.
  - unfold delAtomicModel. rewrite bind_gets.
    destruct (m_modelList c !! atom) as [satom|] eqn:Hsatom.
    + exists [CallClear satom]. split; [done|].
      intros Hsingle Hin. apply list_elem_of_singleton in Hin as ->.
      split; [apply delModelEvents_free|].
      simpl. intros a Ha. apply lookup_delete_Some in Ha as [Hne Ha].
      by apply Hne, (Hsingle atom a).
    + exists []. split; [apply did_refl|]. by intros _ ?%elem_of_nil.
Qed.

Lemma settles_delCoupledModel s mdl :
  ∀ parent, pres (settles s) (delCoupledModel E parent mdl).
Proof.
  induction mdl as [a|cm lst IH] using Model_induction; intros parent; simpl.
  - pres_go.
  - apply pres_bind; [apply _ | | intros _; pres_go; settles_leaf].
    induction IH as [|it lst Hit _ IHlst]; pres_go; try done.
    apply settles_delAtomicModel.
Qed.

Lemma settles_exec s cmd : pres (settles s) (exec E cmd).
Proof.
  destruct cmd; simpl.
  - unfold delModel. pres_go.
    + apply settles_delAtomicModel.
    + apply settles_delCoupledModel.
  - apply settles_idle;
      [apply free_addObservableToView | apply idle_addObservableToView].
Qed.

Lemma settles_call_output s sim t : pres (settles s) (call_output E sim t).
Proof. unfold call_output. pres_go; settles_leaf. apply settles_exec. Qed.

Lemma settles_call_internalTransition s sim ev :
  pres (settles s) (call_internalTransition E sim ev).
Proof.
  unfold call_internalTransition. pres_go; settles_leaf.
  apply settles_exec.
Qed.

Lemma settles_call_externalTransition s sim lst t :
  pres (settles s) (call_externalTransition E sim lst t).
Proof.
  unfold call_externalTransition. pres_go; settles_leaf.
  apply settles_exec.
Qed.

Lemma settles_call_request s sim ev t :
  pres (settles s) (call_request E sim ev t).
Proof. unfold call_request. pres_go; settles_leaf. apply settles_exec. Qed.

Lemma settles_dispatchExternalEvent s eventList sim :
  sim ≠ s → pres (settles s) (dispatchExternalEvent E eventList sim).
Proof.
  intros Hsim. apply settles_idle;
    [by apply free_dispatchExternalEvent | apply idle_dispatchExternalEvent].
Qed.

Lemma settles_processEventView s model event :
  pres (settles s) (processEventView E model event).
Proof.
  apply settles_idle;
    [apply free_processEventView | apply idle_processEventView].
Qed.

Lemma settles_put_internal s e :
  ie_model e ≠ s → pres (settles s) (put_internal e).
Proof.
  intros He. apply settles_idle;
    [by apply free_put_internal | apply idle_put_internal].
Qed.

Lemma settles_processInternalEvent s sim bag :
  answers_own E → sim ≠ s →
  pres (settles s) (processInternalEvent E sim bag).
Proof.
  intros Hown Hsim. unfold processInternalEvent. cbv zeta.
  apply pres_bind; [apply _ | apply pres_gets; apply _ | intros now].
  apply pres_bind; [apply _ | apply settles_call_output | intros result].
  apply pres_bind;
    [apply _ | by apply settles_dispatchExternalEvent | intros _].
  destruct (internal bag) as [ev|]; [|pres_go].
  eapply pres_bind_returns;
    [apply _ | apply settles_call_internalTransition
    | by apply call_internalTransition_own |].
  intros next Hnext. pres_go; settles_leaf.
  - apply settles_put_internal. by rewrite (Hnext _ eq_refl).
  - apply settles_processEventView.
Qed.

Lemma settles_processExternalEvents s sim bag :
  answers_own E → sim ≠ s →
  pres (settles s) (processExternalEvents E sim bag).
Proof.
  intros Hown Hsim. unfold processExternalEvents. cbv zeta.
  apply pres_bind; [apply _ | apply pres_gets; apply _ | intros now].
  eapply pres_bind_returns;
    [apply _ | apply settles_call_externalTransition
    | by apply call_externalTransition_own |].
  intros next Hnext. pres_go; settles_leaf.
  - apply settles_put_internal. by rewrite (Hnext _ eq_refl).
  - apply settles_processEventView.
Qed.

Lemma settles_processRequestEvents s sim bag :
  sim ≠ s → pres (settles s) (processRequestEvents E sim bag).
Proof.
  intros Hsim. unfold processRequestEvents. pres_go; settles_leaf.
  - apply settles_call_request.
  - by apply settles_dispatchExternalEvent.
Qed.

Lemma settles_drain_step s sim bag :
  answers_own E → sim ≠ s → pres (settles s) (drain_step E sim bag).
Proof.
  intros Hown Hsim. unfold drain_step.
  destruct (negb (emptyInternal bag)), (negb (emptyExternal bag));
    pres_go; settles_leaf.
  all: first [ by apply settles_processInternalEvent
             | by apply settles_processExternalEvents
             | by apply settles_processRequestEvents ].
Qed.

Lemma settles_drain s turns : ∀ sim bag,
  answers_own E → sim ≠ s → pres (settles s) (drain E turns sim bag).
Proof.
  induction turns as [|n IH]; intros sim bag Hown Hsim; simpl; pres_go.
  - by apply settles_drain_step.
  - by apply IH.
Qed.

(** The bag of any simulator, [s] included when its models make no
    executive call. *)
Lemma settles_run_bag s bag c :
  answers_own E → makes_no_call E s →
  let c' := fst (run_bag E bag c) in
  m_modelList c' ⊆ m_modelList c
  ∧ ∃ l, did c c' l ∧ (single s c → s ∈ cleared l → free s c').
Proof.
  intros Hown Hno. cbv zeta.
  destruct (decide (bag.1 = Some s ∨ bag.1 = None)) as [Hkey|Hkey].
  - destruct (idle_run_bag s bag Hno Hkey c) as (Hm & l & Hl & Hc).
    split; [by rewrite Hm|]. exists l. split; [done|].
    rewrite Hc. by intros _ ?%elem_of_nil.
  - assert (Hp : pres (settles s) (run_bag E bag)).
    { unfold run_bag. destruct bag.1 as [sim|] eqn:Hk; [|tauto].
      pres_go. apply settles_drain; [done|]. intros ->. tauto. }
    destruct (Hp c) as (Hm & _ & H). by split.
Qed.

Lemma settles_run_bags s turns : ∀ c,
  answers_own E → makes_no_call E s →
  let c' := fst (run_bags E turns c) in
  m_modelList c' ⊆ m_modelList c
  ∧ ∃ l, did c c' l ∧ (single s c → s ∈ cleared l → free s c').
Proof.
  induction turns as [|n IH]; intros c Hown Hno; cbv zeta; simpl.
  - split; [done|]. exists []. split; [apply did_refl|].
    by intros _ ?%elem_of_nil.
  - unfold topBag. rewrite bind_assoc, bind_gets.
    destruct (cb_bags (et_bag (m_eventTable c))) as [|bag rest] eqn:Hbags.
    + rewrite bind_ret. simpl. split; [done|]. exists [].
      split; [apply did_refl|]. by intros _ ?%elem_of_nil.
    + rewrite bind_assoc. unfold on_table. rewrite bind_modify, bind_ret.
      set (c1 := set_eventTable _ c).
      destruct (settles_run_bag s bag c1 Hown Hno) as (Hm1 & l1 & Hl1 & Hs1).
      unfold bind.
      destruct (run_bag E bag c1) as [c2 [[]|e]] eqn:Hbag;
        cbn [fst snd] in *.
      * destruct (IH c2 Hown Hno) as (Hm2 & l2 & Hl2 & Hs2).
        split; [by etrans|]. exists (l1 ++ l2).
        split; [by eapply (did_trans c1 c2)|].
        intros Hsingle Hin. rewrite cleared_app in Hin.
        apply elem_of_app in Hin as [Hin|Hin].
        -- apply (free_run_bags s n Hown c2). by apply Hs1.
        -- apply Hs2; [|done]. by apply (single_subseteq s c1).
      * split; [done|]. exists l1. by split.
Qed.

(** A call of [run] during which the model of [s] is deleted leaves a
    coordinator that is free of [s]: whether the simulator ran before the
    deletion or not, no event references it when the call is over. *)
Lemma run_settles s c T :
  answers_own E → makes_no_call E s → single s c →
  did c (fst (run E c)) T → s ∈ cleared T →
  free s (fst (run E c)).
Proof.
  intros Hown Hno Hsingle HT Hin. revert HT.
  assert (Hrun : run E c
            = match run_bags E (length (bags_of (popped c))) (popped c) with
              | (c1, Ok _) =>
                  bind (delete_old (m_toDelete c))
                    (λ _, observation_phase E) c1
              | (c1, Throw e) => (c1, Throw e)
              end).
  { rewrite run_unfold. unfold bind at 1.
    by destruct (run_bags E _ (popped c)) as [c1 [[]|e]]. }
  rewrite Hrun. clear Hrun.
  destruct (settles_run_bags s (length (bags_of (popped c))) (popped c)
              Hown Hno) as (Hm1 & l1 & Hl1 & Hs1).
  assert (Hrest : ∀ n, pres (keeps_free s)
            (bind (delete_old n) (λ _, observation_phase E))
          ∧ pres idle (bind (delete_old n) (λ _, observation_phase E))).
  { intros n. unfold observation_phase. split; pres_go.
    - apply free_delete_old.
    - by apply free_processObservationEvents.
    - intros c' [(Hi & Hx & Hr & Ho & Hb & Hs) Hm]. split; [|done].
      unfold table_free, cb_free; simpl. by split_and!.
    - apply idle_delete_old.
    - apply idle_processObservationEvents.
    - idle_leaf. }
  assert (Hsingle' : single s (popped c)).
  { unfold single, popped in *.
    by destruct (cb_empty (et_bag (popEvent (m_eventTable c)))). }
  destruct (run_bags E _ (popped c)) as [c1 [[]|e]]; cbn [fst] in *.
  - destruct (Hrest (m_toDelete c)) as [Hkeep Hidle].
    destruct (Hidle c1) as (_ & l2 & Hl2 & Hc2).
    intros HT. apply (Hkeep c1). apply Hs1; [done|].
    assert (HT' : did (popped c) (fst (bind (delete_old (m_toDelete c))
                    (λ _, observation_phase E) c1)) T).
    { unfold did in *. by rewrite popped_trace. }
    rewrite (did_inj _ _ _ _ HT' (did_trans _ _ _ _ _ Hl1 Hl2)) in Hin.
    by rewrite cleared_app, Hc2, app_nil_r in Hin.
  - intros HT. apply Hs1; [done|].
    assert (HT' : did (popped c) c1 T).
    { unfold did in *. by rewrite popped_trace. }
    by rewrite (did_inj _ _ _ _ HT' Hl1) in Hin.
Qed.


(** X16.  Once a call of [run] has deleted the model of a simulator, the
    calls of [run] that follow call no method of that simulator: no
    [confluentTransitions], output, transition, request, observation or
    second [clear]; when the models of the simulator make no executive
    call, so that the deletion was asked for by another model, the
    simulator was the simulator of one model, and the simulators answer
    with events of their own. *)
Theorem deleted_simulator_is_not_called_again (s : Simulator)
    (c : Coordinator W) (T : list Act) :
  answers_own E → makes_no_call E s → single s c →
  did c (fst (run E c)) T → s ∈ cleared T →
  ∀ n, ∃ l,
    did (fst (run E c)) (fst (runs E n (fst (run E c)))) l
    ∧ Forall (λ a, calls_on s a = false) l.
Proof.
  intros Hown Hno Hsingle HT Hin n.
  assert (Hfree : free s (fst (run E c))) by by eapply run_settles.
  destruct (runs_quiet s n (fst (run E c)) Hown Hfree) as (_ & l & Hl).
  by exists l.
Qed.

End Facts.

(** *** The run with an executive model *)

Section ScenarioFacts.
Import Scenario.

Lemma after_first_run_state :
  m_deletedSimulator after_first_run = [doomed]
  ∧ m_toDelete after_first_run = 0%nat
  ∧ m_modelList after_first_run !! 20%nat = None
  ∧ m_currentTime after_first_run = 1
  ∧ destroyed (trace after_first_run) = [].
Proof. vm_compute. done. Qed.

(** C1, at the failing input.  [init], then a first [run] in which the
    executive model deletes the model M: the simulator of M is on the list
    of the pending deletions when the second [run] starts.  The second
    [run] returns and destroys no simulator; the simulator of M is still
    pending after it, and after any number of further calls: [m_toDelete],
    set to 0 by [init], is updated only by a call that found it
    positive. *)
Theorem run_never_destroys_pending_simulator :
  doomed ∈ m_deletedSimulator after_first_run
  ∧ snd (run env after_first_run) = Ok tt
  ∧ destroyed (trace (fst (run env after_first_run))) = []
  ∧ doomed ∈ m_deletedSimulator (fst (run env after_first_run))
  ∧ ∀ n, destroyed (trace (fst (runs env n after_first_run))) = []
         ∧ doomed ∈ m_deletedSimulator (fst (runs env n after_first_run)).
Proof.
  destruct after_first_run_state as (Hdel & Hzero & _ & _ & Hnone).
  split_and!.
  - rewrite Hdel. set_solver.
  - by vm_compute.
  - by vm_compute.
  - vm_compute. set_solver.
  - intros n.
    destruct (runs_spares env n after_first_run Hzero)
      as (_ & Hprefix & l & Hl & Hd).
    split.
    + unfold did in Hl. rewrite Hl, destroyed_app. by rewrite Hnone, Hd.
    + destruct Hprefix as [more ->]. rewrite Hdel. set_solver.
Qed.

(** *** The theorems at the scenario *)

Lemma env_causal : causal env.
Proof.
  unfold causal, env; cbn. split_and!.
  - intros w s t. destruct (bool_decide (s = executive)); [|done].
    constructor; [cbn; lia | done].
  - intros w s ev e [= <-]. cbn. lia.
  - done.
  - done.
  - intros w s ev e [= <-]. lia.
Qed.

Lemma initial_views :
  m_viewList initial
  = {[ "v"%string := mkView "v" (TimedView 2) [(executive, "p"%string)];
       "e"%string := mkView "e" EventView [(executive, "p"%string)] ]}.
Proof. reflexivity. Qed.

Lemma initial_time_ok : time_ok initial.
Proof.
  split.
  - unfold table_from. cbn. split_and!; repeat constructor; cbn; lia.
  - intros name v p Hv Hk. rewrite initial_views in Hv.
    apply lookup_insert_Some in Hv as [[_ <-]|[_ Hv]].
    + injection Hk as <-. lia.
    + apply lookup_singleton_Some in Hv as [_ <-]. discriminate.
Qed.


(** [dispatchExternalEvent] for the event the executive model emits on its
    port out at time 1: the simulator of M receives it on its port in. *)
Lemma dispatch_of_executive_output :
  let evs := [mkExternal 1 None None "out" false [("x"%string, 42)]] in
  Forall (λ ev, ee_time ev = 1) evs
  ∧ snd (dispatchExternalEvent env evs executive initial) = Ok tt
  ∧ et_external
      (m_eventTable (fst (dispatchExternalEvent env evs executive initial)))
    = [mkExternal 1 (Some executive) (Some doomed) "in" false
         [("x"%string, 42)]].
Proof.
  cbv zeta.
  set (evs := [mkExternal 1 None None "out" false [("x"%string, 42)]]).
  assert (Ht : Forall (λ ev, ee_time ev = 1) evs).
  { by repeat constructor. }
  assert (Hrun : dispatchExternalEvent env evs executive initial
                 = (fst (dispatchExternalEvent env evs executive initial),
                    Ok tt)).
  { vm_compute. reflexivity. }
  split_and!; [exact Ht | by rewrite Hrun |].
  destruct (dispatch_delivers_to_every_destination env evs executive 1
              initial _ Ht Hrun) as (Hext & _).
  rewrite Hext. vm_compute. reflexivity.
Defined.

Lemma env_answers_own : answers_own env.
Proof.
  unfold answers_own, env; cbn. split_and!.
  - by intros w sim ev e [= <-].
  - done.
  - by intros w sim ev e [= <-].
Qed.

Lemma initial_models :
  m_modelList initial = {[ 10%nat := executive; 20%nat := doomed ]}.
Proof. reflexivity. Qed.

Lemma doomed_of_M_only a :
  m_modelList initial !! a = Some doomed → a = 20%nat.
Proof.
  rewrite initial_models. intros Ha.
  apply lookup_insert_Some in Ha as [[_ Heq]|[_ Ha]]; [discriminate|].
  by apply lookup_singleton_Some in Ha as [<- _].
Qed.

Lemma doomed_makes_no_call : makes_no_call env doomed.
Proof.
  unfold makes_no_call, env; cbn. split_and!; try done.
  intros w ev. by destruct w.
Qed.

Lemma initial_single : single doomed initial.
Proof.
  intros a a' Ha Ha'.
  by rewrite (doomed_of_M_only a Ha), (doomed_of_M_only a' Ha').
Qed.

Lemma first_run_deletes_doomed :
  did initial (fst (run env initial)) (trace (fst (run env initial)))
  ∧ doomed ∈ cleared (trace (fst (run env initial))).
Proof. split; [by vm_compute | vm_compute; left]. Qed.


(** Three calls of [run] from the initial state of the scenario. *)
Lemma current_time_of_scenario :
  causal env ∧ time_ok initial
  ∧ m_currentTime (fst (runs env 2 initial))
    ≤ m_currentTime (fst (runs env 3 initial))
  ∧ time_ok (fst (runs env 3 initial)).
Proof.
  destruct (current_time_never_decreases env initial env_causal
              initial_time_ok) as (Hstep & Hall & _).
  split_and!; [exact env_causal | exact initial_time_ok | apply Hstep |].
  apply Hall.
Defined.

(** [processExternalEvents] for the simulator of M and the event the
    executive model sent to its port in. *)
Lemma processExternalEvents_of_doomed :
  let bag :=
    mkBag None
      [mkExternal 1 (Some executive) (Some doomed) "in" false
         [("x"%string, 42)]] [] in
  snd (processExternalEvents env doomed bag initial) = Ok (delExternals bag)
  ∧ m_currentTime (fst (processExternalEvents env doomed bag initial))
    = m_currentTime initial.
Proof.
  cbv zeta.
  set (bag :=
    mkBag None
      [mkExternal 1 (Some executive) (Some doomed) "in" false
         [("x"%string, 42)]] []).
  assert (Hrun : processExternalEvents env doomed bag initial
                 = (fst (processExternalEvents env doomed bag initial),
                    Ok (delExternals bag))).
  { vm_compute. reflexivity. }
  split; [by rewrite Hrun|].
  destruct (processExternalEvents_transits_then_notifies env doomed bag
              (delExternals bag) initial _ Hrun) as (X & V & _ & H).
  cbv zeta in H. by destruct H as (_&_&_&_&_& Ht &_).
Defined.

(** [processRequestEvents] for the executive model and one request event
    on its port in. *)
Lemma processRequestEvents_of_executive :
  let bag :=
    mkBag None []
      [mkExternal 1 (Some doomed) (Some executive) "in" true []] in
  snd (processRequestEvents env executive bag initial) = Ok (delRequest bag)
  ∧ m_currentTime (fst (processRequestEvents env executive bag initial))
    = m_currentTime initial.
Proof.
  cbv zeta.
  set (bag :=
    mkBag None []
      [mkExternal 1 (Some doomed) (Some executive) "in" true []]).
  assert (Hrun : processRequestEvents env executive bag initial
                 = (fst (processRequestEvents env executive bag initial),
                    Ok (delRequest bag))).
  { vm_compute. reflexivity. }
  split; [by rewrite Hrun|].
  by destruct (processRequestEvents_asks_in_order env executive bag
                 (delRequest bag) initial _ Hrun) as (_ & Ht & _).
Defined.

(** The loop over a bag of the executive model that holds its internal
    event and the event of another model. *)
Lemma drain_of_a_confluent_bag :
  let bag :=
    mkBag (Some (mkInternal 1 executive))
      [mkExternal 1 (Some doomed) (Some executive) "in" false []] [] in
  snd (drain env 3 executive bag initial) = Ok (mkBag None [] [])
  ∧ ∃ l, did initial (fst (drain env 3 executive bag initial)) l
      ∧ confluent_called executive l
      ∧ internal_path_ran executive l ∧ external_path_ran executive l.
Proof.
  cbv zeta.
  set (bag :=
    mkBag (Some (mkInternal 1 executive))
      [mkExternal 1 (Some doomed) (Some executive) "in" false []] []).
  assert (Hrun : snd (drain env 3 executive bag initial)
                 = Ok (mkBag None [] [])).
  { vm_compute. reflexivity. }
  split; [exact Hrun|].
  apply (drain_runs_both_paths env executive bag initial
           (mkInternal 1 executive) (mkBag None [] [])); [done|done|exact Hrun].
Defined.

(** Three calls of [run] after the one during which the executive model
    deletes M. *)
Lemma deleted_doomed_is_not_called :
  doomed ∈ cleared (trace (fst (run env initial)))
  ∧ ∃ l,
      did (fst (run env initial))
        (fst (runs env 3 (fst (run env initial)))) l
      ∧ Forall (λ a, calls_on doomed a = false) l.
Proof.
  destruct first_run_deletes_doomed as [HT Hin].
  split; [exact Hin|].
  apply (deleted_simulator_is_not_called_again env doomed initial _
           env_answers_own doomed_makes_no_call initial_single HT Hin).
Defined.

(** The loop of [run] over a bag of the executive model that holds its
    internal event and the event of another model: [confluentTransitions]
    answers EXTERNAL, the external path runs first and the internal path
    after it. *)
Lemma run_bag_of_a_confluent_bag :
  let ev := mkInternal 1 executive in
  let exts := [mkExternal 1 (Some doomed) (Some executive) "in" false []] in
  snd (run_bag env (Some executive, mkBag (Some ev) exts []) initial)
  = Ok tt
  ∧ ∃ l,
      did initial
        (fst (run_bag env (Some executive, mkBag (Some ev) exts []) initial))
        l
      ∧ transitions l
        = [CallConfluent executive; CallExternal executive exts 0;
           CallOutput executive 0; CallInternal executive ev].
Proof.
  cbv zeta.
  set (bag := mkBag (Some (mkInternal 1 executive))
                [mkExternal 1 (Some doomed) (Some executive) "in" false []]
                []).
  assert (Hrun : run_bag env (Some executive, bag) initial
                 = (fst (run_bag env (Some executive, bag) initial), Ok tt)).
  { vm_compute. reflexivity. }
  split; [by rewrite Hrun|].
  destruct (run_bag_makes_the_calls_of_the_bag env executive bag initial _
              Hrun) as [(l & Hl & Hcalls & _) _].
  exists l. split; [exact Hl|]. rewrite Hcalls. reflexivity.
Defined.

(** The claim C4 as it is stated, that with both pending the internal
    path runs exactly when [confluentTransitions] answers INTERNAL, fails
    for the bag of the
    executive model that holds its internal event and an external event:
    the answer is EXTERNAL, and the loop of [run] over the bag runs the
    external path and then the internal path.  The same in a whole call
    of [run], from [confluent_start], where that bag is the bag of the
    instant. *)
Lemma confluent_external_runs_the_internal_path_too :
  let ev := mkInternal 1 executive in
  let exts := [mkExternal 1 (Some doomed) (Some executive) "in" false []] in
  let bag := mkBag (Some ev) exts [] in
  let T := trace (fst (run_bag env (Some executive, bag) initial)) in
  let T' := trace (fst (run env confluent_start)) in
  confluentTransitions env (world initial) executive ev exts = EXTERNAL
  ∧ snd (run_bag env (Some executive, bag) initial) = Ok tt
  ∧ did initial (fst (run_bag env (Some executive, bag) initial)) T
  ∧ external_path_ran executive T
  ∧ internal_path_ran executive T
  ∧ ¬ (internal_path_ran executive T
       ↔ confluentTransitions env (world initial) executive ev exts
         = INTERNAL)
  ∧ bags_of (popped confluent_start) = [(Some executive, bag)]
  ∧ snd (run env confluent_start) = Ok tt
  ∧ did confluent_start (fst (run env confluent_start)) T'
  ∧ ¬ (internal_path_ran executive T'
       ↔ confluentTransitions env (world confluent_start) executive ev exts
         = INTERNAL).
Proof.
  cbv zeta.
  set (bag := mkBag (Some (mkInternal 1 executive))
                [mkExternal 1 (Some doomed) (Some executive) "in" false []]
                []).
  assert (Hint : internal_path_ran executive
                   (trace (fst (run_bag env (Some executive, bag) initial)))).
  { exists 0. vm_compute. repeat (first [left; reflexivity | right]). }
  assert (Hint' : internal_path_ran executive
                    (trace (fst (run env confluent_start)))).
  { exists 1. vm_compute. repeat (first [left; reflexivity | right]). }
  split_and!.
  - reflexivity.
  - by vm_compute.
  - by vm_compute.
  - eexists _, 0. vm_compute. right. left.
  - exact Hint.
  - intros [H _]. by apply H in Hint.
  - by vm_compute.
  - by vm_compute.
  - by vm_compute.
  - intros [H _]. by apply H in Hint'.
Qed.



End ScenarioFacts.

End DevsFacts.
